(** * guff: frame extraction and grid reconciliation

    A shallow embedding of the planning, validation and slicing code of
    [src/guff.ts] (the current program, with the [claude] and [gemini]
    providers) and of its earlier single-provider variant
    ([src/unnamed/part_001], called the legacy variant below), followed by
    the properties proved about them.

    Conventions of the embedding.
    - A JavaScript number that the program only ever uses as an integer
      (frame counts, pixel sizes, loop counters) is a [Z]; [%] is [Z.rem].
    - A number that need not be whole is an IEEE 754 double, with the
      operations of the standard library's [SpecFloat] at 53 bits of
      precision: the frame aspect, the expected cell sizes and the quotient
      of drift detection, the target and the distances of aspect
      negotiation, and the result of [parseInt].  [Math.round] and
      [Math.floor] of a finite double are computed from the rational it
      stands for; their results are whole numbers, infinities or [NaN].
    - The cell sizes [Math.floor(imgW / cols)] and
      [Math.floor(imgH / actualRows)] of the slicer are integer quotients,
      and the insets are written in exact arithmetic; for the one constant
      that is not a double, the [0.03] of the inset, the binary64
      computation is written out as well and shown to agree with the exact
      one on every cell size a sheet can give.
    - [Math.log] is left to the implementation by ECMAScript and is a
      parameter of [bestAspectRatio]; what a property needs of it is said
      by [conforming].  [Aspect] and [AspectQ] are readings of the same
      function on real and on rational numbers, without rounding.
    - [String] of a whole number of 22 digits or more, written with an
      exponent, is a parameter.
    - A JavaScript string is the list of its UTF-16 code units.
    - [console.log], [console.error] and [process.exit] are the effects of a
      small writer/exit monad [M].  A run ends by returning, by
      [process.exit], with an exception that nothing catches, or never.
      Output printed only under [--debug] is left out: the embedding is the
      program run with [debug = false].
    - An image is a symbolic term recording the [sharp] operations that
      built it.  Whether [sharp] carries a pipeline out when its result is
      awaited, or throws, is given by a predicate on these terms.
    - A regular expression is the function that computes its leftmost
      match on code units; the character classes are written out.
    - The file system is the predicate [existsSync]; the one loop whose end
      depends on it takes the number of tests it may make, and is shown to
      end within one test more than there are files.
    - [String.prototype.toLowerCase] and [path.extname] are parameters. *)

From Stdlib Require Import ZArith String Ascii List Bool Lia.
From Stdlib Require Import DecimalString.
From Stdlib Require DecimalPos DecimalZ.
From Stdlib Require Import QArith Qround.
From Stdlib Require Import Reals Qreals Lra.
From Stdlib Require Import SpecFloat.
From Equations Require Import Equations.
Import ListNotations.

Set Warnings "-register-all".

(* ================================================================= *)
(** * Part I: the program *)
(* ================================================================= *)

(** ** JavaScript values *)

Module JS.

Definition jsstring := list N.

(** A literal, written as a Rocq string of 8-bit characters. *)
Definition units (s : string) : jsstring :=
  map N_of_ascii (list_ascii_of_string s).

(** [String(n)] for an integer-valued number. *)
Definition String_of_Z (z : Z) : jsstring :=
  units (NilZero.string_of_int (Z.to_int z)).

(** [xs.join(sep)] on an array of already converted elements. *)
Fixpoint join (sep : jsstring) (xs : list jsstring) : jsstring :=
  match xs with
  | [] => []
  | [x] => x
  | x :: rest => x ++ sep ++ join sep rest
  end.

(** ECMAScript WhiteSpace and LineTerminator code points, the characters
    removed by [String.prototype.trim]. *)
Definition isWhiteSpace (c : N) : bool :=
  (existsb (N.eqb c)
     [9; 10; 11; 12; 13; 32; 160; 5760; 8232; 8233; 8239; 8287; 12288; 65279]
   || ((8192 <=? c) && (c <=? 8202)))%N.

Fixpoint trimStart (s : jsstring) : jsstring :=
  match s with
  | c :: s' => if isWhiteSpace c then trimStart s' else s
  | [] => []
  end.

Definition trimEnd (s : jsstring) : jsstring := rev (trimStart (rev s)).

Definition trim (s : jsstring) : jsstring := trimEnd (trimStart s).

Fixpoint startsWith (s prefix : jsstring) : bool :=
  match prefix, s with
  | [], _ => true
  | _ :: _, [] => false
  | p :: prefix', c :: s' => (c =? p)%N && startsWith s' prefix'
  end.

(** [Math.round]: nearest integer, ties towards plus infinity. *)
Definition Math_round (x : Q) : Z := Qfloor (x + (1 # 2)).

Definition Math_floor (x : Q) : Z := Qfloor x.

(** The values [JSON.parse] can return. *)
Inductive JSON : Type :=
| JNull
| JBool (b : bool)
| JNumber (x : Q)
| JString (s : jsstring)
| JArray (elements : list JSON)
| JObject (members : list (jsstring * JSON)).

Definition typeof (v : JSON) : jsstring :=
  match v with
  | JNull => units "object"
  | JBool _ => units "boolean"
  | JNumber _ => units "number"
  | JString _ => units "string"
  | JArray _ => units "object"
  | JObject _ => units "object"
  end.

End JS.

Import JS.

(** ** Console output and process exit *)

Inductive Line : Type :=
| Log (text : jsstring)      (* console.log *)
| Error (text : jsstring).   (* console.error *)

Inductive Outcome (A : Type) : Type :=
| Return (a : A)
| Exit (code : Z)            (* process.exit(code) *)
| Throw                      (* an exception that is not caught *)
| Hang.                      (* a loop that is never left *)

Arguments Return {A} a.
Arguments Exit {A} code.
Arguments Throw {A}.
Arguments Hang {A}.

Definition M (A : Type) : Type := (list Line * Outcome A)%type.

Definition ret {A} (a : A) : M A := ([], Return a).

Definition bind {A B} (m : M A) (k : A -> M B) : M B :=
  match m with
  | (out, Return a) => let (out', r) := k a in (out ++ out', r)
  | (out, Exit code) => (out, Exit code)
  | (out, Throw) => (out, Throw)
  | (out, Hang) => (out, Hang)
  end.

Definition console_log (text : jsstring) : M unit := ([Log text], Return tt).
Definition console_error (text : jsstring) : M unit := ([Error text], Return tt).
Definition process_exit {A} (code : Z) : M A := ([], Exit code).
Definition throw {A} : M A := ([], Throw).
Definition hang {A} : M A := ([], Hang).

Declare Scope js_scope.
Delimit Scope js_scope with js.
Notation "x <- m ;; k" := (bind m (fun x => k))
  (at level 61, m at next level, right associativity) : js_scope.
Notation "m ;; k" := (bind m (fun _ => k))
  (at level 61, right associativity) : js_scope.

Definition console {A} (m : M A) : list Line := fst m.

(** ** Double-precision numbers

    JavaScript numbers are IEEE 754 binary64 values.  Where the program
    computes with numbers that need not be whole, the operations are those
    of the standard library's specification of IEEE 754 arithmetic, at 53
    bits of precision. *)

Module Binary64.

Local Open Scope Z_scope.

Definition prec : Z := 53.
Definition emax : Z := 1024.

(** An integer below [2 ^ 53] as a double. *)
Definition of_Z (z : Z) : spec_float :=
  match z with
  | Z0 => S754_zero false
  | Zpos p => S754_finite false p 0
  | Zneg p => S754_finite true p 0
  end.

(** The Number value of an integer: the nearest double, ties to even, in
    its canonical form. *)
Definition number (z : Z) : spec_float := binary_normalize prec emax z 0 false.

(** The rational a finite double stands for. *)
Definition value (f : spec_float) : option Q :=
  match f with
  | S754_zero _ => Some 0%Q
  | S754_finite s m e =>
      let magnitude :=
        if 0 <=? e then inject_Z (Z.pos m * 2 ^ e)
        else Z.pos m # Pos.pow 2 (Z.to_pos (- e)) in
      Some (if s then Qopp magnitude else magnitude)
  | S754_infinity _ | S754_nan => None
  end.

(** The double written [0.03]: [0x1.eb851eb851eb8p-6]. *)
Definition three_hundredths : spec_float :=
  S754_finite false 8646911284551352 (-58).

Definition mul : spec_float -> spec_float -> spec_float := SFmul prec emax.

Definition div : spec_float -> spec_float -> spec_float := SFdiv prec emax.

(** [Math.max(1, Math.round(size * 0.03))] in doubles, to compare with the
    exact [insetX] and [insetY] of the slicer. *)
Definition inset (size : Z) : option Z :=
  option_map (fun x => Z.max 1 (Math_round x))
             (value (mul (of_Z size) three_hundredths)).

(** A double that is a whole number, an infinity or [NaN]: what
    [Math.round] and [parseInt] return.  The two zeros are not told
    apart. *)
Inductive Integral : Type :=
| Whole (z : Z)
| Infinite (negative : bool)
| NotANumber.

(** [Math.round(f)]: the nearest whole number, ties towards plus
    infinity; it is computed without rounding error. *)
Definition round (f : spec_float) : Integral :=
  match f with
  | S754_nan => NotANumber
  | S754_infinity s => Infinite s
  | S754_zero _ => Whole 0
  | S754_finite _ _ _ =>
      match value f with
      | Some x => Whole (Math_round x)
      | None => NotANumber
      end
  end.

(** The whole number held by a double that holds one. *)
Definition whole (f : spec_float) : Integral :=
  match f with
  | S754_nan => NotANumber
  | S754_infinity s => Infinite s
  | S754_zero _ => Whole 0
  | S754_finite _ _ _ =>
      match value f with
      | Some x => Whole (Qfloor x)
      | None => NotANumber
      end
  end.

(** [a !== b] *)
Definition differ (a b : Integral) : bool :=
  match a, b with
  | Whole x, Whole y => negb (x =? y)
  | Infinite s, Infinite t => negb (Bool.eqb s t)
  | _, _ => true
  end.

Section Text.

(** [String(z)] for a whole number of 22 digits or more, which JavaScript
    writes with an exponent and the fewest digits that tell the double
    from its neighbours. *)
Variable exponential : Z -> jsstring.

(** [String(n)] *)
Definition String_of_Integral (n : Integral) : jsstring :=
  match n with
  | Whole z => if Z.abs z <? 10 ^ 21 then String_of_Z z else exponential z
  | Infinite false => units "Infinity"
  | Infinite true => units "-Infinity"
  | NotANumber => units "NaN"
  end.

End Text.

End Binary64.

(** ** Grid Layout Planner *)

Module Grid.
Record t : Type := mk { cols : Z; rows : Z }.
End Grid.

Local Open Scope Z_scope.

(** Number of values left to an upward counter [i] bounded by [bound]; the
    termination measure of the counting loops. *)
Definition remaining (bound i : Z) : nat := Z.to_nat (bound + 1 - i).

(** The [for (let r = 2; r * r <= n; r++)] loop of [gridLayout].  The
    quotient [n / r] is taken only where [r] divides [n], so it is the exact
    one. *)
Equations? gridLayout_loop (n r bestCols bestRows : Z) : Grid.t
  by wf (remaining n r) lt :=
gridLayout_loop n r bestCols bestRows with Z_le_gt_dec (r * r) n := {
  | left _ =>
      if Z.rem n r =? 0
      then gridLayout_loop n (r + 1) (n / r) r
      else gridLayout_loop n (r + 1) bestCols bestRows
  | right _ => Grid.mk bestCols bestRows }.
Proof. all: unfold remaining; nia. Qed.

Definition gridLayout (n : Z) : Grid.t := gridLayout_loop n 2 n 1.

Inductive Provider : Type := gemini | claude.

Definition Provider_eqb (p q : Provider) : bool :=
  match p, q with
  | gemini, gemini | claude, claude => true
  | _, _ => false
  end.

(** [for (let n = numFrames - 1; n >= 2; n--)]: push the first hit, break. *)
Equations? suggestBelow (n : Z) (suggest : list Z) : list Z
  by wf (Z.to_nat n) lt :=
suggestBelow n suggest with Z_ge_lt_dec n 2 := {
  | left _ =>
      let r := Grid.rows (gridLayout n) in
      if (r >? 1) || (n <=? 3) then suggest ++ [n]
      else suggestBelow (n - 1) suggest
  | right _ => suggest }.
Proof. lia. Qed.

(** [for (let n = numFrames + 1; n <= 16; n++)]: push the first hit, break. *)
Equations? suggestAbove (n : Z) (suggest : list Z) : list Z
  by wf (remaining 16 n) lt :=
suggestAbove n suggest with Z_le_gt_dec n 16 := {
  | left _ =>
      let r := Grid.rows (gridLayout n) in
      if (r >? 1) || (n <=? 3) then suggest ++ [n]
      else suggestAbove (n + 1) suggest
  | right _ => suggest }.
Proof. unfold remaining; lia. Qed.

Definition gridError (numFrames cols : Z) (suggest : list Z) : jsstring :=
  units "Error: " ++ String_of_Z numFrames
  ++ units " frames can't form a clean grid (only " ++ String_of_Z cols
  ++ units "x1). Try: " ++ join (units " or ") (map String_of_Z suggest).

(** Lines 224-247 of [guff.ts]: lay the grid out and, for the sprite-sheet
    provider, refuse a single row of more than three cells. *)
Definition checkGrid (provider : Provider) (numFrames : Z) : M Grid.t :=
  (let g := gridLayout numFrames in
   if Provider_eqb provider gemini && (Grid.rows g =? 1) && (Grid.cols g >? 3)
   then
     let suggest := suggestBelow (numFrames - 1) [] in
     let suggest := suggestAbove (numFrames + 1) suggest in
     console_error (gridError numFrames (Grid.cols g) suggest) ;;
     process_exit 1
   else ret g)%js.

(** The legacy variant has one provider and no provider test. *)
Definition checkGrid_legacy (numFrames : Z) : M Grid.t :=
  (let g := gridLayout numFrames in
   if (Grid.rows g =? 1) && (Grid.cols g >? 3)
   then
     let suggest := suggestBelow (numFrames - 1) [] in
     let suggest := suggestAbove (numFrames + 1) suggest in
     console_error (gridError numFrames (Grid.cols g) suggest) ;;
     process_exit 1
   else ret g)%js.

(** ** Aspect negotiation *)

(** [bestAspectRatio], in doubles.  [Math.log] is left to the
    implementation: it is a parameter, and what a property needs of it is
    stated there.  Doubles are in canonical form, as the operations give
    them, and on these [SFltb] is [<]. *)
Module Aspect64.

Import Binary64.

Record Ratio : Type := { label : jsstring; value : spec_float }.

Definition ratio_1_1 : Ratio := {| label := units "1:1"; value := number 1 |}.

Definition ASPECT_RATIOS : list Ratio :=
  [ ratio_1_1;
    {| label := units "16:9"; value := div (number 16) (number 9) |};
    {| label := units "9:16"; value := div (number 9) (number 16) |};
    {| label := units "4:3"; value := div (number 4) (number 3) |};
    {| label := units "3:4"; value := div (number 3) (number 4) |} ].

Section MathLog.

Variable Math_log : spec_float -> spec_float.

(** The [for (const r of ASPECT_RATIOS)] loop. *)
Fixpoint bestAspectRatio_loop (rs : list Ratio) (target : spec_float)
    (best : Ratio) (bestDist : spec_float) : Ratio :=
  match rs with
  | [] => best
  | r :: rs' =>
      let dist := SFabs (Math_log (div (value r) target)) in
      if SFltb dist bestDist
      then bestAspectRatio_loop rs' target r dist
      else bestAspectRatio_loop rs' target best bestDist
  end.

Definition bestAspectRatio (cols rows frameAR : spec_float) : jsstring :=
  let target := div (mul cols frameAR) rows in
  label (bestAspectRatio_loop ASPECT_RATIOS target
           (nth 0 ASPECT_RATIOS ratio_1_1) (S754_infinity false)).

End MathLog.

End Aspect64.

(** Two readings of [bestAspectRatio] without rounding, to relate the
    program to the arithmetic it writes down: on real numbers, with the
    natural logarithm, and an executable one on rationals. *)
Module Aspect.

Local Open Scope R_scope.

Record Ratio : Type := { label : jsstring; value : R }.

Definition ratio_1_1 : Ratio := {| label := units "1:1"; value := 1 |}.

Definition ASPECT_RATIOS : list Ratio :=
  [ ratio_1_1;
    {| label := units "16:9"; value := 16 / 9 |};
    {| label := units "9:16"; value := 9 / 16 |};
    {| label := units "4:3"; value := 4 / 3 |};
    {| label := units "3:4"; value := 3 / 4 |} ].

(** The running minimum [bestDist], which starts at [Infinity]. *)
Inductive Distance : Type :=
| Infinity
| Finite (d : R).

(** [dist < bestDist] for a finite [dist]. *)
Definition closer (dist : R) (bestDist : Distance) : bool :=
  match bestDist with
  | Infinity => true
  | Finite b => if Rlt_dec dist b then true else false
  end.

(** The [for (const r of ASPECT_RATIOS)] loop. *)
Fixpoint bestAspectRatio_loop (rs : list Ratio) (target : R)
    (best : Ratio) (bestDist : Distance) : Ratio :=
  match rs with
  | [] => best
  | r :: rs' =>
      let dist := Rabs (ln (value r / target)) in
      if closer dist bestDist
      then bestAspectRatio_loop rs' target r (Finite dist)
      else bestAspectRatio_loop rs' target best bestDist
  end.

Definition bestAspectRatio (cols rows frameAR : R) : jsstring :=
  let target := (cols * frameAR) / rows in
  label (bestAspectRatio_loop ASPECT_RATIOS target
           (nth 0 ASPECT_RATIOS ratio_1_1) Infinity).

End Aspect.

(** An executable reading of [bestAspectRatio] for integer grid sizes and a
    rational frame aspect.  For positive [x] and [y], [|ln x| < |ln y|]
    holds exactly when [max x (1/x) < max y (1/y)], so the distances are
    compared without logarithms; [AspectQ.bestAspectRatio] is proved below
    to return the label [Aspect.bestAspectRatio] returns. *)
Module AspectQ.

Local Open Scope Q_scope.

Record Ratio : Type := { label : jsstring; value : Q }.

Definition ratio_1_1 : Ratio := {| label := units "1:1"; value := 1 |}.

Definition ASPECT_RATIOS : list Ratio :=
  [ ratio_1_1;
    {| label := units "16:9"; value := 16 # 9 |};
    {| label := units "9:16"; value := 9 # 16 |};
    {| label := units "4:3"; value := 4 # 3 |};
    {| label := units "3:4"; value := 3 # 4 |} ].

Definition spread (x : Q) : Q := if Qle_bool 1 x then x else / x.

Definition closer (s : Q) (bestSpread : option Q) : bool :=
  match bestSpread with
  | None => true
  | Some b => negb (Qle_bool b s)
  end.

Fixpoint bestAspectRatio_loop (rs : list Ratio) (target : Q)
    (best : Ratio) (bestSpread : option Q) : Ratio :=
  match rs with
  | [] => best
  | r :: rs' =>
      let s := spread (value r / target) in
      if closer s bestSpread
      then bestAspectRatio_loop rs' target r (Some s)
      else bestAspectRatio_loop rs' target best bestSpread
  end.

Definition bestAspectRatio (cols rows : Z) (frameAR : Q) : jsstring :=
  let target := (inject_Z cols * frameAR) / inject_Z rows in
  label (bestAspectRatio_loop ASPECT_RATIOS target
           (nth 0 ASPECT_RATIOS ratio_1_1) None).

End AspectQ.

(** ** Options and images *)

(** The fields of [GenerateOpts] read by the code below ([model], [prompt],
    [aspectRatio], [imageSize], [temperature] and [inputImages] only shape
    the provider request). *)
Record GenerateOpts : Type := {
  numFrames : Z;
  outputW : Z;
  outputH : Z;
  cols : Z;
  rows : Z;
  frameAR : spec_float
}.

Inductive Fit : Type := cover | contain.

Module Color.
Record t : Type := mk { r : Z; g : Z; b : Z; alpha : Z }.
End Color.

(** [{ r: 255, g: 255, b: 255, alpha: 1 }] *)
Definition white : Color.t := Color.mk 255 255 255 1.

(** A raster as the chain of [sharp] calls that produced it: the provider's
    image, a buffer holding an SVG document, a canvas made by
    [sharp({ create })], and the results of [extract], [resize], [trim] and
    [composite].  The encoding of the buffer ([png()], [gif()],
    [toBuffer()]) is not recorded. *)
Inductive Image : Type :=
| ProviderImage (width height : Z)
| SvgDocument (source : jsstring)
| Create (width height channels : Z) (background : Color.t)
| Extract (input : Image) (left top width height : Z)
| Resize (input : Image) (width height : Z) (fit : Fit)
         (background : option Color.t)
| Trim (input : Image) (threshold : Z)
| Composite (canvas input : Image) (left top : Z).

(** Pixel size of a raster, where the operation fixes it: an SVG document
    and a trimmed raster have a size that depends on their content. *)
Fixpoint pixels (img : Image) : option (Z * Z) :=
  match img with
  | ProviderImage w h => Some (w, h)
  | SvgDocument _ => None
  | Create w h _ _ => Some (w, h)
  | Extract _ _ _ w h => Some (w, h)
  | Resize _ w h _ _ => Some (w, h)
  | Trim _ _ => None
  | Composite canvas _ _ _ => pixels canvas
  end.

(** What [sharp] does with a pipeline when its result is awaited: it
    resolves with the raster, or it throws (a region that is not inside the
    image, a document it cannot read).  [resolves] says which. *)
Definition toBuffer (resolves : Image -> bool) (img : Image) : M Image :=
  if resolves img then ret img else throw.

(** ** Procedural Frame Generator *)

(** What [Bun.spawnSync] reports; [exitCode] is [null] for a killed child. *)
Record SpawnResult : Type := {
  exitCode : option Z;
  stdout : jsstring;
  stderr : jsstring
}.

Definition String_of_exitCode (c : option Z) : jsstring :=
  match c with
  | Some z => String_of_Z z
  | None => units "null"
  end.

(** [typeof v !== "string" || !v.trim().startsWith("<svg")] *)
Definition notSvgString (v : JSON) : bool :=
  match v with
  | JString s => negb (startsWith (trim s) (units "<svg"))
  | _ => true
  end.

(** [for (let i = 0; i < svgs.length; i++)], entered at index [i] with the
    elements from [i] on. *)
Fixpoint checkFrames (i : Z) (rest : list JSON) : M unit :=
  match rest with
  | [] => ret tt
  | v :: rest' =>
      if notSvgString v
      then (console_error (units "Error: frame " ++ String_of_Z i
                           ++ units " is not a valid SVG string") ;;
            process_exit 1)%js
      else checkFrames (i + 1) rest'
  end.

Section Script.

(** [JSON.parse]; [None] when it throws. *)
Variable JSON_parse : jsstring -> option JSON.

Definition executeFrameScript (proc : SpawnResult) (opts : GenerateOpts)
  : M (list JSON) :=
  (if match exitCode proc with Some 0 => false | _ => true end
   then
     console_error (units "Error: generated code failed (exit "
                    ++ String_of_exitCode (exitCode proc) ++ units "):") ;;
     console_error (stderr proc) ;;
     process_exit 1
   else
     let stdout := trim (stdout proc) in
     match JSON_parse stdout with
     | None =>
         console_error (units "Error: generated code did not output valid JSON") ;;
         process_exit 1
     | Some (JArray svgs) =>
         if Z.of_nat (length svgs) =? 0
         then
           console_error (units "Error: expected array of SVG strings, got "
                          ++ typeof (JArray svgs)) ;;
           process_exit 1
         else
           (if negb (Z.of_nat (length svgs) =? numFrames opts)
            then console_log (units "Warning: got "
                              ++ String_of_Z (Z.of_nat (length svgs))
                              ++ units " frames (expected "
                              ++ String_of_Z (numFrames opts) ++ units ")")
            else ret tt) ;;
           checkFrames 0 svgs ;;
           ret svgs
     | Some v =>
         console_error (units "Error: expected array of SVG strings, got "
                        ++ typeof v) ;;
         process_exit 1
     end)%js.

(** [Buffer.from(svg)] for a validated element. *)
Definition Buffer_from (svg : JSON) : jsstring :=
  match svg with
  | JString s => s
  | _ => []
  end.

Variable resolves : Image -> bool.

(** [for (const svg of svgs)]: rasterize, with the frames pushed so far. *)
Fixpoint rasterizeFrames (opts : GenerateOpts) (svgs : list JSON)
    (frames : list Image) : M (list Image) :=
  match svgs with
  | [] => ret frames
  | svg :: rest =>
      (png <- toBuffer resolves
                (Resize (SvgDocument (Buffer_from svg))
                        (outputW opts) (outputH opts) contain (Some white)) ;;
       rasterizeFrames opts rest (frames ++ [png]))%js
  end.

(** [generateClaude] from the call of [executeFrameScript] on. *)
Definition generateClaude (proc : SpawnResult) (opts : GenerateOpts)
  : M (list Image) :=
  (svgs <- executeFrameScript proc opts ;;
   rasterizeFrames opts svgs [])%js.

End Script.

(** ** Grid Slicer *)

(** An outcome without output. *)
Definition settle {A} (o : Outcome A) : M A := ([], o).

Section Slicer.

(** How [String] writes a whole number of 22 digits or more, and whether
    [sharp] carries a pipeline out. *)
Variable exponential : Z -> jsstring.
Variable resolves : Image -> bool.

Variable opts : GenerateOpts.
Variables imgW imgH : Z.

Definition expectedFrameW : spec_float :=
  Binary64.div (Binary64.number imgW) (Binary64.number (cols opts)).
Definition expectedFrameH : spec_float :=
  Binary64.div expectedFrameW (frameAR opts).
Definition detectedRows : Binary64.Integral :=
  Binary64.round (Binary64.div (Binary64.number imgH) expectedFrameH).

(** Drift detection: the value left in [actualRows]. *)
Definition detectRows : M Binary64.Integral :=
  (let actualRows := Binary64.Whole (rows opts) in
   if Binary64.differ detectedRows (Binary64.Whole (rows opts))
   then
     console_log (units "Warning: detected "
                  ++ Binary64.String_of_Integral exponential detectedRows
                  ++ units " rows (expected " ++ String_of_Z (rows opts)
                  ++ units "), adjusting") ;;
     ret detectedRows
   else ret actualRows)%js.

Variable actualRows : Z.

Definition frameW : Z := Math_floor (inject_Z imgW / inject_Z (cols opts)).
Definition frameH : Z := Math_floor (inject_Z imgH / inject_Z actualRows).

Definition insetX : Z := Z.max 1 (Math_round (inject_Z frameW * (3 # 100))).
Definition insetY : Z := Z.max 1 (Math_round (inject_Z frameH * (3 # 100))).

(** The region handed to [extract] for the cell at ([row], [col]). *)
Definition extractCell (row col : Z) : Image :=
  Extract (ProviderImage imgW imgH)
          (col * frameW + insetX) (row * frameH + insetY)
          (frameW - insetX * 2) (frameH - insetY * 2).

(** The same region when [actualRows] is [Infinity]: [frameH] is
    [Math.floor(imgH / Infinity)], which is 0, and [insetY] is
    [Math.max(1, Math.round(0 * 0.03))], which is 1. *)
Definition extractCellOfNoHeight (row col : Z) : Image :=
  Extract (ProviderImage imgW imgH)
          (col * frameW + insetX) (row * 0 + 1)
          (frameW - insetX * 2) (0 - 1 * 2).

(** The pipeline awaited for a cell: the resized cell in [guff.ts], the
    bare extracted cell in the legacy variant. *)
Variable cell : Z -> Z -> Image.

(** [for (let col = 0; col < opts.cols && frames.length < opts.numFrames; col++)] *)
Equations? extractCols (row col : Z) (frames : list Image)
  : Outcome (list Image)
  by wf (remaining (cols opts) col) lt :=
extractCols row col frames with Z_lt_ge_dec col (cols opts) := {
  | left _ =>
      if Z.of_nat (length frames) <? numFrames opts
      then if resolves (cell row col)
           then extractCols row (col + 1) (frames ++ [cell row col])
           else Throw
      else Return frames
  | right _ => Return frames }.
Proof. unfold remaining; lia. Qed.

(** [for (let row = 0; row < actualRows && frames.length < opts.numFrames; row++)] *)
Equations? extractRows (row : Z) (frames : list Image)
  : Outcome (list Image)
  by wf (remaining actualRows row) lt :=
extractRows row frames with Z_lt_ge_dec row actualRows := {
  | left _ =>
      if Z.of_nat (length frames) <? numFrames opts
      then match extractCols row 0 frames with
           | Return frames' => extractRows (row + 1) frames'
           | Exit code => Exit code
           | Throw => Throw
           | Hang => Hang
           end
      else Return frames
  | right _ => Return frames }.
Proof. unfold remaining; lia. Qed.

End Slicer.

Section Sheet.

Variable exponential : Z -> jsstring.
Variable resolves : Image -> bool.

Variable opts : GenerateOpts.
Variables imgW imgH : Z.

(** The two loops for the row count left in [actualRows]; [finish] is what
    is chained after [extract].  For a whole number of rows they are the
    loops above.  [row < Infinity] is always true: without a column no
    frame is ever pushed and the loops are never left; with one, every
    turn of the outer loop pushes a frame, so [numFrames] turns are all
    that can be taken.  [row < -Infinity] and [row < NaN] are false. *)
Definition sliceRows (finish : Image -> Image)
    (actualRows : Binary64.Integral) : M (list Image) :=
  match actualRows with
  | Binary64.Whole z =>
      settle (extractRows resolves opts z
                (fun row col => finish (extractCell opts imgW imgH z row col))
                0 [])
  | Binary64.Infinite false =>
      if numFrames opts <=? 0 then ret []
      else if cols opts <=? 0 then hang
      else settle (extractRows resolves opts (numFrames opts)
                     (fun row col =>
                        finish (extractCellOfNoHeight opts imgW imgH row col))
                     0 [])
  | Binary64.Infinite true => ret []
  | Binary64.NotANumber => ret []
  end.

(** [generateGemini] from the image metadata on. *)
Definition generateGemini : M (list Image) :=
  (actualRows <- detectRows exponential opts imgW imgH ;;
   sliceRows (fun region =>
                Resize region (outputW opts) (outputH opts) cover None)
             actualRows)%js.

End Sheet.

(** ** Frame Reconciler (legacy variant) *)

Record TrimmedCell : Type := { data : Image; width : Z; height : Z }.

Section Reconciler.

(** [info.width] and [info.height] reported by [sharp] for a trimmed
    raster. *)
Variable trimInfo : Image -> Z * Z.

(** [for (const raw of rawFrames)]: trim and keep the running maxima. *)
Fixpoint trimFrames (rawFrames : list Image) (trimmed : list TrimmedCell)
    (maxTrimW maxTrimH : Z) : list TrimmedCell * Z * Z :=
  match rawFrames with
  | [] => (trimmed, maxTrimW, maxTrimH)
  | raw :: rest =>
      let info := trimInfo (Trim raw 20) in
      trimFrames rest
        (trimmed ++ [{| data := Trim raw 20; width := fst info; height := snd info |}])
        (Z.max maxTrimW (fst info)) (Z.max maxTrimH (snd info))
  end.

(** The canvas one trimmed cell is centred on. *)
Definition centerFrame (maxTrimW maxTrimH : Z) (t : TrimmedCell) : Image :=
  Composite (Create maxTrimW maxTrimH 4 white) (data t)
    (Math_round (inject_Z (maxTrimW - width t) / 2))
    (Math_round (inject_Z (maxTrimH - height t) / 2)).


Variable exponential : Z -> jsstring.
Variable resolves : Image -> bool.

(** The trimming loop as [sharp] runs it: every trim is awaited. *)
Fixpoint awaitTrims (rawFrames : list Image) : M unit :=
  match rawFrames with
  | [] => ret tt
  | raw :: rest =>
      (toBuffer resolves (Trim raw 20) ;; awaitTrims rest)%js
  end.

(** The centring loop as [sharp] runs it: the composite is awaited, then
    the resized frame. *)
Fixpoint centerFrames (maxTrimW maxTrimH outputW outputH : Z)
    (trimmed : list TrimmedCell) (frames : list Image) : M (list Image) :=
  match trimmed with
  | [] => ret frames
  | t :: rest =>
      (composited <- toBuffer resolves (centerFrame maxTrimW maxTrimH t) ;;
       frame <- toBuffer resolves
                  (Resize composited outputW outputH contain (Some white)) ;;
       centerFrames maxTrimW maxTrimH outputW outputH rest (frames ++ [frame]))%js
  end.

(** The legacy program from the image metadata to the final frames. *)
Definition sliceLegacy (opts : GenerateOpts) (imgW imgH : Z)
  : M (list Image) :=
  (actualRows <- detectRows exponential opts imgW imgH ;;
   rawFrames <- sliceRows resolves opts imgW imgH (fun region => region)
                  actualRows ;;
   awaitTrims rawFrames ;;
   let '(trimmed, maxTrimW, maxTrimH) := trimFrames rawFrames [] 0 0 in
   centerFrames maxTrimW maxTrimH (outputW opts) (outputH opts) trimmed [])%js.

End Reconciler.

(** ** Animation Assembler boundary *)

(** [for (let i = 0; i < frames.length; i++)]: one file per frame, entered
    at index [i] with the frames from [i] on. *)
Fixpoint writeFrames (tmpDir : jsstring) (i : Z) (frames : list Image)
  : list (jsstring * Image) :=
  match frames with
  | [] => []
  | f :: rest =>
      (tmpDir ++ units "/frame-" ++ String_of_Z i ++ units ".gif", f)
      :: writeFrames tmpDir (i + 1) rest
  end.

(** The argument vector given to the encoder. *)
Definition gifsicleArgs (delay colors : Z) (frameFiles : list jsstring)
    (outputPath : jsstring) : list jsstring :=
  [units "--delay"; String_of_Z (Math_round (inject_Z delay / 10));
   units "--loop"; units "--colors"; String_of_Z colors; units "-O3"]
  ++ frameFiles ++ [units "-o"; outputPath].

(** ** Vocabulary of the properties *)

(** [d] is a usable row count for [n] frames: a divisor of [n], at least 2
    and at most the square root of [n]. *)
Definition rowCandidate (n d : Z) : Prop := 2 <= d /\ d * d <= n /\ (d | n).

(** A count the suggestion loops accept: its grid has more than one row, or
    it is at most 3. *)
Definition cleanCount (m : Z) : Prop :=
  Grid.rows (gridLayout m) > 1 \/ m <= 3.

(** The nearest accepted count below [n], no smaller than 2. *)
Definition nearestBelow (n lo : Z) : Prop :=
  2 <= lo < n /\ cleanCount lo /\ forall m, lo < m < n -> ~ cleanCount m.

(** The nearest accepted count above [n], no larger than 16. *)
Definition nearestAbove (n hi : Z) : Prop :=
  n < hi <= 16 /\ cleanCount hi /\ forall m, n < m < hi -> ~ cleanCount m.

(** A rational entry and a real entry of the supported ratios that stand
    for the same ratio. *)
Definition sameRatio (q : AspectQ.Ratio) (r : Aspect.Ratio) : Prop :=
  AspectQ.label q = Aspect.label r /\
  Q2R (AspectQ.value q) = Aspect.value r /\
  (0 < AspectQ.value q)%Q.

(** The log-domain distance between a supported ratio and the target. *)
Definition logDistance (r : Aspect.Ratio) (target : R) : R :=
  Rabs (ln (Aspect.value r / target)).


(** A stand-in for [Math.log] with these properties: half the difference
    of a number and its inverse, which is the hyperbolic sine of the
    logarithm and so orders distances from 1 as the logarithm does.  The
    sign is set by comparison with 1, and a difference that rounds to zero
    is replaced by the smallest double above zero. *)
Definition sampleLog (x : spec_float) : spec_float :=
  match x with
  | S754_nan => S754_nan
  | S754_zero _ => S754_infinity true
  | S754_infinity s => if s then S754_nan else S754_infinity false
  | S754_finite true _ _ => S754_nan
  | S754_finite false _ _ =>
      let half :=
        SFabs (Binary64.div
                 (SFsub Binary64.prec Binary64.emax x
                        (Binary64.div (Binary64.number 1) x))
                 (Binary64.number 2)) in
      let size :=
        if SFltb (S754_zero false) half then half
        else S754_finite false 1 (-1074) in
      if SFltb x (Binary64.number 1) then SFopp size
      else if SFltb (Binary64.number 1) x then size
      else S754_zero false
  end.



Definition before (p q : Z * Z * Z) : Prop :=
  let '(a1, b1, c1) := p in
  let '(a2, b2, c2) := q in
  a1 < a2 \/ (a1 = a2 /\ (b1 < b2 \/ (b1 = b2 /\ c1 < c2))).


(** The warning printed when the detected row count differs. *)
Definition driftWarning (exponential : Z -> jsstring) (opts : GenerateOpts)
    (detected : Binary64.Integral) : Line :=
  Log (units "Warning: detected "
       ++ Binary64.String_of_Integral exponential detected
       ++ units " rows (expected " ++ String_of_Z (rows opts)
       ++ units "), adjusting").

(** The region of the cell at ([row], [col]) of a sheet cut into [cols]
    columns and [actualRows] rows, in whole-number arithmetic: cells of the
    quotient sizes, each shrunk on every side by three hundredths of its
    size, rounded half up, and by one pixel at least. *)
Definition cellRegion (imgW imgH cols actualRows row col : Z) : Image :=
  let w := imgW / cols in
  let h := imgH / actualRows in
  let insetW := Z.max 1 ((3 * w + 50) / 100) in
  let insetH := Z.max 1 ((3 * h + 50) / 100) in
  Extract (ProviderImage imgW imgH)
          (col * w + insetW) (row * h + insetH)
          (w - 2 * insetW) (h - 2 * insetH).

(** What comes of awaiting pipelines one after the other, with [frames]
    already there: all of them, or the exception of the first one that
    [sharp] does not carry out. *)
Definition awaitedAfter (resolves : Image -> bool) (frames more : list Image)
  : Outcome (list Image) :=
  if forallb resolves more then Return (frames ++ more) else Throw.

Definition awaited (resolves : Image -> bool) (pipelines : list Image)
  : Outcome (list Image) :=
  awaitedAfter resolves [] pipelines.

(** The outcome of a step that awaits [pipelines] one after the other and
    returns [frames] when none of them throws. *)
Definition awaitedFor (resolves : Image -> bool) (pipelines frames : list Image)
  : Outcome (list Image) :=
  if forallb resolves pipelines then Return frames else Throw.

(** A [sharp] that carries every pipeline out, and one that cannot read
    SVG documents. *)
Definition alwaysResolves (img : Image) : bool := true.

Definition noSvgSupport (img : Image) : bool :=
  match img with
  | Resize (SvgDocument _) _ _ _ _ => false
  | _ => true
  end.

(** The region asked for at ([row], [col]) when the row count is
    [Infinity]: cells of no height, shrunk by one pixel at the top and at
    the bottom, so two pixels less than nothing high. *)
Definition flatRegion (imgW imgH cols row col : Z) : Image :=
  let w := imgW / cols in
  let insetW := Z.max 1 ((3 * w + 50) / 100) in
  Extract (ProviderImage imgW imgH) (col * w + insetW) 1 (w - 2 * insetW) (-2).

(** A region cut from a provider image is non-empty and lies inside it. *)
Definition withinSource (img : Image) : Prop :=
  match img with
  | Extract (ProviderImage sourceW sourceH) x y w h =>
      0 < w /\ 0 < h /\ 0 <= x /\ 0 <= y /\
      x + w <= sourceW /\ y + h <= sourceH
  | _ => False
  end.

(** [count] consecutive integers from [start]. *)
Fixpoint range (start : Z) (count : nat) : list Z :=
  match count with
  | O => []
  | S k => start :: range (start + 1) k
  end.

(** The cells of a grid in reading order: rows top to bottom, and in each
    row columns left to right. *)
Definition gridCells (cell : Z -> Z -> Image) (cols actualRows : Z)
  : list Image :=
  flat_map (fun row => map (cell row) (range 0 (Z.to_nat cols)))
           (range 0 (Z.to_nat actualRows)).

(** The maximum kept by a loop that starts from 0. *)
Definition maxOf (xs : list Z) : Z := fold_left Z.max xs 0.

(** The frame the reconciler makes of one raw cell, on a canvas of the
    given size. *)
Definition centered (trimInfo : Image -> Z * Z) (canvasW canvasH : Z)
    (outputW outputH : Z) (raw : Image) : Image :=
  let w := fst (trimInfo (Trim raw 20)) in
  let h := snd (trimInfo (Trim raw 20)) in
  Resize (Composite (Create canvasW canvasH 4 white) (Trim raw 20)
            (Math_round (inject_Z (canvasW - w) / 2))
            (Math_round (inject_Z (canvasH - h) / 2)))
         outputW outputH contain (Some white).

(** The regions a sheet is cut into for a detected row count: the first
    [numFrames] cells, in reading order, of the grid of that many rows; of
    a grid of flat cells when the count is [Infinity]; none when it is
    [-Infinity] or [NaN]. *)
Definition cutFor (opts : GenerateOpts) (imgW imgH : Z)
    (detected : Binary64.Integral) : list Image :=
  firstn (Z.to_nat (numFrames opts))
    match detected with
    | Binary64.Whole z =>
        gridCells (cellRegion imgW imgH (cols opts) z) (cols opts) z
    | Binary64.Infinite false =>
        gridCells (flatRegion imgW imgH (cols opts)) (cols opts) (numFrames opts)
    | Binary64.Infinite true | Binary64.NotANumber => []
    end.

(** The frames the legacy variant makes of raw cells: each centred on the
    canvas of the largest trimmed width and height. *)
Definition legacyFrames (trimInfo : Image -> Z * Z) (outputW outputH : Z)
    (cells : list Image) : list Image :=
  map (centered trimInfo
         (maxOf (map (fun raw => fst (trimInfo (Trim raw 20))) cells))
         (maxOf (map (fun raw => snd (trimInfo (Trim raw 20))) cells))
         outputW outputH)
      cells.

(** The composite a legacy frame is the resized form of. *)
Definition compositeOf (frame : Image) : Image :=
  match frame with
  | Resize input _ _ _ _ => input
  | _ => frame
  end.

(** The pipelines the legacy variant awaits after the raw cells, in order:
    the trim of every cell, then for every frame its composite and the
    frame. *)
Definition legacyPipelines (trimInfo : Image -> Z * Z) (outputW outputH : Z)
    (cells : list Image) : list Image :=
  map (fun raw => Trim raw 20) cells
  ++ flat_map (fun frame => [compositeOf frame; frame])
              (legacyFrames trimInfo outputW outputH cells).

(** A JSON value that is a string starting, once trimmed, with the SVG
    open tag. *)
Definition isSvgString (v : JSON) : Prop :=
  exists s, v = JString s /\ startsWith (trim s) (units "<svg") = true.

(** [i] is the first index of [svgs] whose element is not such a string. *)
Definition firstInvalid (svgs : list JSON) (i : nat) : Prop :=
  (exists v, nth_error svgs i = Some v /\ ~ isSvgString v) /\
  (forall j w, (j < i)%nat -> nth_error svgs j = Some w -> isSvgString w).

Definition frameError (i : Z) : Line :=
  Error (units "Error: frame " ++ String_of_Z i
         ++ units " is not a valid SVG string").

(** What is printed about the number of frames: nothing when it is the
    requested one, a warning otherwise. *)
Definition countWarning (opts : GenerateOpts) (svgs : list JSON) : list Line :=
  if Z.of_nat (length svgs) =? numFrames opts then []
  else [Log (units "Warning: got " ++ String_of_Z (Z.of_nat (length svgs))
             ++ units " frames (expected " ++ String_of_Z (numFrames opts)
             ++ units ")")].

(** The raster made of one validated SVG string. *)
Definition rasterized (opts : GenerateOpts) (svg : JSON) : Image :=
  Resize (SvgDocument (Buffer_from svg)) (outputW opts) (outputH opts)
         contain (Some white).

(** Frames still wanted when [frames] have been collected. *)
Definition wanted (opts : GenerateOpts) (frames : list Image) : nat :=
  Z.to_nat (numFrames opts - Z.of_nat (length frames)).

(** The record kept for one raw cell after trimming. *)
Definition trimmedCell (trimInfo : Image -> Z * Z) (raw : Image) : TrimmedCell :=
  {| data := Trim raw 20;
     width := fst (trimInfo (Trim raw 20));
     height := snd (trimInfo (Trim raw 20)) |}.

(** The inset of the exact model for a cell of the given size. *)
Definition insetOf (size : Z) : Z :=
  Z.max 1 (Math_round (inject_Z size * (3 # 100))).

(** The binary64 inset is the exact one for every size below [n]. *)
Fixpoint insetsAgreeBelow (n : nat) : bool :=
  match n with
  | O => true
  | S k =>
      match Binary64.inset (Z.of_nat k) with
      | Some i => i =? insetOf (Z.of_nat k)
      | None => false
      end
      && insetsAgreeBelow k
  end.

(** ** Sample inputs *)

(** Scenario A of the specification: four frames of 128 x 128 on a 2 x 2
    grid, square aspect. *)
Definition scenarioA : GenerateOpts :=
  {| numFrames := 4; outputW := 128; outputH := 128;
     cols := 2; rows := 2; frameAR := Binary64.number 1 |}.

Definition twoFrames : GenerateOpts :=
  {| numFrames := 2; outputW := 128; outputH := 128;
     cols := 2; rows := 1; frameAR := Binary64.number 1 |}.

(** A child process that exited with status 0.  The sample parsers below
    stand for the answer of [JSON.parse] on its output, whatever the text. *)
Definition cleanExit (out : string) : SpawnResult :=
  {| exitCode := Some 0; stdout := units out; stderr := [] |}.

(** The array of an SVG string and the number 42. *)
Definition mixedPayload : list JSON :=
  [JString (units "<svg/>"); JNumber (42 # 1)].

(** Five valid SVG strings. *)
Definition fiveFrames : list JSON :=
  map (fun n => JString (units "<svg viewBox='0 0 128 128'><!-- " ++ String_of_Z n
                         ++ units " --></svg>"))
      [0; 1; 2; 3; 4].

(** Parsers with a fixed answer. *)
Definition parseMixed (text : jsstring) : option JSON := Some (JArray mixedPayload).
Definition parseFive (text : jsstring) : option JSON := Some (JArray fiveFrames).
Definition parseEmpty (text : jsstring) : option JSON := Some (JArray []).

(** Trimmed sizes of 10 x 10 for a bare provider image and 20 x 20 for
    anything else. *)
Definition smallThenLarge (img : Image) : Z * Z :=
  match img with
  | Trim (ProviderImage _ _) _ => (10, 10)
  | _ => (20, 20)
  end.

(** ** The options the main program hands to a provider *)

(** Lines 224 and 283-297 of [guff.ts]: the grid is laid out for the
    requested count and passed on with the validated options. *)
Definition mainOpts (numFrames outputW outputH : Z) (frameAR : spec_float)
  : GenerateOpts :=
  let g := gridLayout numFrames in
  {| numFrames := numFrames; outputW := outputW; outputH := outputH;
     cols := Grid.cols g; rows := Grid.rows g; frameAR := frameAR |}.

(** ** More of the JavaScript string library *)

(** An index argument of [slice], counted from the end when negative and
    clamped to the string. *)
Definition clampIndex (len i : Z) : Z :=
  if i <? 0 then Z.max (len + i) 0 else Z.min i len.

(** [s.slice(start, end)] *)
Definition slice (s : jsstring) (start stop : Z) : jsstring :=
  let len := Z.of_nat (length s) in
  let from := clampIndex len start in
  let to := clampIndex len stop in
  firstn (Z.to_nat (to - from)) (skipn (Z.to_nat from) s).

(** [s.slice(start)] *)
Definition sliceFrom (s : jsstring) (start : Z) : jsstring :=
  slice s start (Z.of_nat (length s)).

(** [s.indexOf(sub)], searched from index [i] of the whole string, of which
    [s] is what is left: the first position where [sub] starts, or -1. *)
Fixpoint indexOf_from (sub s : jsstring) (i : Z) : Z :=
  if startsWith s sub then i
  else match s with
       | [] => -1
       | _ :: s' => indexOf_from sub s' (i + 1)
       end.

Definition indexOf (s sub : jsstring) : Z := indexOf_from sub s 0.

(** [s.includes(sub)] *)
Definition includes (s sub : jsstring) : bool := negb (indexOf s sub =? -1).

(** ** Provider and model *)

(** Lines 134-138 of [guff.ts]: the model option is cut at its first slash;
    without a slash the provider is [gemini]. *)
Definition parseModel (modelStr : jsstring) : jsstring * jsstring :=
  let slashIdx := indexOf modelStr (units "/") in
  let provider :=
    if negb (slashIdx =? -1) then slice modelStr 0 slashIdx
    else units "gemini" in
  let modelName :=
    if negb (slashIdx =? -1) then sliceFrom modelStr (slashIdx + 1)
    else modelStr in
  (provider, modelName).

(** ** Inline display through the Kitty graphics protocol *)

Definition CHUNK_SIZE : Z := 4096.

(** The escape sequence written for one chunk of the base64 text. *)
Definition kittyCommand (i : Z) (isLast : bool) (chunk : jsstring) : jsstring :=
  if i =? 0
  then [27%N] ++ units "_Ga=T,f=100,m=" ++ (if isLast then units "0" else units "1")
       ++ units ";" ++ chunk ++ [27%N; 92%N]
  else [27%N] ++ units "_Gm=" ++ (if isLast then units "0" else units "1")
       ++ units ";" ++ chunk ++ [27%N; 92%N].

(** [for (let i = 0; i < b64.length; i += CHUNK_SIZE)]: what is written to
    standard output from [i] on. *)
Equations? kittyLoop (b64 : jsstring) (i : Z) : list jsstring
  by wf (remaining (Z.of_nat (length b64)) i) lt :=
kittyLoop b64 i with Z_lt_ge_dec i (Z.of_nat (length b64)) := {
  | left _ =>
      let chunk := slice b64 i (i + CHUNK_SIZE) in
      let isLast := Z.of_nat (length b64) <=? i + CHUNK_SIZE in
      kittyCommand i isLast chunk :: kittyLoop b64 (i + CHUNK_SIZE)
  | right _ => [] }.
Proof. unfold remaining, CHUNK_SIZE; lia. Qed.

(** The [ghostty] branch of [displayInTerminal], from the base64 text of
    the PNG on. *)
Definition kittyWrites (b64 : jsstring) : list jsstring :=
  kittyLoop b64 0 ++ [[10%N]].

(** ** Numbers in text *)

(** A decimal digit, [\d] in a regular expression. *)
Definition isDigit (c : N) : bool := ((48 <=? c) && (c <=? 57))%N.

(** The number written by the digits at the start of [s], read after
    digits worth [acc]. *)
Fixpoint digitsValue (acc : Z) (s : jsstring) : Z :=
  match s with
  | c :: s' =>
      if isDigit c then digitsValue (10 * acc + Z.of_N (c - 48)) s' else acc
  | [] => acc
  end.

(** [parseInt(s, 10)].  White space is skipped, a sign is read, then the
    digits up to the first unit that is not one; the result is the Number
    value of the integer they write, the nearest double, and [NaN] when
    there is no digit.  (ECMAScript lets an implementation ignore the
    digits after the twentieth; the engines read them all.) *)
Definition parseInt (s : jsstring) : Binary64.Integral :=
  let str := trimStart s in
  let sign :=
    match str with
    | c :: _ => if (c =? 45)%N then -1 else 1
    | [] => 1
    end in
  let str :=
    match str with
    | c :: str' => if ((c =? 43) || (c =? 45))%N then str' else str
    | [] => []
    end in
  match str with
  | c :: _ =>
      if isDigit c
      then Binary64.whole (Binary64.number (sign * digitsValue 0 str))
      else Binary64.NotANumber
  | [] => Binary64.NotANumber
  end.

(** ** Command-line options *)

(** [if (isNaN(n) || n < lo || n > hi) { console.error(message); process.exit(1) }]
    after [n = parseInt(text, 10)]. *)
Definition parseIntInRange (text : jsstring) (lo hi : Z) (message : jsstring)
  : M Z :=
  match parseInt text with
  | Binary64.Whole n =>
      if (n <? lo) || (n >? hi)
      then (console_error message ;; process_exit 1)%js
      else ret n
  | Binary64.Infinite _ | Binary64.NotANumber =>
      (console_error message ;; process_exit 1)%js
  end.

Definition validateFrames (frames : jsstring) : M Z :=
  parseIntInRange frames 2 64 (units "Error: frames must be between 2 and 64").

Definition validateDelay (delay : jsstring) : M Z :=
  parseIntInRange delay 10 10000
    (units "Error: delay must be between 10 and 10000 ms").

Definition parseColors (colors : jsstring) : M Z :=
  parseIntInRange colors 2 256 (units "Error: colors must be between 2 and 256").

(** The longest run of decimal digits at the start of [s], and what
    follows it. *)
Fixpoint digitsPrefix (s : jsstring) : jsstring * jsstring :=
  match s with
  | c :: s' =>
      if isDigit c
      then let (digits, rest) := digitsPrefix s' in (c :: digits, rest)
      else ([], s)
  | [] => ([], [])
  end.

(** [s.match(/^(\d+)x(\d+)$/)] and [s.match(/^(\d+):(\d+)$/)], with the
    separator as a parameter: the two groups. *)
Definition matchPair (sep : N) (s : jsstring) : option (jsstring * jsstring) :=
  match digitsPrefix s with
  | ((_ :: _) as first, c :: rest) =>
      if (c =? sep)%N
      then match digitsPrefix rest with
           | ((_ :: _) as second, []) => Some (first, second)
           | _ => None
           end
      else None
  | _ => None
  end.

(** Lines 125-132: the two numbers of the size option. *)
Definition parseSize (size : jsstring)
  : M (Binary64.Integral * Binary64.Integral) :=
  match matchPair 120 size with
  | None =>
      (console_error (units "Error: size must be in WxH format (e.g., 128x128)") ;;
       process_exit 1)%js
  | Some (w, h) => ret (parseInt w, parseInt h)
  end.

(** ** Output file name *)

(** The class [[a-z0-9\s-]]. *)
Definition isSlugUnit (c : N) : bool :=
  ((97 <=? c) && (c <=? 122))%N || isDigit c || isWhiteSpace c || (c =? 45)%N.

(** [s.replace(/C+/g, by)] for a class [C] of code units; [inRun] says that
    the unit before was of the class. *)
Fixpoint replaceRuns (class : N -> bool) (by_ : jsstring) (inRun : bool)
    (s : jsstring) : jsstring :=
  match s with
  | [] => []
  | c :: s' =>
      if class c
      then (if inRun then [] else by_) ++ replaceRuns class by_ true s'
      else c :: replaceRuns class by_ false s'
  end.

(** What [replace(/^-|-$/g, "")] removes at the start, *)
Definition dropLeadingDash (s : jsstring) : jsstring :=
  match s with
  | c :: s' => if (c =? 45)%N then s' else s
  | [] => []
  end.

(** and at the end of what is left. *)
Fixpoint dropTrailingDash (s : jsstring) : jsstring :=
  match s with
  | [] => []
  | [c] => if (c =? 45)%N then [] else [c]
  | c :: s' => c :: dropTrailingDash s'
  end.

Section Slug.

(** [String.prototype.toLowerCase], which follows the Unicode tables. *)
Variable toLowerCase : jsstring -> jsstring.

Definition slugify (text : jsstring) : jsstring :=
  let kept := filter isSlugUnit (toLowerCase text) in
  let dashed := replaceRuns isWhiteSpace (units "-") false kept in
  let single := replaceRuns (fun c => c =? 45)%N (units "-") false dashed in
  let stripped := dropTrailingDash (dropLeadingDash single) in
  slice stripped 0 60.

End Slug.

(** [uniquePath]: the first free name for the output file. *)

Section UniquePath.

(** [fs.existsSync] on the file system as it is during the call, and
    [path.extname]. *)
Variable existsSync : jsstring -> bool.
Variable extname : jsstring -> jsstring.

(** [`${base}-${n}${ext}`] *)
Definition numbered (base ext : jsstring) (n : Z) : jsstring :=
  base ++ units "-" ++ String_of_Z n ++ ext.

(** [while (existsSync(`${base}-${n}${ext}`)) n++], entered with [n]; the
    number the loop is left with, if it is left within [fuel] tests. *)
Fixpoint uniquePath_loop (fuel : nat) (base ext : jsstring) (n : Z) : option Z :=
  match fuel with
  | O => None
  | S fuel' =>
      if existsSync (numbered base ext n)
      then uniquePath_loop fuel' base ext (n + 1)
      else Some n
  end.

Definition uniquePath (fuel : nat) (p : jsstring) : option jsstring :=
  if negb (existsSync p) then Some p
  else
    let ext := extname p in
    let base := slice p 0 (- Z.of_nat (length ext)) in
    match uniquePath_loop fuel base ext 2 with
    | Some n => Some (numbered base ext n)
    | None => None
    end.

End UniquePath.

(** ** Code in a model's answer *)

(** The languages a fence may name, in the order of the alternation
    [(?:typescript|ts|)]. *)
Definition fenceLanguages : list jsstring := [units "typescript"; units "ts"; []].

(** A match of [/```(?:typescript|ts|)\n([\s\S]*?)```/] that starts at the
    first unit of [text]: the group, which ends at the first fence after
    the header. *)
Fixpoint matchFenced (langs : list jsstring) (text : jsstring) : option jsstring :=
  match langs with
  | [] => None
  | lang :: langs' =>
      let header := units "```" ++ lang ++ [10%N] in
      let body := skipn (length header) text in
      if startsWith text header && includes body (units "```")
      then Some (slice body 0 (indexOf body (units "```")))
      else matchFenced langs' text
  end.

(** [text.match(...)]: the leftmost match, if there is one. *)
Fixpoint firstFenced (text : jsstring) : option jsstring :=
  match matchFenced fenceLanguages text with
  | Some code => Some code
  | None =>
      match text with
      | [] => None
      | _ :: text' => firstFenced text'
      end
  end.

(** [None] is [null]. *)
Definition extractCode (text : jsstring) : option jsstring :=
  match firstFenced text with
  | Some code => Some code
  | None =>
      if includes text (units "console.log") && includes text (units "JSON.stringify")
      then Some text
      else None
  end.

(** ** Vocabulary of the further properties *)

(** Every chunk but the last has 4096 characters, and the last one has
    at least one and at most as many. *)
Fixpoint wellChunked (chunks : list jsstring) : Prop :=
  match chunks with
  | [] => True
  | [chunk] => 1 <= Z.of_nat (length chunk) <= 4096
  | chunk :: rest => Z.of_nat (length chunk) = 4096 /\ wellChunked rest
  end.

(** The escape sequence of the Kitty graphics protocol that carries one
    chunk: ESC, [_G], the keys, a semicolon, the chunk, ESC and a
    backslash.  The keys of the first command say to transmit and display
    a PNG, [a=T,f=100]; the key [m] is 1 when more chunks follow and 0 on
    the last one. *)
Definition escapeFor (first more : bool) (chunk : jsstring) : jsstring :=
  [27%N] ++ units "_G"
  ++ (if first then units "a=T,f=100," else [])
  ++ units "m=" ++ (if more then units "1" else units "0")
  ++ units ";" ++ chunk ++ [27%N; 92%N].

(** The commands that carry the given chunks, in order. *)
Fixpoint commandsOf (first : bool) (chunks : list jsstring) : list jsstring :=
  match chunks with
  | [] => []
  | [chunk] => [escapeFor first false chunk]
  | chunk :: rest => escapeFor first true chunk :: commandsOf false rest
  end.

(** The pixel ([x], [y]) belongs to the region an [extract] cuts. *)
Definition covers (img : Image) (x y : Z) : Prop :=
  match img with
  | Extract _ l t w h => l <= x < l + w /\ t <= y < t + h
  | _ => False
  end.

(** A run ended by [process.exit(1)] whose last printed line is an error. *)
Definition fatal {A} (m : M A) : Prop :=
  snd m = Exit 1 /\ exists before text, fst m = before ++ [Error text].

(** What follows the digits does not start with one. *)
Definition endsDigits (rest : jsstring) : Prop :=
  match rest with
  | c :: _ => isDigit c = false
  | [] => True
  end.

(** A lower-case letter, a digit or a dash. *)
Definition isSlugChar (c : N) : bool :=
  ((97 <=? c) && (c <=? 122))%N || isDigit c || (c =? 45)%N.

(** Some unit [c] is followed by another one. *)
Fixpoint doubled (c : N) (s : jsstring) : bool :=
  match s with
  | a :: s' =>
      match s' with
      | b :: _ => (a =? c)%N && (b =? c)%N
      | [] => false
      end || doubled c s'
  | [] => false
  end.

(** What [uniquePath] keeps of a taken path: the path without its
    extension, and nothing of it when there is no extension. *)
Definition stem (p ext : jsstring) : jsstring :=
  if (length ext =? 0)%nat then [] else firstn (length p - length ext) p.

(** A directory that holds [cat.gif] and [cat-2.gif]. *)
Definition sampleFiles : list jsstring := [units "cat.gif"; units "cat-2.gif"].

Definition sampleExists (q : jsstring) : bool :=
  existsb (fun f => if list_eq_dec N.eq_dec q f then true else false) sampleFiles.

(* ================================================================= *)
(** * Part II: properties *)
(* ================================================================= *)

(** Let [lia] and [nia] see through integer division and remainder. *)
Ltac Zify.zify_post_hook ::= Z.div_mod_to_equations.

(** ** Grid layout *)

Lemma rem_zero_divide (n r : Z) :
  0 <= n -> 0 < r -> (Z.rem n r =? 0) = true <-> (r | n).
Proof.
  intros Hn Hr. rewrite Z.eqb_eq, Z.rem_mod_nonneg by lia.
  split; intro H.
  - apply Z.mod_divide; [lia | exact H].
  - apply Z.mod_divide in H; [exact H | lia].
Qed.

Lemma divide_div_mul (n r : Z) : 0 < r -> (r | n) -> n / r * r = n.
Proof.
  intros Hr [q ->]. rewrite Z.div_mul by lia. reflexivity.
Qed.

(** The loop invariant: the pair held in [bestCols], [bestRows] multiplies
    to [n]; [bestRows] is 1 or a row candidate below [r]; no row candidate
    lies strictly between [bestRows] and [r]. *)
Lemma gridLayout_loop_spec (n r bestCols bestRows : Z) :
  1 <= n -> 2 <= r ->
  bestCols * bestRows = n ->
  1 <= bestRows < r ->
  (bestRows = 1 \/ rowCandidate n bestRows) ->
  (forall d, bestRows < d < r -> ~ rowCandidate n d) ->
  let g := gridLayout_loop n r bestCols bestRows in
  Grid.cols g * Grid.rows g = n /\
  1 <= Grid.rows g /\
  (Grid.rows g = 1 \/ rowCandidate n (Grid.rows g)) /\
  (forall d, Grid.rows g < d -> ~ rowCandidate n d).
Proof.
  funelim (gridLayout_loop n r bestCols bestRows);
    intros Hn Hr Hmul Hrange Hbest Hnone; cbn zeta.
  - (* r * r <= n: one more turn of the loop *)
    destruct (Z.rem n r =? 0) eqn:Hrem.
    + apply rem_zero_divide in Hrem; [| lia | lia].
      apply H; try lia.
      * apply divide_div_mul; [lia | exact Hrem].
      * right. repeat split; [lia | lia | exact Hrem].
    + assert (Hnd : ~ (r | n)).
      { intro Hd. apply rem_zero_divide in Hd; [congruence | lia | lia]. }
      apply H0; try lia; try assumption.
      intros d Hd. destruct (Z.eq_dec d r) as [-> | Hne].
      * intros (_ & _ & Hdiv). exact (Hnd Hdiv).
      * apply Hnone. lia.
  - (* r * r > n: the loop is left *)
    cbn. repeat split; try lia; try assumption.
    intros d Hd Hcand.
    destruct (Z_lt_ge_dec d r) as [Hlt | Hge].
    + apply (Hnone d); [lia | exact Hcand].
    + destruct Hcand as (_ & Hsq & _). nia.
Qed.

(** [gridLayout] on any positive count. *)
Lemma gridLayout_spec (n : Z) :
  1 <= n ->
  let g := gridLayout n in
  Grid.cols g * Grid.rows g = n /\
  ((exists r, rowCandidate n r) ->
   rowCandidate n (Grid.rows g) /\
   (forall r, rowCandidate n r -> r <= Grid.rows g)) /\
  ((forall r, ~ rowCandidate n r) ->
   Grid.cols g = n /\ Grid.rows g = 1).
Proof.
  intros Hn g.
  destruct (@gridLayout_loop_spec n 2 n 1) as (Hmul & Hpos & Hbest & Hmax);
    try lia.
  fold (gridLayout n) in Hmul, Hpos, Hbest, Hmax. fold g in Hmul, Hpos, Hbest, Hmax.
  split; [exact Hmul |]. split.
  - intros [r Hr].
    assert (Hg : rowCandidate n (Grid.rows g)).
    { destruct Hbest as [H1 | Hc]; [| exact Hc].
      exfalso. apply (Hmax r); [| exact Hr].
      destruct Hr as (H2 & _). lia. }
    split; [exact Hg |].
    intros r' Hr'. destruct (Z_le_gt_dec r' (Grid.rows g)) as [Hle | Hgt];
      [exact Hle |].
    exfalso. apply (Hmax r'); [lia | exact Hr'].
  - intros Hnone.
    destruct Hbest as [H1 | Hc]; [| exfalso; exact (Hnone _ Hc)].
    rewrite H1 in Hmul. split; [lia | exact H1].
Qed.

(** C2. For every frame count [n] from 2 to 64, [gridLayout n] is a pair
    ([cols], [rows]) with [cols * rows = n]; when [n] has a divisor [r] with
    [2 <= r] and [r * r <= n], [rows] is the largest such divisor; when it
    has none, the pair is ([n], 1). *)
Theorem gridLayout_largest_square_divisor (n : Z) :
  2 <= n <= 64 ->
  let g := gridLayout n in
  Grid.cols g * Grid.rows g = n /\
  ((exists r, rowCandidate n r) ->
   rowCandidate n (Grid.rows g) /\
   (forall r, rowCandidate n r -> r <= Grid.rows g)) /\
  ((forall r, ~ rowCandidate n r) ->
   Grid.cols g = n /\ Grid.rows g = 1).
Proof.
  intros Hn. apply gridLayout_spec. lia.
Qed.

Lemma gridLayout_largest_square_divisor_witness :
  2 <= 12 <= 64 /\
  Grid.cols (gridLayout 12) * Grid.rows (gridLayout 12) = 12 /\
  ((exists r, rowCandidate 12 r) ->
   rowCandidate 12 (Grid.rows (gridLayout 12)) /\
   (forall r, rowCandidate 12 r -> r <= Grid.rows (gridLayout 12))) /\
  ((forall r, ~ rowCandidate 12 r) ->
   Grid.cols (gridLayout 12) = 12 /\ Grid.rows (gridLayout 12) = 1).
Proof.
  split; [lia |].
  apply (@gridLayout_largest_square_divisor 12). lia.
Defined.

Example gridLayout_12 : gridLayout 12 = Grid.mk 4 3.
Proof. reflexivity. Qed.

Example gridLayout_7 : gridLayout 7 = Grid.mk 7 1.
Proof. reflexivity. Qed.

Example gridLayout_64 : gridLayout 64 = Grid.mk 8 8.
Proof. reflexivity. Qed.

(** ** Rejection of single-row grids *)

Lemma cleanCount_test (m : Z) :
  ((Grid.rows (gridLayout m) >? 1) || (m <=? 3)) = true <-> cleanCount m.
Proof.
  unfold cleanCount. rewrite orb_true_iff, Z.gtb_lt, Z.leb_le. lia.
Qed.

(** The downward search returns the greatest accepted count in [2, n]. *)
Lemma suggestBelow_spec (n : Z) (suggest : list Z) :
  (exists lo, 2 <= lo <= n /\ cleanCount lo /\
              (forall m, lo < m <= n -> ~ cleanCount m) /\
              suggestBelow n suggest = suggest ++ [lo]) \/
  ((forall m, 2 <= m <= n -> ~ cleanCount m) /\
   suggestBelow n suggest = suggest).
Proof.
  funelim (suggestBelow n suggest); cbn zeta.
  - destruct ((Grid.rows (gridLayout n) >? 1) || (n <=? 3)) eqn:Htest.
    + left. exists n. apply cleanCount_test in Htest.
      split; [lia |]. split; [exact Htest |].
      split; [intros m Hm; lia | reflexivity].
    + assert (Hn : ~ cleanCount n).
      { intro Hc. apply cleanCount_test in Hc. congruence. }
      destruct H as [(lo & Hlo & Hclean & Hgap & Hres) | (Hnone & Hres)].
      * left. exists lo. split; [lia |]. split; [exact Hclean |].
        split; [| exact Hres].
        intros m Hm. destruct (Z.eq_dec m n) as [-> | Hne];
          [exact Hn | apply Hgap; lia].
      * right. split; [| exact Hres].
        intros m Hm. destruct (Z.eq_dec m n) as [-> | Hne];
          [exact Hn | apply Hnone; lia].
  - right. split; [intros m Hm; lia | reflexivity].
Qed.

(** The upward search returns the least accepted count in [n, 16]. *)
Lemma suggestAbove_spec (n : Z) (suggest : list Z) :
  (exists hi, n <= hi <= 16 /\ cleanCount hi /\
              (forall m, n <= m < hi -> ~ cleanCount m) /\
              suggestAbove n suggest = suggest ++ [hi]) \/
  ((forall m, n <= m <= 16 -> ~ cleanCount m) /\
   suggestAbove n suggest = suggest).
Proof.
  funelim (suggestAbove n suggest); cbn zeta.
  - destruct ((Grid.rows (gridLayout n) >? 1) || (n <=? 3)) eqn:Htest.
    + left. exists n. apply cleanCount_test in Htest.
      split; [lia |]. split; [exact Htest |].
      split; [intros m Hm; lia | reflexivity].
    + assert (Hn : ~ cleanCount n).
      { intro Hc. apply cleanCount_test in Hc. congruence. }
      destruct H as [(hi & Hhi & Hclean & Hgap & Hres) | (Hnone & Hres)].
      * left. exists hi. split; [lia |]. split; [exact Hclean |].
        split; [| exact Hres].
        intros m Hm. destruct (Z.eq_dec m n) as [-> | Hne];
          [exact Hn | apply Hgap; lia].
      * right. split; [| exact Hres].
        intros m Hm. destruct (Z.eq_dec m n) as [-> | Hne];
          [exact Hn | apply Hnone; lia].
  - right. split; [intros m Hm; lia | reflexivity].
Qed.

Lemma nearestBelow_unique (n lo lo' : Z) :
  2 <= lo <= n - 1 -> cleanCount lo ->
  (forall m, lo < m <= n - 1 -> ~ cleanCount m) ->
  nearestBelow n lo' -> lo' = lo.
Proof.
  intros Hlo Hc Hgap (Hlo' & Hc' & Hgap').
  destruct (Z.lt_trichotomy lo lo') as [Hlt | [Heq | Hgt]].
  - exfalso. apply (Hgap lo'); [lia | exact Hc'].
  - symmetry; exact Heq.
  - exfalso. apply (Hgap' lo); [lia | exact Hc].
Qed.

Lemma nearestAbove_unique (n hi hi' : Z) :
  n + 1 <= hi <= 16 -> cleanCount hi ->
  (forall m, n + 1 <= m < hi -> ~ cleanCount m) ->
  nearestAbove n hi' -> hi' = hi.
Proof.
  intros Hhi Hc Hgap (Hhi' & Hc' & Hgap').
  destruct (Z.lt_trichotomy hi hi') as [Hlt | [Heq | Hgt]].
  - exfalso. apply (Hgap' hi); [lia | exact Hc].
  - symmetry; exact Heq.
  - exfalso. apply (Hgap hi'); [lia | exact Hc'].
Qed.

(** What the two searches leave in [suggest], in terms of the nearest
    accepted counts. *)
Lemma suggestions_spec (n : Z) :
  forall lo hi, nearestBelow n lo -> nearestAbove n hi ->
  suggestAbove (n + 1) (suggestBelow (n - 1) []) = [lo; hi].
Proof.
  intros lo hi Hlo Hhi.
  destruct (suggestBelow_spec (n - 1) [])
    as [(lo' & Hr & Hc & Hgap & ->) | (Hnone & _)].
  - rewrite <- (nearestBelow_unique n lo' lo Hr Hc Hgap Hlo).
    destruct (suggestAbove_spec (n + 1) ([] ++ [lo]))
      as [(hi' & Hr' & Hc' & Hgap' & ->) | (Hnone & _)].
    + rewrite <- (nearestAbove_unique n hi' hi Hr' Hc' Hgap' Hhi). reflexivity.
    + exfalso. destruct Hhi as (Hr' & Hc' & _). apply (Hnone hi); [lia | exact Hc'].
  - exfalso. destruct Hlo as (Hr & Hc & _). apply (Hnone lo); [lia | exact Hc].
Qed.

(** An even count of at least 4 has a grid of more than one row. *)
Lemma even_count_clean (m : Z) : 4 <= m -> (2 | m) -> cleanCount m.
Proof.
  intros Hm Hdiv. left.
  destruct (@gridLayout_spec m) as (_ & Hsome & _); [lia |].
  destruct Hsome as ((Hge & _) & _).
  - exists 2. repeat split; [lia | lia | exact Hdiv].
  - lia.
Qed.

(** A count refused by the planner is an odd number from 5 on. *)
Lemma refused_count_odd (n : Z) :
  Grid.rows (gridLayout n) = 1 -> Grid.cols (gridLayout n) > 3 ->
  5 <= n /\ ~ (2 | n).
Proof.
  intros Hrows Hcols.
  assert (Hpos : 1 <= n).
  { destruct (Z_le_gt_dec 1 n) as [H | H]; [exact H | exfalso].
    unfold gridLayout in Hcols. rewrite gridLayout_loop_equation_1 in Hcols.
    destruct (Z_le_gt_dec (2 * 2) n) as [Hle | Hgt]; [lia |].
    cbn in Hcols. lia. }
  destruct (@gridLayout_spec n Hpos) as (Hmul & _ & _).
  rewrite Hrows in Hmul.
  assert (Heven : ~ (2 | n) \/ n < 4).
  { destruct (Z_lt_ge_dec n 4) as [Hlt | Hge]; [right; exact Hlt | left].
    intro Hdiv.
    destruct (@even_count_clean n ltac:(lia) Hdiv) as [Hgt | Hle]; lia. }
  destruct Heven as [Hodd | Hsmall]; [| lia].
  split; [| exact Hodd].
  destruct (Z.eq_dec n 4) as [-> | Hne]; [exfalso; apply Hodd; exists 2; lia | lia].
Qed.

(** So the neighbour below always qualifies, and the neighbour above
    qualifies when it is within the bound of the upward search. *)
Lemma refused_count_neighbours (n : Z) :
  Grid.rows (gridLayout n) = 1 -> Grid.cols (gridLayout n) > 3 ->
  nearestBelow n (n - 1) /\ (n + 1 <= 16 -> nearestAbove n (n + 1)).
Proof.
  intros Hrows Hcols.
  destruct (refused_count_odd n Hrows Hcols) as (Hn & Hodd).
  assert (Hmod : n mod 2 = 1).
  { pose proof (Z.mod_pos_bound n 2 ltac:(lia)) as Hb.
    destruct (Z.eq_dec (n mod 2) 0) as [H0 | H1]; [| lia].
    exfalso. apply Hodd. apply Z.mod_divide; [lia | exact H0]. }
  split.
  - split; [lia |]. split; [| intros m Hm; lia].
    apply even_count_clean; [lia |].
    apply Z.mod_divide; [lia |].
    rewrite Zminus_mod, Hmod. reflexivity.
  - intros Hbound. split; [lia |]. split; [| intros m Hm; lia].
    apply even_count_clean; [lia |].
    apply Z.mod_divide; [lia |].
    rewrite Zplus_mod, Hmod. reflexivity.
Qed.

(** What the two searches leave in [suggest] when there is no accepted
    count above within the bound. *)
Lemma suggestions_below_only (n : Z) :
  forall lo, nearestBelow n lo -> (forall hi, ~ nearestAbove n hi) ->
  suggestAbove (n + 1) (suggestBelow (n - 1) []) = [lo].
Proof.
  intros lo Hlo Hnone.
  destruct (suggestBelow_spec (n - 1) [])
    as [(lo' & Hr & Hc & Hgap & ->) | (Hno & _)].
  - rewrite <- (nearestBelow_unique n lo' lo Hr Hc Hgap Hlo).
    destruct (suggestAbove_spec (n + 1) ([] ++ [lo]))
      as [(hi & Hr' & Hc' & Hgap' & _) | (_ & ->)]; [| reflexivity].
    exfalso. apply (Hnone hi).
    split; [lia |]. split; [exact Hc' |].
    intros m Hm. apply Hgap'. lia.
  - exfalso. destruct Hlo as (Hr & Hc & _). apply (Hno lo); [lia | exact Hc].
Qed.

(** A single row has as many columns as there are frames. *)
Lemma single_row_cols (n : Z) :
  1 <= n -> Grid.rows (gridLayout n) = 1 -> Grid.cols (gridLayout n) = n.
Proof.
  intros Hn Hrows. destruct (@gridLayout_spec n Hn) as (Hmul & _).
  rewrite Hrows in Hmul. lia.
Qed.

(** C3. A frame count [n] whose grid is a single row of more than three
    columns is refused on the sprite-sheet path: the run prints one line,
    [Error: n frames can't form a clean grid (only nx1). Try: ] followed by
    the proposed counts, and exits with status 1.  When there is a nearest
    accepted count below and a nearest accepted count above (no larger than
    16), the counts proposed are exactly these two, the lower first, joined
    by [ or ]; when there is none above, the one below alone.  The one
    below always exists and is [n - 1]; the one above exists when
    [n + 1 <= 16], and is then [n + 1], and not otherwise.  The legacy
    variant, which has only the sprite-sheet path, behaves the same. *)
Theorem single_row_grid_rejected (n : Z) :
  Grid.rows (gridLayout n) = 1 ->
  Grid.cols (gridLayout n) > 3 ->
  let diagnosis := fun counts =>
    Error (units "Error: " ++ String_of_Z n
           ++ units " frames can't form a clean grid (only "
           ++ String_of_Z n ++ units "x1). Try: " ++ counts) in
  (forall lo hi, nearestBelow n lo -> nearestAbove n hi ->
     checkGrid gemini n
     = ([diagnosis (String_of_Z lo ++ units " or " ++ String_of_Z hi)],
        Exit 1)) /\
  (forall lo, nearestBelow n lo -> (forall hi, ~ nearestAbove n hi) ->
     checkGrid gemini n = ([diagnosis (String_of_Z lo)], Exit 1)) /\
  checkGrid_legacy n = checkGrid gemini n /\
  nearestBelow n (n - 1) /\
  (n + 1 <= 16 ->
   nearestAbove n (n + 1) /\
   checkGrid gemini n
   = ([diagnosis (String_of_Z (n - 1) ++ units " or " ++ String_of_Z (n + 1))],
      Exit 1)) /\
  (16 < n + 1 ->
   (forall hi, ~ nearestAbove n hi) /\
   checkGrid gemini n = ([diagnosis (String_of_Z (n - 1))], Exit 1)).
Proof.
  intros Hrows Hcols diagnosis.
  destruct (refused_count_odd n Hrows Hcols) as (Hn & _).
  destruct (refused_count_neighbours n Hrows Hcols) as (Hbelow & Habove).
  assert (Hrun : checkGrid gemini n
                 = ([Error (gridError n n
                              (suggestAbove (n + 1) (suggestBelow (n - 1) [])))],
                    Exit 1)).
  { assert (Htest : (Grid.rows (gridLayout n) =? 1)
                    && (Grid.cols (gridLayout n) >? 3) = true)
      by (rewrite andb_true_iff, Z.eqb_eq, Z.gtb_lt; lia).
    unfold checkGrid. cbn [Provider_eqb andb]. rewrite Htest.
    rewrite (single_row_cols n) by (lia || exact Hrows). reflexivity. }
  assert (Hboth : forall lo hi, nearestBelow n lo -> nearestAbove n hi ->
            checkGrid gemini n
            = ([diagnosis (String_of_Z lo ++ units " or " ++ String_of_Z hi)],
               Exit 1)).
  { intros lo hi Hlo Hhi. rewrite Hrun, (suggestions_spec n lo hi Hlo Hhi).
    unfold gridError, diagnosis. cbn [map join]. reflexivity. }
  assert (Hone : forall lo, nearestBelow n lo ->
            (forall hi, ~ nearestAbove n hi) ->
            checkGrid gemini n = ([diagnosis (String_of_Z lo)], Exit 1)).
  { intros lo Hlo Hnone. rewrite Hrun, (suggestions_below_only n lo Hlo Hnone).
    unfold gridError, diagnosis. cbn [map join]. reflexivity. }
  split; [exact Hboth |]. split; [exact Hone |].
  split; [reflexivity |]. split; [exact Hbelow |]. split.
  - intros Hbound. split; [apply Habove; exact Hbound |].
    apply Hboth; [exact Hbelow | apply Habove; exact Hbound].
  - intros Hbound.
    assert (Hnone : forall hi, ~ nearestAbove n hi)
      by (intros hi (Hr & _); lia).
    split; [exact Hnone |]. apply Hone; [exact Hbelow | exact Hnone].
Qed.

Lemma single_row_grid_rejected_witness :
  (Grid.rows (gridLayout 7) = 1 /\ Grid.cols (gridLayout 7) > 3) /\
  nearestBelow 7 6 /\ nearestAbove 7 8 /\
  checkGrid gemini 7
  = ([Error (units "Error: 7 frames can't form a clean grid (only 7x1). Try: 6 or 8")],
     Exit 1).
Proof.
  split; [split; reflexivity |].
  destruct (single_row_grid_rejected 7 eq_refl eq_refl)
    as (_ & _ & _ & Hbelow & Habove & _).
  destruct (Habove ltac:(discriminate)) as (Hhi & Hrun).
  split; [exact Hbelow |]. split; [exact Hhi | exact Hrun].
Defined.

(** Scenario B: seven frames on the sprite-sheet path are refused with the
    alternatives 6 and 8; on the procedural path they are accepted. *)
Example seven_frames_gemini :
  checkGrid gemini 7
  = ([Error (units "Error: 7 frames can't form a clean grid (only 7x1). Try: 6 or 8")],
     Exit 1).
Proof. vm_compute. reflexivity. Qed.

Example seven_frames_claude :
  checkGrid claude 7 = ([], Return (Grid.mk 7 1)).
Proof. vm_compute. reflexivity. Qed.

(** Beyond 16 the upward search finds nothing: one alternative is printed. *)
Example seventeen_frames_gemini :
  checkGrid gemini 17
  = ([Error (units "Error: 17 frames can't form a clean grid (only 17x1). Try: 16")],
     Exit 1).
Proof. vm_compute. reflexivity. Qed.

(** ** Aspect negotiation *)

Section AspectFacts.

Import Aspect.
Local Open Scope R_scope.

(** Once a finite minimum is held, the loop returns an entry no farther
    from the target than the one held and than every entry still to come. *)
Lemma bestAspectRatio_loop_min (rs : list Ratio) (target : R) :
  forall best,
  let r := bestAspectRatio_loop rs target best (Finite (logDistance best target)) in
  (r = best \/ In r rs) /\
  logDistance r target <= logDistance best target /\
  (forall r', In r' rs -> logDistance r target <= logDistance r' target).
Proof.
  induction rs as [| r0 rs IH]; intros best; cbn -[ln Rabs].
  - split; [left; reflexivity |]. split; [lra |]. intros r' [].
  - fold (logDistance r0 target).
    destruct (Rlt_dec (logDistance r0 target) (logDistance best target))
      as [Hlt | Hge].
    + destruct (IH r0) as (Hin & Hle & Hmin).
      split; [right; destruct Hin as [-> | Hin]; [left | right]; auto |].
      split; [lra |].
      intros r' [<- | Hr']; [exact Hle | apply Hmin; exact Hr'].
    + destruct (IH best) as (Hin & Hle & Hmin).
      split; [destruct Hin as [-> | Hin]; [left | right; right]; auto |].
      split; [exact Hle |].
      intros r' [<- | Hr']; [lra | apply Hmin; exact Hr'].
Qed.

Lemma target_scale (cols rows frameAR k : R) :
  0 < rows -> 0 < k ->
  (k * cols * frameAR) / (k * rows) = (cols * frameAR) / rows.
Proof.
  intros Hrows Hk. field. split; lra.
Qed.

(** Over the real numbers, scaling both grid dimensions by a positive
    factor leaves the chosen label unchanged, and the label is that of a
    supported ratio at minimal log-domain distance from the target
    [(cols * frameAR) / rows].  This is the arithmetic the code writes
    down, without the rounding of doubles. *)
Lemma scale_invariant_over_reals (cols rows frameAR k : R) :
  0 < cols -> 0 < rows -> 0 < frameAR -> 0 < k ->
  bestAspectRatio (k * cols) (k * rows) frameAR
    = bestAspectRatio cols rows frameAR /\
  exists r,
    In r ASPECT_RATIOS /\
    label r = bestAspectRatio cols rows frameAR /\
    forall r', In r' ASPECT_RATIOS ->
      logDistance r ((cols * frameAR) / rows)
      <= logDistance r' ((cols * frameAR) / rows).
Proof.
  intros Hcols Hrows Har Hk. split.
  - unfold bestAspectRatio. rewrite target_scale by assumption. reflexivity.
  - unfold bestAspectRatio.
    set (target := cols * frameAR / rows).
    change (bestAspectRatio_loop ASPECT_RATIOS target
              (nth 0 ASPECT_RATIOS ratio_1_1) Infinity)
      with (bestAspectRatio_loop (tl ASPECT_RATIOS) target ratio_1_1
              (Finite (logDistance ratio_1_1 target))).
    destruct (bestAspectRatio_loop_min (tl ASPECT_RATIOS) target ratio_1_1)
      as (Hin & Hle & Hmin).
    eexists. split; [| split; [reflexivity |]].
    + destruct Hin as [-> | Hin]; [left; reflexivity | right; exact Hin].
    + intros r' [<- | Hr']; [exact Hle | apply Hmin; exact Hr'].
Qed.

(** *** Agreement of the executable reading *)

Lemma Rabs_ln_spread (x : R) : 0 < x -> Rabs (ln x) = ln (Rmax x (/ x)).
Proof.
  intros Hx. destruct (Rle_lt_dec 1 x) as [Hge | Hlt].
  - assert (Hinv : / x <= 1).
    { rewrite <- Rinv_1. apply Rinv_le_contravar; lra. }
    rewrite Rmax_left by lra.
    apply Rabs_pos_eq.
    destruct (Rle_lt_or_eq_dec 1 x Hge) as [H1 | <-]; [| rewrite ln_1; lra].
    pose proof (ln_increasing 1 x ltac:(lra) H1) as Hln.
    rewrite ln_1 in Hln. lra.
  - assert (Hinv : 1 < / x).
    { rewrite <- Rinv_1. apply Rinv_lt_contravar; lra. }
    rewrite Rmax_right by lra.
    pose proof (ln_increasing x 1 Hx Hlt) as Hln. rewrite ln_1 in Hln.
    rewrite ln_Rinv by exact Hx. apply Rabs_left. exact Hln.
Qed.

Lemma Rmax_inv_pos (x : R) : 0 < x -> 0 < Rmax x (/ x).
Proof.
  intros Hx. apply Rlt_le_trans with x; [exact Hx | apply Rmax_l].
Qed.

Lemma logDistance_lt_iff (x y : R) :
  0 < x -> 0 < y ->
  Rabs (ln x) < Rabs (ln y) <-> Rmax x (/ x) < Rmax y (/ y).
Proof.
  intros Hx Hy. rewrite !Rabs_ln_spread by assumption.
  pose proof (Rmax_inv_pos x Hx). pose proof (Rmax_inv_pos y Hy).
  split; intros Hlt.
  - apply ln_lt_inv; assumption.
  - apply ln_increasing; assumption.
Qed.

Lemma Q2R_1 : Q2R 1 = 1.
Proof. unfold Q2R; cbn. lra. Qed.

Lemma Q2R_0 : Q2R 0 = 0.
Proof. unfold Q2R; cbn. lra. Qed.

Lemma Q2R_inject_Z (z : Z) : Q2R (inject_Z z) = IZR z.
Proof. unfold Q2R, inject_Z; cbn. lra. Qed.

Lemma Q2R_pos (q : Q) : (0 < q)%Q -> 0 < Q2R q.
Proof. intros Hq. rewrite <- Q2R_0. apply Qlt_Rlt. exact Hq. Qed.

Lemma Qpos_nonzero (q : Q) : (0 < q)%Q -> ~ (q == 0)%Q.
Proof. intros Hq Hz. rewrite Hz in Hq. discriminate. Qed.

Lemma Q2R_spread (q : Q) :
  (0 < q)%Q -> Q2R (AspectQ.spread q) = Rmax (Q2R q) (/ Q2R q).
Proof.
  intros Hq. pose proof (Q2R_pos q Hq) as Hpos. unfold AspectQ.spread.
  destruct (Qle_bool 1 q) eqn:Hle.
  - apply Qle_bool_iff, Qle_Rle in Hle. rewrite Q2R_1 in Hle.
    assert (Hinv : / Q2R q <= 1).
    { rewrite <- Rinv_1. apply Rinv_le_contravar; lra. }
    rewrite Rmax_left by lra. reflexivity.
  - assert (Hlt : Q2R q < 1).
    { rewrite <- Q2R_1. apply Qlt_Rlt. apply Qnot_le_lt.
      intros H. apply Qle_bool_iff in H. congruence. }
    assert (Hinv : 1 < / Q2R q).
    { rewrite <- Rinv_1. apply Rinv_lt_contravar; lra. }
    rewrite Rmax_right by lra.
    apply Q2R_inv. apply Qpos_nonzero. exact Hq.
Qed.

Lemma closer_agrees (x b : Q) :
  (0 < x)%Q -> (0 < b)%Q ->
  closer (Rabs (ln (Q2R x))) (Finite (Rabs (ln (Q2R b))))
  = AspectQ.closer (AspectQ.spread x) (Some (AspectQ.spread b)).
Proof.
  intros Hx Hb. unfold closer, AspectQ.closer.
  pose proof (logDistance_lt_iff (Q2R x) (Q2R b) (Q2R_pos x Hx) (Q2R_pos b Hb))
    as Hiff.
  rewrite <- !Q2R_spread in Hiff by assumption.
  destruct (Rlt_dec (Rabs (ln (Q2R x))) (Rabs (ln (Q2R b)))) as [Hlt | Hge].
  - apply Hiff, Rlt_Qlt in Hlt. symmetry. apply negb_true_iff.
    destruct (Qle_bool (AspectQ.spread b) (AspectQ.spread x)) eqn:Hle;
      [| reflexivity].
    apply Qle_bool_iff in Hle. exfalso. exact (Qlt_not_le _ _ Hlt Hle).
  - symmetry. apply negb_false_iff. apply Qle_bool_iff. apply Qnot_lt_le.
    intros Hlt. apply Hge, Hiff, Qlt_Rlt. exact Hlt.
Qed.

Lemma ratio_over_target (q : AspectQ.Ratio) (r : Ratio) (target : Q) :
  sameRatio q r -> (0 < target)%Q ->
  Q2R (AspectQ.value q / target) = value r / Q2R target /\
  (0 < AspectQ.value q / target)%Q.
Proof.
  intros (_ & Hval & Hpos) Htarget. split.
  - rewrite Q2R_div by (apply Qpos_nonzero; exact Htarget).
    rewrite Hval. reflexivity.
  - apply Qlt_shift_div_l; [exact Htarget |]. rewrite Qmult_0_l. exact Hpos.
Qed.

Lemma bestAspectRatio_loop_agrees (rsQ : list AspectQ.Ratio) (rs : list Ratio)
    (target : Q) :
  Forall2 sameRatio rsQ rs -> (0 < target)%Q ->
  forall bestQ best xb,
    sameRatio bestQ best -> (0 < xb)%Q ->
    sameRatio
      (AspectQ.bestAspectRatio_loop rsQ target bestQ (Some (AspectQ.spread xb)))
      (bestAspectRatio_loop rs (Q2R target) best (Finite (Rabs (ln (Q2R xb))))).
Proof.
  intros Hall Htarget. induction Hall as [| q r rsQ rs Hqr Hall IH];
    intros bestQ best xb Hbest Hxb; cbn -[ln Rabs closer AspectQ.closer].
  - exact Hbest.
  - destruct (ratio_over_target q r target Hqr Htarget) as (Heq & Hpos).
    rewrite <- Heq, (closer_agrees _ _ Hpos Hxb).
    destruct (AspectQ.closer (AspectQ.spread (AspectQ.value q / target))
                (Some (AspectQ.spread xb))).
    + apply IH; assumption.
    + apply IH; assumption.
Qed.

Lemma ASPECT_RATIOS_agree : Forall2 sameRatio AspectQ.ASPECT_RATIOS ASPECT_RATIOS.
Proof.
  unfold AspectQ.ASPECT_RATIOS, ASPECT_RATIOS.
  repeat constructor; unfold Q2R; cbn; lra.
Qed.

(** On positive integer grid sizes and a positive rational frame aspect the
    executable reading returns the label of [bestAspectRatio]. *)
Lemma bestAspectRatio_executable (cols rows : Z) (frameAR : Q) :
  (0 < cols)%Z -> (0 < rows)%Z -> (0 < frameAR)%Q ->
  bestAspectRatio (IZR cols) (IZR rows) (Q2R frameAR)
  = AspectQ.bestAspectRatio cols rows frameAR.
Proof.
  intros Hcols Hrows Har.
  unfold bestAspectRatio, AspectQ.bestAspectRatio.
  set (target := (inject_Z cols * frameAR / inject_Z rows)%Q).
  assert (Hrows' : (0 < inject_Z rows)%Q).
  { change 0%Q with (inject_Z 0). rewrite <- Zlt_Qlt. exact Hrows. }
  assert (Hcols' : (0 < inject_Z cols)%Q).
  { change 0%Q with (inject_Z 0). rewrite <- Zlt_Qlt. exact Hcols. }
  assert (Htarget : (0 < target)%Q).
  { apply Qlt_shift_div_l; [exact Hrows' |]. rewrite Qmult_0_l.
    apply Qmult_lt_0_compat; assumption. }
  assert (HtargetR : IZR cols * Q2R frameAR / IZR rows = Q2R target).
  { unfold target. rewrite Q2R_div by (apply Qpos_nonzero; exact Hrows').
    rewrite Q2R_mult, !Q2R_inject_Z. reflexivity. }
  rewrite HtargetR.
  pose proof ASPECT_RATIOS_agree as Hall.
  inversion Hall as [| q r rsQ rs Hqr Hrest Hq Hr]; subst.
  destruct (ratio_over_target _ _ target Hqr Htarget) as (Heq & Hpos).
  pose proof (bestAspectRatio_loop_agrees _ _ target Hrest Htarget
                _ _ _ Hqr Hpos) as (Hlabel & _).
  symmetry. rewrite Heq in Hlabel. exact Hlabel.
Qed.

(** A 2 x 2 grid of square frames asks for a square sheet; eight frames as
    4 x 2 ask for 16:9, and so do three 9:16 frames side by side. *)
Example aspect_2x2_square : bestAspectRatio 2 2 (Q2R 1) = units "1:1".
Proof.
  rewrite (bestAspectRatio_executable 2 2 1) by reflexivity.
  vm_compute. reflexivity.
Qed.

Example aspect_4x2_square : bestAspectRatio 4 2 (Q2R 1) = units "16:9".
Proof.
  rewrite (bestAspectRatio_executable 4 2 1) by reflexivity.
  vm_compute. reflexivity.
Qed.

Example aspect_3x1_portrait : bestAspectRatio 3 1 (Q2R (9 # 16)) = units "16:9".
Proof.
  rewrite (bestAspectRatio_executable 3 1 (9 # 16)) by reflexivity.
  vm_compute. reflexivity.
Qed.

End AspectFacts.

(** *** In double precision *)


















Section Aspect64Facts.

Import Aspect64.

Variable Math_log : spec_float -> spec_float.
Variable target : spec_float.


End Aspect64Facts.






(** The stand-in logarithm chooses as the real one does on these grids of
    square frames. *)
Example aspect64_2x2_square :
  Aspect64.bestAspectRatio sampleLog
    (Binary64.number 2) (Binary64.number 2) (Binary64.number 1)
  = units "1:1".
Proof. vm_compute. reflexivity. Qed.

Example aspect64_4x2_square :
  Aspect64.bestAspectRatio sampleLog
    (Binary64.number 4) (Binary64.number 2) (Binary64.number 1)
  = units "16:9".
Proof. vm_compute. reflexivity. Qed.

Example aspect64_3x1_portrait :
  Aspect64.bestAspectRatio sampleLog
    (Binary64.number 3) (Binary64.number 1)
    (Binary64.div (Binary64.number 9) (Binary64.number 16))
  = units "16:9".
Proof. vm_compute. reflexivity. Qed.

(** With a target that is not a number no entry is ever chosen. *)
Example aspect64_no_target :
  Aspect64.bestAspectRatio sampleLog
    (Binary64.number 4) (Binary64.number 2)
    (Binary64.div (Binary64.number 0) (Binary64.number 0))
  = units "1:1".
Proof. vm_compute. reflexivity. Qed.

(** ** Rounding *)

Section RoundingFacts.

Local Open Scope Q_scope.

Lemma Math_round_integer (x : Q) (z : Z) : x == inject_Z z -> Math_round x = z.
Proof.
  intros Hx. unfold Math_round.
  rewrite (Qfloor_comp (x + (1 # 2)) (inject_Z z + (1 # 2)))
    by (rewrite Hx; reflexivity).
  unfold Qfloor, inject_Z, Qplus; cbn. lia.
Qed.

(** [Math.floor] of a quotient of integers is the integer quotient. *)
Lemma Math_floor_quotient (a b : Z) :
  (0 < b)%Z -> Math_floor (inject_Z a / inject_Z b) = (a / b)%Z.
Proof.
  intros Hb. unfold Math_floor.
  destruct b as [| p | p]; try lia.
  unfold Qfloor, Qdiv, Qmult, Qinv, inject_Z; cbn.
  rewrite Z.mul_1_r. reflexivity.
Qed.

(** [Math.round] of three hundredths of an integer. *)
Lemma Math_round_inset (w : Z) :
  Math_round (inject_Z w * (3 # 100)) = ((3 * w + 50) / 100)%Z.
Proof.
  unfold Math_round, Qfloor, Qplus, Qmult, inject_Z; cbn -[Z.mul Z.add Z.div]. lia.
Qed.


End RoundingFacts.

(** ** Cell geometry *)

Lemma frameW_quotient (opts : GenerateOpts) (imgW : Z) :
  0 < cols opts -> frameW opts imgW = imgW / cols opts.
Proof. intros H. unfold frameW. apply Math_floor_quotient. exact H. Qed.

Lemma frameH_quotient (imgH actualRows : Z) :
  0 < actualRows -> frameH imgH actualRows = imgH / actualRows.
Proof. intros H. unfold frameH. apply Math_floor_quotient. exact H. Qed.

Lemma insetX_formula (opts : GenerateOpts) (imgW : Z) :
  insetX opts imgW = Z.max 1 ((3 * frameW opts imgW + 50) / 100).
Proof. unfold insetX. rewrite Math_round_inset. reflexivity. Qed.

Lemma insetY_formula (imgH actualRows : Z) :
  insetY imgH actualRows = Z.max 1 ((3 * frameH imgH actualRows + 50) / 100).
Proof. unfold insetY. rewrite Math_round_inset. reflexivity. Qed.

(** *** Agreement with binary64 arithmetic *)

(** The double used for [0.03] is within half a unit in the last place of
    three hundredths. *)
Lemma three_hundredths_nearest :
  exists x, Binary64.value Binary64.three_hundredths = Some x /\
            (Qabs.Qabs (x - (3 # 100)) <= 1 # (2 ^ 59))%Q.
Proof.
  eexists. split; [reflexivity |].
  apply Qle_bool_iff. vm_compute. reflexivity.
Qed.

Lemma insetsAgreeBelow_spec (n : nat) :
  insetsAgreeBelow n = true ->
  forall k, (k < n)%nat -> Binary64.inset (Z.of_nat k) = Some (insetOf (Z.of_nat k)).
Proof.
  induction n as [| n IH]; intros Hall k Hk; [lia |].
  cbn [insetsAgreeBelow] in Hall. apply andb_true_iff in Hall.
  destruct Hall as (Hn & Hrest).
  destruct (Nat.eq_dec k n) as [-> | Hne]; [| apply IH; [exact Hrest | lia]].
  destruct (Binary64.inset (Z.of_nat n)) as [i |]; [| discriminate].
  apply Z.eqb_eq in Hn. rewrite Hn. reflexivity.
Qed.

(** For every cell size up to 4096 pixels, the largest a 4K sheet can
    give, the inset computed in doubles is the inset of the exact model. *)
Lemma inset_as_in_binary64 (size : Z) :
  0 <= size <= 4096 ->
  Binary64.inset size = Some (insetOf size).
Proof.
  intros Hsize. rewrite <- (Z2Nat.id size) by lia.
  apply (insetsAgreeBelow_spec 4097); [vm_compute; reflexivity | lia].
Qed.

Lemma insetX_insetOf (opts : GenerateOpts) (imgW : Z) :
  insetX opts imgW = insetOf (frameW opts imgW).
Proof. reflexivity. Qed.

Lemma insetY_insetOf (imgH actualRows : Z) :
  insetY imgH actualRows = insetOf (frameH imgH actualRows).
Proof. reflexivity. Qed.

(** One axis of a cell: [count] cells of size [size = total / count], the
    [i]-th shrunk by [inset] on both sides, stays inside [0, total]. *)
Lemma cell_axis_within (total count size inset i : Z) :
  1 <= count -> size = total / count -> 3 <= size ->
  inset = Z.max 1 ((3 * size + 50) / 100) ->
  0 <= i < count ->
  0 < size - inset * 2 /\
  0 <= i * size + inset /\
  i * size + inset + (size - inset * 2) <= total.
Proof.
  intros Hcount Hsize H3 Hinset Hi.
  assert (Hfit : count * size <= total) by (subst size; nia).
  assert (Hin : 1 <= inset /\ inset * 2 < size) by lia.
  repeat split; nia.
Qed.

(** C10. With at least one column and one row, and cells at least 3 pixels
    wide and high (the cell size being the integer quotient of the image
    size by the grid size, and the inset a rounded 3% of it, at least 1),
    every region cut for a cell of the grid has positive width and height
    and lies inside the source image. *)
Theorem extracted_cell_within_image (opts : GenerateOpts)
    (imgW imgH actualRows row col : Z) :
  1 <= cols opts -> 1 <= actualRows ->
  3 <= frameW opts imgW -> 3 <= frameH imgH actualRows ->
  0 <= col < cols opts -> 0 <= row < actualRows ->
  frameW opts imgW = imgW / cols opts /\
  frameH imgH actualRows = imgH / actualRows /\
  insetX opts imgW = Z.max 1 ((3 * frameW opts imgW + 50) / 100) /\
  insetY imgH actualRows = Z.max 1 ((3 * frameH imgH actualRows + 50) / 100) /\
  withinSource (extractCell opts imgW imgH actualRows row col).
Proof.
  intros Hcols Hrows HW HH Hcol Hrow.
  pose proof (@frameW_quotient opts imgW ltac:(lia)) as HfW.
  pose proof (@frameH_quotient imgH actualRows ltac:(lia)) as HfH.
  split; [exact HfW |]. split; [exact HfH |].
  split; [apply insetX_formula |]. split; [apply insetY_formula |].
  unfold extractCell, withinSource.
  destruct (@cell_axis_within imgW (cols opts) (frameW opts imgW)
              (insetX opts imgW) col)
    as (Hw & Hl & Hr); try assumption; [apply insetX_formula |].
  destruct (@cell_axis_within imgH actualRows (frameH imgH actualRows)
              (insetY imgH actualRows) row)
    as (Hh & Ht & Hb); try assumption; [apply insetY_formula |].
  repeat split; assumption.
Qed.

Lemma extracted_cell_within_image_witness :
  (1 <= cols scenarioA /\ 1 <= 2 /\
   3 <= frameW scenarioA 7 /\ 3 <= frameH 6 2 /\
   0 <= 1 < cols scenarioA /\ 0 <= 1 < 2) /\
  withinSource (extractCell scenarioA 7 6 2 1 1).
Proof.
  split; [vm_compute; intuition discriminate |].
  apply (@extracted_cell_within_image scenarioA 7 6 2 1 1);
    vm_compute; intuition discriminate.
Defined.

Example smallest_cell :
  extractCell scenarioA 7 6 2 1 1 = Extract (ProviderImage 7 6) 4 4 1 1.
Proof. vm_compute. reflexivity. Qed.

(** ** Enumeration order of the slicer *)

Section EnumerationFacts.

Variable resolves : Image -> bool.
Variable opts : GenerateOpts.
Variable actualRows : Z.
Variable cell : Z -> Z -> Image.

Lemma awaitedAfter_nil (frames : list Image) :
  awaitedAfter resolves frames [] = Return frames.
Proof. unfold awaitedAfter. cbn [forallb]. rewrite app_nil_r. reflexivity. Qed.

Lemma awaitedAfter_cons (frames more : list Image) (img : Image) :
  awaitedAfter resolves frames (img :: more)
  = if resolves img then awaitedAfter resolves (frames ++ [img]) more else Throw.
Proof.
  unfold awaitedAfter. cbn [forallb].
  destruct (resolves img); cbn [andb]; [| reflexivity].
  rewrite <- app_assoc. reflexivity.
Qed.

(** Awaiting two runs of pipelines, the second after the first. *)
Lemma awaitedAfter_app (frames first second : list Image) :
  awaitedAfter resolves frames (first ++ second)
  = match awaitedAfter resolves frames first with
    | Return frames' => awaitedAfter resolves frames' second
    | Exit code => Exit code
    | Throw => Throw
    | Hang => Hang
    end.
Proof.
  unfold awaitedAfter. rewrite forallb_app.
  destruct (forallb resolves first); cbn [andb]; [| reflexivity].
  rewrite <- app_assoc. reflexivity.
Qed.

Lemma extractCols_spec (row col : Z) (frames : list Image) :
  extractCols resolves opts cell row col frames
  = awaitedAfter resolves frames
      (firstn (wanted opts frames)
              (map (cell row) (range col (Z.to_nat (cols opts - col))))).
Proof.
  funelim (extractCols resolves opts cell row col frames).
  - destruct (Z.ltb_spec (Z.of_nat (length frames)) (numFrames opts)) as [Hlt | Hge].
    + unfold wanted.
      replace (Z.to_nat (cols opts - col))
        with (S (Z.to_nat (cols opts - (col + 1)))) by lia.
      replace (Z.to_nat (numFrames opts - Z.of_nat (length frames)))
        with (S (Z.to_nat (numFrames opts
                           - Z.of_nat (length frames + 1)))) by lia.
      cbn [range map firstn]. rewrite awaitedAfter_cons.
      destruct (resolves (cell row col)); [| reflexivity].
      rewrite H. unfold wanted. rewrite length_app. reflexivity.
    + unfold wanted.
      replace (Z.to_nat (numFrames opts - Z.of_nat (length frames)))
        with O by lia.
      cbn [firstn]. rewrite awaitedAfter_nil. reflexivity.
  - replace (Z.to_nat (cols opts - col)) with O by lia.
    cbn [range map]. rewrite firstn_nil, awaitedAfter_nil. reflexivity.
Qed.

Lemma extractRows_spec (row : Z) (frames : list Image) :
  extractRows resolves opts actualRows cell row frames
  = awaitedAfter resolves frames
      (firstn (wanted opts frames)
              (flat_map (fun r => map (cell r) (range 0 (Z.to_nat (cols opts))))
                        (range row (Z.to_nat (actualRows - row))))).
Proof.
  funelim (extractRows resolves opts actualRows cell row frames).
  - destruct (Z.ltb_spec (Z.of_nat (length frames)) (numFrames opts)) as [Hlt | Hge].
    + rewrite extractCols_spec.
      replace (Z.to_nat (actualRows - row))
        with (S (Z.to_nat (actualRows - (row + 1)))) by lia.
      cbn [range flat_map]. rewrite Z.sub_0_r.
      rewrite firstn_app, awaitedAfter_app.
      set (rowCells := map (cell row) (range 0 (Z.to_nat (cols opts)))).
      set (m := wanted opts frames).
      destruct (awaitedAfter resolves frames (firstn m rowCells))
        as [frames' | code | |] eqn:Hfirst; try reflexivity.
      unfold awaitedAfter in Hfirst.
      destruct (forallb resolves (firstn m rowCells)); [| discriminate].
      injection Hfirst as <-.
      rewrite H. f_equal. f_equal.
      unfold wanted, m, wanted. rewrite length_app, length_firstn.
      set (k := Z.to_nat (numFrames opts - Z.of_nat (length frames))).
      replace (Z.to_nat (numFrames opts
                         - Z.of_nat (length frames + Nat.min k (length rowCells))))
        with (k - Nat.min k (length rowCells))%nat by lia.
      destruct (Nat.le_ge_cases k (length rowCells)) as [Hle | Hgt].
      * rewrite Nat.min_l by exact Hle.
        replace (k - k)%nat with O by lia.
        replace (k - length rowCells)%nat with O by lia. reflexivity.
      * rewrite Nat.min_r by exact Hgt. reflexivity.
    + unfold wanted.
      replace (Z.to_nat (numFrames opts - Z.of_nat (length frames)))
        with O by lia.
      cbn [firstn]. rewrite awaitedAfter_nil. reflexivity.
  - replace (Z.to_nat (actualRows - row)) with O by lia.
    cbn [range flat_map]. rewrite firstn_nil, awaitedAfter_nil. reflexivity.
Qed.

(** The slicer awaits the first [numFrames] cells in reading order. *)
Lemma extractRows_reading_order :
  extractRows resolves opts actualRows cell 0 []
  = awaited resolves
      (firstn (Z.to_nat (numFrames opts)) (gridCells cell (cols opts) actualRows)).
Proof.
  rewrite extractRows_spec. unfold awaited, wanted, gridCells. cbn [length].
  rewrite !Z.sub_0_r. reflexivity.
Qed.

End EnumerationFacts.

Lemma range_length (start : Z) (count : nat) : length (range start count) = count.
Proof.
  revert start. induction count as [| k IH]; intros start; cbn;
    [reflexivity | rewrite IH; reflexivity].
Qed.

Lemma gridCells_length (cell : Z -> Z -> Image) (cols actualRows : Z) :
  length (gridCells cell cols actualRows)
  = (Z.to_nat actualRows * Z.to_nat cols)%nat.
Proof.
  unfold gridCells. generalize 0 at 2.
  induction (Z.to_nat actualRows) as [| k IH]; intros start; cbn [range flat_map].
  - reflexivity.
  - rewrite length_app, length_map, range_length, IH. lia.
Qed.

Lemma range_nth (count : nat) :
  forall start i, (i < count)%nat ->
  nth_error (range start count) i = Some (start + Z.of_nat i).
Proof.
  induction count as [| k IH]; intros start i Hi; [lia |].
  destruct i as [| i]; cbn [range nth_error].
  - rewrite Z.add_0_r. reflexivity.
  - rewrite IH by lia. f_equal. lia.
Qed.

(** Cell number [i] of the grid, counting from 0, is the cell in row
    [i / cols] and column [i mod cols]. *)
Lemma gridCells_nth (cell : Z -> Z -> Image) (cols actualRows : Z) (i : nat)
    (c : Image) :
  0 < cols ->
  nth_error (gridCells cell cols actualRows) i = Some c ->
  c = cell (Z.of_nat i / cols) (Z.of_nat i mod cols).
Proof.
  intros Hcols. unfold gridCells.
  replace (Z.of_nat i / cols) with (0 + Z.of_nat i / cols) by lia.
  generalize 0 at 2 3. revert i.
  induction (Z.to_nat actualRows) as [| k IH]; intros i start Hnth;
    cbn [range flat_map] in Hnth.
  - destruct i; discriminate.
  - destruct (Nat.lt_ge_cases i (Z.to_nat cols)) as [Hlt | Hge].
    + rewrite nth_error_app1 in Hnth by (rewrite length_map, range_length; exact Hlt).
      rewrite nth_error_map, (range_nth _ 0 i Hlt) in Hnth.
      cbn in Hnth. injection Hnth as <-.
      rewrite Z.div_small, Z.mod_small by lia. f_equal. lia.
    + rewrite nth_error_app2 in Hnth by (rewrite length_map, range_length; exact Hge).
      rewrite length_map, range_length in Hnth.
      apply IH in Hnth. rewrite Hnth.
      replace (Z.of_nat (i - Z.to_nat cols)) with (Z.of_nat i - 1 * cols) by lia.
      rewrite Zminus_mod, Z_mod_mult, Z.sub_0_r, Z.mod_mod by lia.
      f_equal.
      replace (Z.of_nat i - 1 * cols) with (Z.of_nat i + (- 1) * cols) by lia.
      rewrite Z.div_add by lia. lia.
Qed.

(** ** Frame Reconciler *)





Section ReconcilerFacts.

Variable trimInfo : Image -> Z * Z.

Lemma trimFrames_spec (rawFrames : list Image) :
  forall trimmed maxTrimW maxTrimH,
  trimFrames trimInfo rawFrames trimmed maxTrimW maxTrimH
  = (trimmed ++ map (trimmedCell trimInfo) rawFrames,
     fold_left Z.max (map (fun raw => fst (trimInfo (Trim raw 20))) rawFrames) maxTrimW,
     fold_left Z.max (map (fun raw => snd (trimInfo (Trim raw 20))) rawFrames) maxTrimH).
Proof.
  induction rawFrames as [| raw rest IH]; intros trimmed maxTrimW maxTrimH; cbn.
  - rewrite app_nil_r. reflexivity.
  - rewrite IH, <- app_assoc. reflexivity.
Qed.


End ReconcilerFacts.



(** ** Procedural frame validation *)

Lemma notSvgString_false_iff (v : JSON) :
  notSvgString v = false <-> isSvgString v.
Proof.
  unfold isSvgString. split.
  - destruct v; cbn; try discriminate.
    intros H. exists s. split; [reflexivity |].
    apply negb_false_iff. exact H.
  - intros (s & -> & Hs). unfold notSvgString. rewrite Hs. reflexivity.
Qed.

Lemma notSvgString_true_iff (v : JSON) :
  notSvgString v = true <-> ~ isSvgString v.
Proof.
  rewrite <- notSvgString_false_iff.
  destruct (notSvgString v); split; intros H; congruence.
Qed.

(** Whoever has an invalid element has a first one. *)
Lemma firstInvalid_exists (svgs : list JSON) :
  (exists i v, nth_error svgs i = Some v /\ ~ isSvgString v) ->
  exists i, firstInvalid svgs i.
Proof.
  induction svgs as [| x rest IH]; intros (i & v & Hnth & Hbad).
  - destruct i; discriminate.
  - destruct (notSvgString x) eqn:Hx.
    + exists O. split.
      * exists x. split; [reflexivity | apply notSvgString_true_iff; exact Hx].
      * intros j w Hj. lia.
    + destruct i as [| i].
      * cbn in Hnth. injection Hnth as <-.
        apply notSvgString_false_iff in Hx. contradiction.
      * destruct IH as (k & (w & Hw & Hwbad) & Hbefore).
        { exists i, v. split; assumption. }
        exists (S k). split.
        -- exists w. split; assumption.
        -- intros j u Hj Hu. destruct j as [| j].
           ++ cbn in Hu. injection Hu as <-.
              apply notSvgString_false_iff. exact Hx.
           ++ apply (Hbefore j); [lia | exact Hu].
Qed.

Lemma checkFrames_firstInvalid (svgs : list JSON) :
  forall start i, firstInvalid svgs i ->
  checkFrames start svgs = ([frameError (start + Z.of_nat i)], Exit 1).
Proof.
  induction svgs as [| x rest IH]; intros start i ((v & Hnth & Hbad) & Hbefore).
  - destruct i; discriminate.
  - destruct i as [| i]; cbn [checkFrames].
    + cbn in Hnth. injection Hnth as <-.
      apply notSvgString_true_iff in Hbad. rewrite Hbad.
      rewrite Z.add_0_r. reflexivity.
    + assert (Hx : notSvgString x = false).
      { apply notSvgString_false_iff. apply (Hbefore O); [lia | reflexivity]. }
      rewrite Hx, (IH (start + 1) i).
      * f_equal. f_equal. f_equal. lia.
      * split.
        -- exists v. split; assumption.
        -- intros j w Hj Hw. apply (Hbefore (S j)); [lia | exact Hw].
Qed.

Lemma checkFrames_all_valid (svgs : list JSON) :
  forall start, (forall v, In v svgs -> isSvgString v) ->
  checkFrames start svgs = ([], Return tt).
Proof.
  induction svgs as [| x rest IH]; intros start Hall; cbn [checkFrames].
  - reflexivity.
  - assert (Hx : notSvgString x = false).
    { apply notSvgString_false_iff. apply Hall. left; reflexivity. }
    rewrite Hx. apply IH. intros v Hv. apply Hall. right; exact Hv.
Qed.

(** A check that lets the loop finish has seen only valid elements. *)
Lemma checkFrames_returns (svgs : list JSON) :
  forall start out, checkFrames start svgs = (out, Return tt) ->
  out = [] /\ forall v, In v svgs -> isSvgString v.
Proof.
  induction svgs as [| x rest IH]; intros start out Hrun; cbn [checkFrames] in Hrun.
  - injection Hrun as <-. split; [reflexivity | intros v []].
  - destruct (notSvgString x) eqn:Hx; [discriminate |].
    destruct (IH _ _ Hrun) as (-> & Hall). split; [reflexivity |].
    intros v [<- | Hv]; [apply notSvgString_false_iff; exact Hx | apply Hall; exact Hv].
Qed.

Section ScriptFacts.

Variable JSON_parse : jsstring -> option JSON.
Variable proc : SpawnResult.
Variable opts : GenerateOpts.

(** After a clean exit and a parse to a non-empty array, what is left of
    [executeFrameScript] is the count warning and the element check. *)
Lemma executeFrameScript_array (svgs : list JSON) :
  exitCode proc = Some 0 ->
  JSON_parse (trim (stdout proc)) = Some (JArray svgs) ->
  svgs <> [] ->
  executeFrameScript JSON_parse proc opts
  = (let (out, r) := checkFrames 0 svgs in
     (countWarning opts svgs ++ out,
      match r with
      | Return _ => Return svgs
      | Exit code => Exit code
      | Throw => Throw
      | Hang => Hang
      end)).
Proof.
  intros Hexit Hparse Hne. unfold executeFrameScript.
  rewrite Hexit, Hparse.
  destruct (Z.eqb_spec (Z.of_nat (length svgs)) 0) as [H0 | _].
  { destruct svgs; [contradiction | cbn in H0; lia]. }
  unfold countWarning.
  destruct (Z.of_nat (length svgs) =? numFrames opts);
    cbn [negb]; destruct (checkFrames 0 svgs) as [out [[] | code | |]];
    cbn; rewrite ?app_nil_r; reflexivity.
Qed.

Lemma executeFrameScript_invalid (svgs : list JSON) (i : nat) :
  exitCode proc = Some 0 ->
  JSON_parse (trim (stdout proc)) = Some (JArray svgs) ->
  firstInvalid svgs i ->
  executeFrameScript JSON_parse proc opts
  = (countWarning opts svgs ++ [frameError (Z.of_nat i)], Exit 1).
Proof.
  intros Hexit Hparse Hi.
  assert (Hne : svgs <> []).
  { destruct Hi as ((v & Hnth & _) & _). intros ->. destruct i; discriminate. }
  rewrite (executeFrameScript_array svgs Hexit Hparse Hne).
  rewrite (checkFrames_firstInvalid svgs 0 i Hi). reflexivity.
Qed.

Lemma executeFrameScript_valid (svgs : list JSON) :
  exitCode proc = Some 0 ->
  JSON_parse (trim (stdout proc)) = Some (JArray svgs) ->
  svgs <> [] -> (forall v, In v svgs -> isSvgString v) ->
  executeFrameScript JSON_parse proc opts = (countWarning opts svgs, Return svgs).
Proof.
  intros Hexit Hparse Hne Hall.
  rewrite (executeFrameScript_array svgs Hexit Hparse Hne).
  rewrite (checkFrames_all_valid svgs 0 Hall), app_nil_r. reflexivity.
Qed.

(** No array of valid elements draws the invalid-frame diagnosis, the
    empty one included. *)
Lemma executeFrameScript_no_frameError (svgs : list JSON) (i : Z) :
  exitCode proc = Some 0 ->
  JSON_parse (trim (stdout proc)) = Some (JArray svgs) ->
  (forall v, In v svgs -> isSvgString v) ->
  ~ In (frameError i) (console (executeFrameScript JSON_parse proc opts)).
Proof.
  intros Hexit Hparse Hall.
  destruct svgs as [| x rest].
  - unfold executeFrameScript. rewrite Hexit, Hparse. cbn.
    intros [Heq | []]. unfold frameError in Heq. cbn in Heq. discriminate.
  - rewrite (executeFrameScript_valid (x :: rest) Hexit Hparse ltac:(discriminate) Hall).
    unfold console, countWarning. cbn [fst].
    destruct (Z.of_nat (length (x :: rest)) =? numFrames opts);
      [intros [] | intros [Heq | []]; discriminate].
Qed.

(** What a returning [executeFrameScript] has gone through. *)
Lemma executeFrameScript_returns (out : list Line) (svgs : list JSON) :
  executeFrameScript JSON_parse proc opts = (out, Return svgs) ->
  exitCode proc = Some 0 /\
  JSON_parse (trim (stdout proc)) = Some (JArray svgs) /\
  svgs <> [] /\
  (forall v, In v svgs -> isSvgString v) /\
  out = countWarning opts svgs.
Proof.
  unfold executeFrameScript. intros Hrun.
  destruct (exitCode proc) as [[| c | c] |]; try discriminate.
  destruct (JSON_parse (trim (stdout proc))) as [[| b | x | s | xs | ms] |];
    try discriminate.
  destruct (Z.eqb_spec (Z.of_nat (length xs)) 0) as [H0 | Hlen]; [discriminate |].
  assert (Hne : xs <> []) by (intros ->; apply Hlen; reflexivity).
  fold (executeFrameScript JSON_parse proc opts) in Hrun.
  unfold countWarning.
  destruct (checkFrames 0 xs) as [chk [[] | code | |]] eqn:Hchk.
  - destruct (checkFrames_returns _ _ _ Hchk) as (-> & Hall).
    destruct (Z.of_nat (length xs) =? numFrames opts) eqn:Hcount; cbn in Hrun;
      injection Hrun as <- <-; rewrite Hcount;
      repeat split; assumption || reflexivity.
  - destruct (Z.of_nat (length xs) =? numFrames opts); cbn in Hrun; discriminate.
  - destruct (Z.of_nat (length xs) =? numFrames opts); cbn in Hrun; discriminate.
  - destruct (Z.of_nat (length xs) =? numFrames opts); cbn in Hrun; discriminate.
Qed.

End ScriptFacts.

(** C7. After a clean exit and a successful parse to an array, an element
    that is not a string starting (once trimmed) with the SVG open tag makes
    the run print [Error: frame i is not a valid SVG string] and exit with
    status 1, where [i] is the index of the first such element; an array
    that has such an element has a first one.  An array whose elements all
    pass the check never draws this diagnosis, and when it is not empty it
    is returned unchanged. *)
Theorem invalid_frame_rejected (JSON_parse : jsstring -> option JSON)
    (proc : SpawnResult) (opts : GenerateOpts) (svgs : list JSON) :
  exitCode proc = Some 0 ->
  JSON_parse (trim (stdout proc)) = Some (JArray svgs) ->
  (forall i, firstInvalid svgs i ->
     executeFrameScript JSON_parse proc opts
     = (countWarning opts svgs ++ [frameError (Z.of_nat i)], Exit 1)) /\
  ((exists i v, nth_error svgs i = Some v /\ ~ isSvgString v) ->
     exists i, firstInvalid svgs i /\
       executeFrameScript JSON_parse proc opts
       = (countWarning opts svgs ++ [frameError (Z.of_nat i)], Exit 1)) /\
  ((forall v, In v svgs -> isSvgString v) ->
     (forall i, ~ In (frameError i)
                     (console (executeFrameScript JSON_parse proc opts))) /\
     (svgs <> [] ->
      executeFrameScript JSON_parse proc opts
      = (countWarning opts svgs, Return svgs))).
Proof.
  intros Hexit Hparse.
  split; [| split].
  - intros i Hi. apply executeFrameScript_invalid; assumption.
  - intros Hbad. destruct (firstInvalid_exists svgs Hbad) as (i & Hi).
    exists i. split; [exact Hi | apply executeFrameScript_invalid; assumption].
  - intros Hall. split.
    + intros i. apply executeFrameScript_no_frameError with (svgs := svgs);
        assumption.
    + intros Hne. apply executeFrameScript_valid; assumption.
Qed.

Example mixedPayload_rejected :
  executeFrameScript parseMixed
                     (cleanExit "[...]") twoFrames
  = ([Error (units "Error: frame 1 is not a valid SVG string")], Exit 1).
Proof. vm_compute. reflexivity. Qed.

Lemma mixedPayload_firstInvalid : firstInvalid mixedPayload 1.
Proof.
  split.
  - exists (JNumber (42 # 1)). split; [reflexivity |].
    intros (s & Hs & _). discriminate.
  - intros j w Hj Hw. destruct j as [| j]; [| lia].
    cbn in Hw. injection Hw as <-.
    exists (units "<svg/>"). split; reflexivity.
Qed.

Lemma invalid_frame_rejected_witness :
  executeFrameScript parseMixed
                     (cleanExit "[...]") twoFrames
  = (countWarning twoFrames mixedPayload ++ [frameError 1], Exit 1).
Proof.
  destruct (@invalid_frame_rejected parseMixed
              (cleanExit "[...]") twoFrames mixedPayload eq_refl eq_refl)
    as (Hfirst & _).
  exact (Hfirst 1%nat mixedPayload_firstInvalid).
Defined.

(** Leading and trailing white space is ignored; anything else before the
    tag is not. *)
Example padded_svg_accepted :
  notSvgString (JString ([32; 10; 9; 160; 65279]%N ++ units "<svg width='1'>")) = false.
Proof. vm_compute. reflexivity. Qed.

Example text_before_svg_refused :
  notSvgString (JString (units "<?xml version='1.0'?><svg/>")) = true.
Proof. vm_compute. reflexivity. Qed.

(** ** Frame-count mismatch and the empty array *)

Lemma writeFrames_length (tmpDir : jsstring) (frames : list Image) :
  forall i, length (writeFrames tmpDir i frames) = length frames.
Proof.
  induction frames as [| f rest IH]; intros i; cbn [writeFrames length];
    [reflexivity | rewrite IH; reflexivity].
Qed.


(** The encoder is given the frame files in order, between the options and
    the output path; the delay is in hundredths of a second, rounded. *)
Example encoder_arguments (first second out : jsstring) :
  gifsicleArgs 125 256 [first; second] out
  = [units "--delay"; units "13"; units "--loop"; units "--colors";
     units "256"; units "-O3"; first; second; units "-o"; out].
Proof. reflexivity. Qed.

Section RasterFacts.

Variable JSON_parse : jsstring -> option JSON.
Variable resolves : Image -> bool.
Variable proc : SpawnResult.
Variable opts : GenerateOpts.

(** The rasterizing loop awaits one raster for each element, in order. *)
Lemma rasterizeFrames_spec (svgs : list JSON) :
  forall frames,
  rasterizeFrames resolves opts svgs frames
  = ([], awaitedAfter resolves frames (map (rasterized opts) svgs)).
Proof.
  induction svgs as [| svg rest IH]; intros frames; cbn [rasterizeFrames map].
  - rewrite awaitedAfter_nil. reflexivity.
  - rewrite awaitedAfter_cons. fold (rasterized opts svg). unfold toBuffer.
    destruct (resolves (rasterized opts svg)); cbn; [rewrite IH |]; reflexivity.
Qed.

Lemma generateClaude_after_script (out : list Line) (svgs : list JSON) :
  executeFrameScript JSON_parse proc opts = (out, Return svgs) ->
  generateClaude JSON_parse resolves proc opts
  = (out, awaited resolves (map (rasterized opts) svgs)).
Proof.
  intros Hrun. unfold generateClaude, bind. rewrite Hrun, rasterizeFrames_spec.
  rewrite app_nil_r. reflexivity.
Qed.

Lemma awaited_returns (pipelines frames : list Image) :
  awaited resolves pipelines = Return frames ->
  frames = pipelines /\ forallb resolves pipelines = true.
Proof.
  unfold awaited, awaitedAfter. destruct (forallb resolves pipelines);
    [| discriminate].
  intros H. injection H as <-. split; reflexivity.
Qed.

Lemma awaited_all (pipelines : list Image) :
  (forall img, In img pipelines -> resolves img = true) ->
  awaited resolves pipelines = Return pipelines.
Proof.
  intros Hall. unfold awaited, awaitedAfter.
  rewrite (proj2 (forallb_forall resolves pipelines) Hall). reflexivity.
Qed.

(** A run of [generateClaude] that returns frames is a run of the script
    that returned the array they are the rasters of. *)
Lemma generateClaude_returns (out : list Line) (frames : list Image) :
  generateClaude JSON_parse resolves proc opts = (out, Return frames) ->
  exists svgs,
    executeFrameScript JSON_parse proc opts = (out, Return svgs) /\
    frames = map (rasterized opts) svgs.
Proof.
  intros Hrun.
  destruct (executeFrameScript JSON_parse proc opts)
    as [log [svgs | code | |]] eqn:Hexec;
    try (unfold generateClaude, bind in Hrun; rewrite Hexec in Hrun;
         discriminate).
  rewrite (generateClaude_after_script log svgs Hexec) in Hrun.
  injection Hrun as <- Hframes.
  apply awaited_returns in Hframes. destruct Hframes as (-> & _).
  exists svgs. split; reflexivity.
Qed.

End RasterFacts.

(** The empty array is an array of valid SVG strings, none of its elements
    failing the check, and its length differs from the four frames
    requested; the run is not recovered with a warning, it exits with
    status 1, also when [sharp] would carry every pipeline out. *)
Lemma empty_array_not_recovered :
  (forall v, In v (@nil JSON) -> isSvgString v) /\
  Z.of_nat (length (@nil JSON)) <> numFrames scenarioA /\
  parseEmpty (trim (stdout (cleanExit "[]"))) = Some (JArray []) /\
  generateClaude parseEmpty alwaysResolves (cleanExit "[]") scenarioA
  = ([Error (units "Error: expected array of SVG strings, got object")],
     Exit 1).
Proof.
  split; [intros v [] |]. split; [discriminate |].
  split; reflexivity.
Qed.

(** C8, amended.  After a clean exit, a non-empty array of valid SVG
    strings whose length differs from the requested count is returned
    unchanged with one warning printed, and nothing else.  The rasters are
    then made from it one after the other: when [sharp] carries all of them
    out the run returns as many frames as the array is long, and as many
    frame files are written; otherwise the exception of the first raster it
    refuses ends the run, after the warning. *)
Theorem count_mismatch_recoverable (JSON_parse : jsstring -> option JSON)
    (resolves : Image -> bool) (proc : SpawnResult) (opts : GenerateOpts)
    (svgs : list JSON) (tmpDir : jsstring) :
  exitCode proc = Some 0 ->
  JSON_parse (trim (stdout proc)) = Some (JArray svgs) ->
  svgs <> [] ->
  (forall v, In v svgs -> isSvgString v) ->
  Z.of_nat (length svgs) <> numFrames opts ->
  let warning :=
    Log (units "Warning: got " ++ String_of_Z (Z.of_nat (length svgs))
         ++ units " frames (expected " ++ String_of_Z (numFrames opts)
         ++ units ")") in
  executeFrameScript JSON_parse proc opts = ([warning], Return svgs) /\
  generateClaude JSON_parse resolves proc opts
    = ([warning],
       if forallb resolves (map (rasterized opts) svgs)
       then Return (map (rasterized opts) svgs)
       else Throw) /\
  ((forall svg, In svg svgs -> resolves (rasterized opts svg) = true) ->
   generateClaude JSON_parse resolves proc opts
   = ([warning], Return (map (rasterized opts) svgs))) /\
  length (writeFrames tmpDir 0 (map (rasterized opts) svgs)) = length svgs.
Proof.
  intros Hexit Hparse Hne Hall Hlen warning.
  assert (Hrun : executeFrameScript JSON_parse proc opts = ([warning], Return svgs)).
  { rewrite (executeFrameScript_valid JSON_parse proc opts svgs
               Hexit Hparse Hne Hall).
    unfold countWarning.
    destruct (Z.eqb_spec (Z.of_nat (length svgs)) (numFrames opts));
      [contradiction | reflexivity]. }
  split; [exact Hrun |]. split; [| split].
  - rewrite (generateClaude_after_script JSON_parse resolves proc opts _ _ Hrun).
    reflexivity.
  - intros Hres.
    rewrite (generateClaude_after_script JSON_parse resolves proc opts _ _ Hrun).
    rewrite awaited_all; [reflexivity |].
    intros img Hin. apply in_map_iff in Hin. destruct Hin as (svg & <- & Hin).
    apply Hres. exact Hin.
  - rewrite writeFrames_length, length_map. reflexivity.
Qed.

(** Scenario C: five valid frames where four were asked for. *)
Example scenarioC :
  generateClaude parseFive alwaysResolves (cleanExit "[...]") scenarioA
  = ([Log (units "Warning: got 5 frames (expected 4)")],
     Return (map (rasterized scenarioA) fiveFrames)).
Proof. vm_compute. reflexivity. Qed.

(** The same answer when [sharp] cannot read the documents: the warning,
    then the exception. *)
Example scenarioC_unreadable :
  generateClaude parseFive noSvgSupport (cleanExit "[...]") scenarioA
  = ([Log (units "Warning: got 5 frames (expected 4)")], Throw).
Proof. vm_compute. reflexivity. Qed.

Lemma fiveFrames_valid : forall v, In v fiveFrames -> isSvgString v.
Proof.
  intros v Hv. apply notSvgString_false_iff.
  repeat (destruct Hv as [<- | Hv]; [vm_compute; reflexivity |]).
  destruct Hv.
Qed.

Lemma count_mismatch_recoverable_witness :
  generateClaude parseFive alwaysResolves (cleanExit "[...]") scenarioA
    = ([Log (units "Warning: got " ++ String_of_Z 5
             ++ units " frames (expected " ++ String_of_Z 4 ++ units ")")],
       Return (map (rasterized scenarioA) fiveFrames)) /\
  length (writeFrames (units "/tmp/guff-0") 0
            (map (rasterized scenarioA) fiveFrames)) = 5%nat.
Proof.
  destruct (@count_mismatch_recoverable parseFive alwaysResolves
              (cleanExit "[...]") scenarioA fiveFrames (units "/tmp/guff-0")
              eq_refl eq_refl ltac:(discriminate) fiveFrames_valid
              ltac:(discriminate))
    as (_ & _ & Hgen & Hfiles).
  split; [apply Hgen; intros; reflexivity | exact Hfiles].
Defined.

(** C9. An empty array is fatal: the run prints
    [Error: expected array of SVG strings, got object] and exits with
    status 1, whatever count was requested.  So [executeFrameScript] never
    returns an empty sequence, and neither does [generateClaude]. *)
Theorem empty_array_fatal (JSON_parse : jsstring -> option JSON)
    (resolves : Image -> bool) (proc : SpawnResult) (opts : GenerateOpts) :
  (exitCode proc = Some 0 ->
   JSON_parse (trim (stdout proc)) = Some (JArray []) ->
   executeFrameScript JSON_parse proc opts
   = ([Error (units "Error: expected array of SVG strings, got object")],
      Exit 1)) /\
  (forall out svgs,
     executeFrameScript JSON_parse proc opts = (out, Return svgs) ->
     svgs <> []) /\
  (forall out frames,
     generateClaude JSON_parse resolves proc opts = (out, Return frames) ->
     frames <> []).
Proof.
  split; [| split].
  - intros Hexit Hparse. unfold executeFrameScript.
    rewrite Hexit, Hparse. reflexivity.
  - intros out svgs Hrun.
    destruct (executeFrameScript_returns JSON_parse proc opts out svgs Hrun)
      as (_ & _ & Hne & _).
    exact Hne.
  - intros out frames Hrun.
    destruct (generateClaude_returns JSON_parse resolves proc opts out frames Hrun)
      as (svgs & Hexec & ->).
    destruct (executeFrameScript_returns JSON_parse proc opts out svgs Hexec)
      as (_ & _ & Hne & _).
    destruct svgs; [contradiction | discriminate].
Qed.

Lemma empty_array_fatal_witness :
  executeFrameScript parseEmpty (cleanExit "[]") scenarioA
  = ([Error (units "Error: expected array of SVG strings, got object")], Exit 1).
Proof.
  apply (@empty_array_fatal parseEmpty alwaysResolves (cleanExit "[]") scenarioA);
    reflexivity.
Defined.

(** ** Drift detection and the cut *)

Lemma bind_ret {A B : Type} (a : A) (k : A -> M B) : bind (ret a) k = k a.
Proof. unfold bind, ret. destruct (k a). reflexivity. Qed.

Lemma bind_silent {A B : Type} (o : Outcome A) (k : A -> M B) :
  bind ([], o) k
  = match o with
    | Return a => k a
    | Exit code => ([], Exit code)
    | Throw => ([], Throw)
    | Hang => ([], Hang)
    end.
Proof. destruct o; try reflexivity. apply (bind_ret a k). Qed.

Lemma gridCells_ext (cell cell' : Z -> Z -> Image) (cols actualRows : Z) :
  (forall row col, cell row col = cell' row col) ->
  gridCells cell cols actualRows = gridCells cell' cols actualRows.
Proof.
  intros Hext. unfold gridCells. apply flat_map_ext. intros row.
  apply map_ext. intros col. apply Hext.
Qed.

Lemma gridCells_empty (cell : Z -> Z -> Image) (cols actualRows : Z) :
  cols <= 0 \/ actualRows <= 0 -> gridCells cell cols actualRows = [].
Proof.
  intros Hempty. apply length_zero_iff_nil. rewrite gridCells_length.
  destruct Hempty; nia.
Qed.

Lemma gridCells_map (f : Image -> Image) (cell : Z -> Z -> Image)
    (cols actualRows : Z) :
  gridCells (fun row col => f (cell row col)) cols actualRows
  = map f (gridCells cell cols actualRows).
Proof.
  unfold gridCells. generalize 0 at 2 4.
  induction (Z.to_nat actualRows) as [| k IH]; intros start; cbn [range flat_map map].
  - reflexivity.
  - rewrite map_app, map_map, IH. reflexivity.
Qed.

Lemma firstn_gridCells_length (cell : Z -> Z -> Image) (n cols actualRows : Z) :
  let frames := firstn (Z.to_nat n) (gridCells cell cols actualRows) in
  Z.of_nat (length frames) <= Z.max 0 n /\
  (0 <= n -> 0 <= cols -> n <= cols * actualRows ->
   Z.of_nat (length frames) = n).
Proof.
  intros frames. subst frames. rewrite length_firstn, gridCells_length.
  split; [lia |].
  intros Hn Hcols Hfit.
  assert (Hcells : (Z.to_nat n <= Z.to_nat actualRows * Z.to_nat cols)%nat) by nia.
  lia.
Qed.

(** With a column and a row at least, the region the code cuts is the one
    of whole-number arithmetic. *)
Lemma extractCell_cellRegion (opts : GenerateOpts) (imgW imgH z row col : Z) :
  0 < cols opts -> 0 < z ->
  extractCell opts imgW imgH z row col
  = cellRegion imgW imgH (cols opts) z row col.
Proof.
  intros Hcols Hz. unfold extractCell, cellRegion.
  rewrite insetX_formula, insetY_formula.
  rewrite (frameW_quotient opts imgW Hcols), (frameH_quotient imgH z Hz).
  cbv zeta. f_equal; lia.
Qed.

Lemma extractCellOfNoHeight_flatRegion (opts : GenerateOpts)
    (imgW imgH row col : Z) :
  0 < cols opts ->
  extractCellOfNoHeight opts imgW imgH row col
  = flatRegion imgW imgH (cols opts) row col.
Proof.
  intros Hcols. unfold extractCellOfNoHeight, flatRegion.
  rewrite insetX_formula, (frameW_quotient opts imgW Hcols).
  cbv zeta. f_equal; lia.
Qed.

Lemma gridCells_cut (opts : GenerateOpts) (imgW imgH z : Z) :
  gridCells (extractCell opts imgW imgH z) (cols opts) z
  = gridCells (cellRegion imgW imgH (cols opts) z) (cols opts) z.
Proof.
  destruct (Z_lt_ge_dec 0 (cols opts)) as [Hcols | Hcols];
    [destruct (Z_lt_ge_dec 0 z) as [Hz | Hz] |].
  - apply gridCells_ext. intros row col.
    apply extractCell_cellRegion; assumption.
  - rewrite !gridCells_empty by lia. reflexivity.
  - rewrite !gridCells_empty by lia. reflexivity.
Qed.



Lemma differ_Whole_false (a : Binary64.Integral) (z : Z) :
  Binary64.differ a (Binary64.Whole z) = false <-> a = Binary64.Whole z.
Proof.
  destruct a as [x | s |]; cbn; split; try discriminate.
  - intros H. apply negb_false_iff, Z.eqb_eq in H. rewrite H. reflexivity.
  - intros H. injection H as ->. rewrite Z.eqb_refl. reflexivity.
Qed.

Section DriftFacts.

Variable resolves : Image -> bool.
Variable opts : GenerateOpts.
Variables imgW imgH : Z.

Lemma sliceRows_whole (finish : Image -> Image) (z : Z) :
  sliceRows resolves opts imgW imgH finish (Binary64.Whole z)
  = ([], awaited resolves
           (map finish
              (firstn (Z.to_nat (numFrames opts))
                 (gridCells (cellRegion imgW imgH (cols opts) z)
                            (cols opts) z)))).
Proof.
  unfold sliceRows, settle. rewrite extractRows_reading_order.
  rewrite (gridCells_map finish), gridCells_cut, firstn_map. reflexivity.
Qed.

Lemma sliceRows_flat (finish : Image -> Image) :
  1 <= cols opts -> 1 <= numFrames opts ->
  sliceRows resolves opts imgW imgH finish (Binary64.Infinite false)
  = ([], awaited resolves
           (map finish
              (firstn (Z.to_nat (numFrames opts))
                 (gridCells (flatRegion imgW imgH (cols opts))
                            (cols opts) (numFrames opts))))).
Proof.
  intros Hcols Hn. unfold sliceRows, settle.
  destruct (Z.leb_spec (numFrames opts) 0) as [Hle | _]; [lia |].
  destruct (Z.leb_spec (cols opts) 0) as [Hle | _]; [lia |].
  rewrite extractRows_reading_order.
  rewrite (gridCells_map finish), firstn_map.
  rewrite (gridCells_ext (extractCellOfNoHeight opts imgW imgH)
                         (flatRegion imgW imgH (cols opts)));
    [reflexivity |].
  intros row col. apply extractCellOfNoHeight_flatRegion. lia.
Qed.


Lemma awaitTrims_spec (cells : list Image) :
  awaitTrims resolves cells
  = ([], if forallb resolves (map (fun raw => Trim raw 20) cells)
         then Return tt else Throw).
Proof.
  induction cells as [| raw rest IH]; cbn [awaitTrims map forallb];
    [reflexivity |].
  unfold toBuffer. destruct (resolves (Trim raw 20)); cbn [andb];
    [| reflexivity].
  cbn. rewrite IH. reflexivity.
Qed.

Lemma centerFrames_spec (maxTrimW maxTrimH outputW outputH : Z)
    (trimmed : list TrimmedCell) :
  forall frames,
  centerFrames resolves maxTrimW maxTrimH outputW outputH trimmed frames
  = ([], awaitedFor resolves
           (flat_map (fun frame => [compositeOf frame; frame])
              (map (fun t => Resize (centerFrame maxTrimW maxTrimH t)
                                    outputW outputH contain (Some white))
                   trimmed))
           (frames
            ++ map (fun t => Resize (centerFrame maxTrimW maxTrimH t)
                                    outputW outputH contain (Some white))
                   trimmed)).
Proof.
  induction trimmed as [| t rest IH]; intros frames;
    cbn [centerFrames map flat_map app].
  - unfold awaitedFor. cbn. rewrite app_nil_r. reflexivity.
  - unfold toBuffer, awaitedFor. cbn [compositeOf forallb].
    destruct (resolves (centerFrame maxTrimW maxTrimH t)); cbn [andb];
      [| reflexivity].
    rewrite bind_ret.
    destruct (resolves (Resize (centerFrame maxTrimW maxTrimH t)
                               outputW outputH contain (Some white)));
      cbn [andb]; [| reflexivity].
    rewrite bind_ret, IH. unfold awaitedFor. rewrite <- app_assoc.
    reflexivity.
Qed.

Lemma awaitedFor_app (first second frames : list Image) :
  awaitedFor resolves (first ++ second) frames
  = if forallb resolves first then awaitedFor resolves second frames else Throw.
Proof.
  unfold awaitedFor. rewrite forallb_app.
  destruct (forallb resolves first); reflexivity.
Qed.

Variable exponential : Z -> jsstring.

(** The rows used are the detected ones, with the warning when they are
    not the requested ones. *)
Lemma detectRows_spec :
  detectRows exponential opts imgW imgH
  = (if Binary64.differ (detectedRows opts imgW imgH)
                        (Binary64.Whole (rows opts))
     then [driftWarning exponential opts (detectedRows opts imgW imgH)]
     else [],
     Return (detectedRows opts imgW imgH)).
Proof.
  unfold detectRows.
  destruct (Binary64.differ (detectedRows opts imgW imgH)
                            (Binary64.Whole (rows opts))) eqn:Hd.
  - reflexivity.
  - apply differ_Whole_false in Hd. rewrite Hd. reflexivity.
Qed.

Lemma drift_output :
  console (detectRows exponential opts imgW imgH)
  = if Binary64.differ (detectedRows opts imgW imgH)
                       (Binary64.Whole (rows opts))
    then [driftWarning exponential opts (detectedRows opts imgW imgH)]
    else [].
Proof. rewrite detectRows_spec. reflexivity. Qed.

(** [generateGemini] prints what drift detection prints and ends as the
    cut for the detected rows ends. *)
Lemma generateGemini_spec (o : Outcome (list Image)) :
  sliceRows resolves opts imgW imgH
    (fun region => Resize region (outputW opts) (outputH opts) cover None)
    (detectedRows opts imgW imgH) = ([], o) ->
  generateGemini exponential resolves opts imgW imgH
  = (console (detectRows exponential opts imgW imgH), o).
Proof.
  intros Hcut. unfold generateGemini. rewrite detectRows_spec.
  unfold bind, console. cbn [fst]. rewrite Hcut, app_nil_r. reflexivity.
Qed.

Variable trimInfo : Image -> Z * Z.

(** The legacy variant after its raw cells: trims, composites and frames
    are awaited in that order. *)
Lemma legacy_after_cells (cells : list Image) :
  (awaitTrims resolves cells ;;
   let '(trimmed, maxTrimW, maxTrimH) := trimFrames trimInfo cells [] 0 0 in
   centerFrames resolves maxTrimW maxTrimH (outputW opts) (outputH opts)
     trimmed [])%js
  = ([], awaitedFor resolves
           (legacyPipelines trimInfo (outputW opts) (outputH opts) cells)
           (legacyFrames trimInfo (outputW opts) (outputH opts) cells)).
Proof.
  rewrite awaitTrims_spec, trimFrames_spec. cbn [app].
  unfold legacyPipelines, awaitedFor. rewrite forallb_app.
  destruct (forallb resolves (map (fun raw => Trim raw 20) cells));
    cbn [andb bind]; [| reflexivity].
  rewrite centerFrames_spec. unfold awaitedFor, legacyFrames, maxOf.
  rewrite !map_map. cbn [app]. reflexivity.
Qed.

(** The legacy variant prints the same and, when the raw cells are cut,
    goes on with their trims, composites and frames. *)
Lemma sliceLegacy_spec (cells : list Image) :
  sliceRows resolves opts imgW imgH (fun region => region)
    (detectedRows opts imgW imgH) = ([], awaited resolves cells) ->
  sliceLegacy trimInfo exponential resolves opts imgW imgH
  = (console (detectRows exponential opts imgW imgH),
     awaitedFor resolves
       (cells ++ legacyPipelines trimInfo (outputW opts) (outputH opts) cells)
       (legacyFrames trimInfo (outputW opts) (outputH opts) cells)).
Proof.
  intros Hcut. unfold sliceLegacy. rewrite detectRows_spec.
  unfold console. cbn [fst]. unfold bind at 1. rewrite Hcut, bind_silent.
  rewrite awaitedFor_app. unfold awaited, awaitedAfter. cbn [app].
  destruct (forallb resolves cells).
  - rewrite legacy_after_cells, app_nil_r. reflexivity.
  - rewrite app_nil_r. reflexivity.
Qed.


Lemma sliceLegacy_hang :
  sliceRows resolves opts imgW imgH (fun region => region)
    (detectedRows opts imgW imgH) = ([], Hang) ->
  sliceLegacy trimInfo exponential resolves opts imgW imgH
  = (console (detectRows exponential opts imgW imgH), Hang).
Proof.
  intros Hcut. unfold sliceLegacy. rewrite detectRows_spec.
  unfold console. cbn [fst]. unfold bind at 1. rewrite Hcut, bind_silent.
  rewrite app_nil_r. reflexivity.
Qed.

End DriftFacts.


(** The two loops either await the regions of the cut, in order, or are
    never left. *)
Lemma sliceRows_cutFor (resolves : Image -> bool) (opts : GenerateOpts)
    (imgW imgH : Z) (finish : Image -> Image)
    (actualRows : Binary64.Integral) :
  sliceRows resolves opts imgW imgH finish actualRows
  = ([], awaited resolves (map finish (cutFor opts imgW imgH actualRows)))
  \/ sliceRows resolves opts imgW imgH finish actualRows = ([], Hang).
Proof.
  destruct actualRows as [z | [|] |];
    try (left; unfold sliceRows, cutFor; rewrite firstn_nil; reflexivity).
  - left. apply sliceRows_whole.
  - destruct (Z_le_gt_dec (numFrames opts) 0) as [Hn | Hn].
    + left. unfold sliceRows, cutFor.
      destruct (Z.leb_spec (numFrames opts) 0); [| lia].
      replace (Z.to_nat (numFrames opts)) with O by lia. reflexivity.
    + destruct (Z_le_gt_dec (cols opts) 0) as [Hcols | Hcols].
      * right. unfold sliceRows, hang.
        destruct (Z.leb_spec (numFrames opts) 0); [lia |].
        destruct (Z.leb_spec (cols opts) 0); [reflexivity | lia].
      * left. apply sliceRows_flat; lia.
Qed.

Lemma cutFor_length (opts : GenerateOpts) (imgW imgH : Z)
    (actualRows : Binary64.Integral) :
  Z.of_nat (length (cutFor opts imgW imgH actualRows))
  <= Z.max 0 (numFrames opts).
Proof. unfold cutFor. rewrite length_firstn. lia. Qed.



(** A sheet of 1024 x 288 pixels planned as 5 columns of 16:9 frames: the
    quotient is 2.5 in exact arithmetic, [Math.round] of which is 3, but
    the doubles give a little less and 2 rows are detected. *)
Example rows_detected_in_doubles :
  detectedRows
    {| numFrames := 15; outputW := 128; outputH := 72; cols := 5; rows := 3;
       frameAR := Binary64.div (Binary64.number 16) (Binary64.number 9) |}
    1024 288
  = Binary64.Whole 2.
Proof. vm_compute. reflexivity. Qed.

(** Scenario A on a sheet of the planned shape. *)
Example scenarioA_frames :
  generateGemini String_of_Z alwaysResolves scenarioA 256 256
  = ([],
     Return
      [ Resize (Extract (ProviderImage 256 256) 4 4 120 120) 128 128 cover None;
        Resize (Extract (ProviderImage 256 256) 132 4 120 120) 128 128 cover None;
        Resize (Extract (ProviderImage 256 256) 4 132 120 120) 128 128 cover None;
        Resize (Extract (ProviderImage 256 256) 132 132 120 120) 128 128 cover None ]).
Proof. vm_compute. reflexivity. Qed.

(** A sheet one row taller than asked for: three rows are detected, and the
    cells are 128 pixels high, a third of the sheet. *)
Example extra_row_sheet :
  generateGemini String_of_Z alwaysResolves scenarioA 256 384
  = ([Log (units "Warning: detected 3 rows (expected 2), adjusting")],
     Return
      [ Resize (Extract (ProviderImage 256 384) 4 4 120 120) 128 128 cover None;
        Resize (Extract (ProviderImage 256 384) 132 4 120 120) 128 128 cover None;
        Resize (Extract (ProviderImage 256 384) 4 132 120 120) 128 128 cover None;
        Resize (Extract (ProviderImage 256 384) 132 132 120 120) 128 128 cover None ]).
Proof. vm_compute. reflexivity. Qed.

(** A frame aspect of [Infinity], from the aspect option [1:0]: the
    expected cell height is 0 and the detected row count is [Infinity].
    With the aspect option [0:0] the frame aspect and the detected row
    count are [NaN]. *)
Example rows_of_no_height :
  detectedRows
    {| numFrames := 4; outputW := 128; outputH := 128; cols := 2; rows := 2;
       frameAR := Binary64.div (Binary64.number 1) (Binary64.number 0) |}
    256 256
  = Binary64.Infinite false.
Proof. vm_compute. reflexivity. Qed.

Example rows_not_a_number :
  generateGemini String_of_Z alwaysResolves
    {| numFrames := 4; outputW := 128; outputH := 128; cols := 2; rows := 2;
       frameAR := Binary64.div (Binary64.number 0) (Binary64.number 0) |}
    256 256
  = ([Log (units "Warning: detected NaN rows (expected 2), adjusting")],
     Return []).
Proof. vm_compute. reflexivity. Qed.

(** ** The final frame sequence *)

(** The claim that every successful run ends with exactly the requested
    number of frames fails on both paths.  On the procedural path five
    frames come back when four were requested.  On the sprite-sheet path a
    sheet of 256 x 128 pixels, planned as two rows of two square frames,
    is detected as one row and gives two frames for the four requested. *)
Lemma requested_count_not_met :
  (exists out frames,
     generateClaude parseFive alwaysResolves (cleanExit "[...]") scenarioA
     = (out, Return frames) /\
     numFrames scenarioA = 4 /\
     length frames = 5%nat) /\
  (exists out frames,
     generateGemini String_of_Z alwaysResolves scenarioA 256 128
     = (out, Return frames) /\
     out = [Log (units "Warning: detected 1 rows (expected 2), adjusting")] /\
     numFrames scenarioA = 4 /\
     length frames = 2%nat).
Proof.
  split.
  - eexists. eexists. split; [vm_compute; reflexivity |].
    split; reflexivity.
  - eexists. eexists. split; [vm_compute; reflexivity |].
    split; [reflexivity |]. split; reflexivity.
Qed.

(** C1, amended.  Procedural path: a run that returns has as many frames
    as the script's array has elements, each the raster of the element at
    the same index.  Sprite-sheet path, both variants: a run that returns
    has at most [numFrames] frames, made from the regions of the cut in
    their order; for a detected row count [z] these are the first cells of
    the grid of [z] rows in reading order (rows top to bottom, columns left
    to right: frame [i] comes from row [i / cols], column [i mod cols]),
    exactly [numFrames] of them when that grid has at least as many cells.
    On every path each frame is [outputW] x [outputH].  The sprite-sheet
    runs do return when the detected row count is a whole number and
    [sharp] carries every pipeline out. *)
Theorem final_frame_sequence (JSON_parse : jsstring -> option JSON)
    (exponential : Z -> jsstring) (resolves : Image -> bool)
    (trimInfo : Image -> Z * Z) (proc : SpawnResult) (opts : GenerateOpts)
    (imgW imgH : Z) :
  let size := Some (outputW opts, outputH opts) in
  let d := detectedRows opts imgW imgH in
  let cut := fun z =>
    firstn (Z.to_nat (numFrames opts))
           (gridCells (cellRegion imgW imgH (cols opts) z) (cols opts) z) in
  (forall out frames,
     generateClaude JSON_parse resolves proc opts = (out, Return frames) ->
     exists svgs,
       JSON_parse (trim (stdout proc)) = Some (JArray svgs) /\
       frames = map (rasterized opts) svgs /\
       length frames = length svgs /\
       forall frame, In frame frames -> pixels frame = size) /\
  (forall out frames,
     generateGemini exponential resolves opts imgW imgH = (out, Return frames) ->
     frames = map (fun c => Resize c (outputW opts) (outputH opts) cover None)
                  (cutFor opts imgW imgH d) /\
     Z.of_nat (length frames) <= Z.max 0 (numFrames opts) /\
     forall frame, In frame frames -> pixels frame = size) /\
  (forall out frames,
     sliceLegacy trimInfo exponential resolves opts imgW imgH
     = (out, Return frames) ->
     (exists canvasW canvasH,
        frames = map (centered trimInfo canvasW canvasH
                        (outputW opts) (outputH opts))
                     (cutFor opts imgW imgH d)) /\
     Z.of_nat (length frames) <= Z.max 0 (numFrames opts) /\
     forall frame, In frame frames -> pixels frame = size) /\
  (forall z, d = Binary64.Whole z ->
     cutFor opts imgW imgH d = cut z /\
     (0 < cols opts ->
      forall i c, nth_error (cut z) i = Some c ->
        c = cellRegion imgW imgH (cols opts) z
              (Z.of_nat i / cols opts) (Z.of_nat i mod cols opts)) /\
     (0 <= numFrames opts -> 0 <= cols opts ->
      numFrames opts <= cols opts * z ->
      Z.of_nat (length (cut z)) = numFrames opts) /\
     ((forall img, resolves img = true) ->
      exists out frames legacy,
        generateGemini exponential resolves opts imgW imgH
        = (out, Return frames) /\
        sliceLegacy trimInfo exponential resolves opts imgW imgH
        = (out, Return legacy))).
Proof.
  intros size d cut.
  split; [| split; [| split]].
  - intros out frames Hrun.
    destruct (generateClaude_returns JSON_parse resolves proc opts out frames Hrun)
      as (svgs & Hexec & ->).
    destruct (executeFrameScript_returns JSON_parse proc opts out svgs Hexec)
      as (_ & Hparse & _).
    exists svgs. split; [exact Hparse |]. split; [reflexivity |].
    split; [apply length_map |].
    intros frame Hin. apply in_map_iff in Hin.
    destruct Hin as (svg & <- & _). reflexivity.
  - intros out frames Hrun.
    assert (Hframes : frames
                      = map (fun c => Resize c (outputW opts) (outputH opts)
                                             cover None)
                            (cutFor opts imgW imgH d)).
    { destruct (sliceRows_cutFor resolves opts imgW imgH
                  (fun c => Resize c (outputW opts) (outputH opts) cover None) d)
        as [Hcut | Hcut];
        rewrite (generateGemini_spec resolves opts imgW imgH exponential _ Hcut)
          in Hrun; [| discriminate].
      injection Hrun as _ Hawaited.
      apply awaited_returns in Hawaited. apply Hawaited. }
    split; [exact Hframes |]. rewrite Hframes.
    split; [rewrite length_map; apply cutFor_length |].
    intros frame Hin. apply in_map_iff in Hin.
    destruct Hin as (c & <- & _). reflexivity.
  - intros out frames Hrun.
    assert (Hframes : frames
                      = legacyFrames trimInfo (outputW opts) (outputH opts)
                          (cutFor opts imgW imgH d)).
    { destruct (sliceRows_cutFor resolves opts imgW imgH
                  (fun region => region) d) as [Hcut | Hcut].
      - rewrite map_id in Hcut.
        rewrite (sliceLegacy_spec resolves opts imgW imgH exponential trimInfo
                   _ Hcut) in Hrun.
        injection Hrun as _ Hawaited. unfold awaitedFor in Hawaited.
        destruct (forallb resolves _); [| discriminate].
        injection Hawaited as <-. reflexivity.
      - rewrite (sliceLegacy_hang resolves opts imgW imgH exponential trimInfo
                   Hcut) in Hrun.
        discriminate. }
    rewrite Hframes. unfold legacyFrames.
    split; [eexists; eexists; reflexivity |].
    split; [rewrite length_map; apply cutFor_length |].
    intros frame Hin. apply in_map_iff in Hin.
    destruct Hin as (c & <- & _). reflexivity.
  - intros z Hd.
    assert (Hcut : cutFor opts imgW imgH d = cut z) by (rewrite Hd; reflexivity).
    split; [exact Hcut |]. split; [| split].
    + intros Hcols i c Hnth. unfold cut in Hnth.
      rewrite nth_error_firstn in Hnth.
      destruct (Nat.ltb i (Z.to_nat (numFrames opts))); [| discriminate].
      apply (gridCells_nth _ _ _ _ _ Hcols Hnth).
    + apply firstn_gridCells_length.
    + intros Hall.
      assert (Hforall : forall l, forallb resolves l = true).
      { intros l. apply forallb_forall. intros img _. apply Hall. }
      eexists. eexists. eexists. split.
      * apply generateGemini_spec. fold d. rewrite Hd, sliceRows_whole.
        unfold awaited, awaitedAfter. rewrite Hforall. reflexivity.
      * rewrite (sliceLegacy_spec resolves opts imgW imgH exponential trimInfo
                   (cut z)).
        -- unfold awaitedFor. rewrite Hforall. reflexivity.
        -- fold d. rewrite Hd, sliceRows_whole, map_id. reflexivity.
Qed.

Lemma final_frame_sequence_witness :
  (0 <= numFrames scenarioA /\ 0 <= cols scenarioA /\
   numFrames scenarioA <= cols scenarioA * 2) /\
  Z.of_nat (length (firstn (Z.to_nat (numFrames scenarioA))
                      (gridCells (cellRegion 256 256 (cols scenarioA) 2)
                                 (cols scenarioA) 2)))
  = numFrames scenarioA.
Proof.
  split; [vm_compute; intuition discriminate |].
  destruct (final_frame_sequence parseFive String_of_Z alwaysResolves
              smallThenLarge (cleanExit "[...]") scenarioA 256 256)
    as (_ & _ & _ & Hwhole).
  destruct (Hwhole 2 ltac:(vm_compute; reflexivity)) as (_ & _ & Hexact & _).
  apply Hexact; vm_compute; discriminate.
Defined.

(* ================================================================= *)
(** * Part III: further properties of the code *)
(* ================================================================= *)

(** ** The planner and the slicer together *)

(** X1. A grid is never taller than wide. *)
Theorem gridLayout_wide (n : Z) :
  1 <= n ->
  1 <= Grid.rows (gridLayout n) <= Grid.cols (gridLayout n).
Proof.
  intros Hn.
  destruct (gridLayout_loop_spec n 2 n 1) as (Hmul & Hpos & Hbest & _);
    try lia.
  fold (gridLayout n) in Hmul, Hpos, Hbest.
  split; [exact Hpos |].
  destruct Hbest as [H1 | (H2 & Hsq & _)]; nia.
Qed.

Lemma gridLayout_wide_witness :
  1 <= 12 /\ 1 <= Grid.rows (gridLayout 12) <= Grid.cols (gridLayout 12).
Proof.
  split; [lia |]. apply (gridLayout_wide 12). lia.
Defined.

(** A count with no usable row count is a prime, and conversely. *)
Lemma no_rowCandidate_prime (n : Z) :
  2 <= n -> ((forall r, ~ rowCandidate n r) <-> Z.prime n).
Proof.
  intros Hn. unfold Z.prime, rowCandidate. split.
  - intros Hnone. split; [lia |]. intros d Hd [q Hq].
    assert (Hq1 : 1 < q < n) by nia.
    destruct (Z_le_gt_dec d q) as [Hle | Hgt].
    + apply (Hnone d). split; [lia | split; [nia | exists q; exact Hq]].
    + apply (Hnone q). split; [lia | split; [nia | exists d; lia]].
  - intros [_ Hprime] r (Hr & Hsq & Hdiv).
    apply (Hprime r); [nia | exact Hdiv].
Qed.

(** X2. Among the counts from 2 on, the sprite-sheet path refuses exactly
    the primes from 5 on; the procedural path refuses none, and what is
    not refused gets the planned grid without a line printed. *)
Theorem refused_counts_are_primes (n : Z) :
  2 <= n ->
  (snd (checkGrid gemini n) = Exit 1 <-> Z.prime n /\ 3 < n) /\
  (~ (Z.prime n /\ 3 < n) -> checkGrid gemini n = ([], Return (gridLayout n))) /\
  checkGrid claude n = ([], Return (gridLayout n)).
Proof.
  intros Hn.
  destruct (gridLayout_spec n ltac:(lia)) as (Hmul & Hsome & Hnone).
  assert (Htest : (Grid.rows (gridLayout n) =? 1) && (Grid.cols (gridLayout n) >? 3) = true
                  <-> Z.prime n /\ 3 < n).
  { rewrite andb_true_iff, Z.eqb_eq, Z.gtb_lt, <- (no_rowCandidate_prime n Hn).
    split.
    - intros [Hrows Hcols]. split; [| nia].
      intros r Hr. destruct (Hsome (ex_intro _ r Hr)) as [(Hrow & _) _]. lia.
    - intros [Hprime Hbig]. destruct (Hnone Hprime) as [Hcols Hrows]. lia. }
  unfold checkGrid. cbn [Provider_eqb andb].
  destruct ((Grid.rows (gridLayout n) =? 1) && (Grid.cols (gridLayout n) >? 3)) eqn:Hrun.
  - split; [| split; [| reflexivity]].
    + split; [intros _; apply Htest; reflexivity | intros _; reflexivity].
    + intros Hnot. exfalso. apply Hnot, Htest. reflexivity.
  - split; [| split; reflexivity].
    split; [discriminate |]. intros Hp. apply Htest in Hp. discriminate.
Qed.

Lemma refused_counts_are_primes_witness :
  2 <= 12 /\ checkGrid gemini 12 = ([], Return (gridLayout 12)).
Proof.
  split; [lia |].
  apply (proj1 (proj2 (refused_counts_are_primes 12 ltac:(lia)))).
  intros [[_ Hprime] _].
  apply (Hprime 2); [lia | exists 6; reflexivity].
Defined.

(** X3. When the sheet has the rows that were planned, nothing is printed
    and every cell of the planned grid is cut and resized, in reading
    order; there are exactly [numFrames] of them.  The run returns them
    all when [sharp] carries every one out, and ends with the exception of
    the first it refuses otherwise. *)
Theorem planned_grid_fully_used (exponential : Z -> jsstring)
    (resolves : Image -> bool) (n outW outH imgW imgH : Z)
    (frameAR : spec_float) :
  let opts := mainOpts n outW outH frameAR in
  let cells :=
    gridCells
      (fun row col =>
         Resize (cellRegion imgW imgH (cols opts) (rows opts) row col)
                outW outH cover None)
      (cols opts) (rows opts) in
  1 <= n ->
  detectedRows opts imgW imgH = Binary64.Whole (rows opts) ->
  Z.of_nat (length cells) = n /\
  generateGemini exponential resolves opts imgW imgH
  = ([], if forallb resolves cells then Return cells else Throw).
Proof.
  intros opts cells Hn Hd.
  destruct (gridLayout_loop_spec n 2 n 1) as (Hmul & Hrows & _); try lia.
  fold (gridLayout n) in Hmul, Hrows.
  assert (Hlen : length cells = Z.to_nat n).
  { unfold cells. rewrite gridCells_length. cbn [opts mainOpts cols rows]. nia. }
  split; [lia |].
  rewrite (generateGemini_spec resolves opts imgW imgH exponential
             (awaited resolves cells)).
  - rewrite drift_output, Hd. cbn [Binary64.differ]. rewrite Z.eqb_refl.
    reflexivity.
  - rewrite Hd, sliceRows_whole. rewrite <- firstn_map, <- gridCells_map.
    change (outputW opts) with outW.
    change (outputH opts) with outH.
    change (numFrames opts) with n.
    fold cells. rewrite <- Hlen, firstn_all. reflexivity.
Qed.

Lemma planned_grid_fully_used_witness :
  (1 <= 4 /\
   detectedRows (mainOpts 4 128 128 (Binary64.number 1)) 256 256
   = Binary64.Whole (rows (mainOpts 4 128 128 (Binary64.number 1)))) /\
  generateGemini String_of_Z alwaysResolves
    (mainOpts 4 128 128 (Binary64.number 1)) 256 256
  = ([],
     Return
      [ Resize (Extract (ProviderImage 256 256) 4 4 120 120) 128 128 cover None;
        Resize (Extract (ProviderImage 256 256) 132 4 120 120) 128 128 cover None;
        Resize (Extract (ProviderImage 256 256) 4 132 120 120) 128 128 cover None;
        Resize (Extract (ProviderImage 256 256) 132 132 120 120) 128 128 cover None ]).
Proof.
  split; [split; [lia | vm_compute; reflexivity] |].
  destruct (planned_grid_fully_used String_of_Z alwaysResolves
              4 128 128 256 256 (Binary64.number 1)
              ltac:(lia) ltac:(vm_compute; reflexivity))
    as (_ & Hrun).
  exact Hrun.
Defined.

(** On a sheet of 4 x 4 pixels the cells are 2 pixels wide and high, the
    inset takes 1 pixel on each side and nothing is left: the regions have
    no width and no height. *)
Example planned_grid_without_room :
  cellRegion 4 4 2 2 0 0 = Extract (ProviderImage 4 4) 1 1 0 0.
Proof. vm_compute. reflexivity. Qed.

(** X4. Regions cut for two different cells of the grid share no pixel. *)
Theorem extracted_cells_disjoint (opts : GenerateOpts)
    (imgW imgH actualRows row col row' col' x y : Z) :
  1 <= cols opts -> 1 <= actualRows -> 0 <= imgW -> 0 <= imgH ->
  0 <= col < cols opts -> 0 <= col' < cols opts ->
  0 <= row < actualRows -> 0 <= row' < actualRows ->
  (row, col) <> (row', col') ->
  covers (extractCell opts imgW imgH actualRows row col) x y ->
  ~ covers (extractCell opts imgW imgH actualRows row' col') x y.
Proof.
  intros Hcols Hrows HW HH Hcol Hcol' Hrow Hrow' Hne.
  unfold extractCell, covers.
  pose proof (frameW_quotient opts imgW ltac:(lia)) as HfW.
  pose proof (frameH_quotient imgH actualRows ltac:(lia)) as HfH.
  assert (HfW0 : 0 <= frameW opts imgW) by (rewrite HfW; apply Z.div_pos; lia).
  assert (HfH0 : 0 <= frameH imgH actualRows) by (rewrite HfH; apply Z.div_pos; lia).
  assert (HiX : 1 <= insetX opts imgW) by (unfold insetX; lia).
  assert (HiY : 1 <= insetY imgH actualRows) by (unfold insetY; lia).
  intros (Hx & Hy) (Hx' & Hy').
  destruct (Z.eq_dec col col') as [Hc | Hc].
  - destruct (Z.eq_dec row row') as [Hr | Hr]; [subst; congruence |].
    nia.
  - nia.
Qed.

Lemma extracted_cells_disjoint_witness :
  covers (extractCell scenarioA 256 256 2 0 0) 123 123 /\
  ~ covers (extractCell scenarioA 256 256 2 0 1) 123 123.
Proof.
  assert (Hin : covers (extractCell scenarioA 256 256 2 0 0) 123 123)
    by (vm_compute; intuition discriminate).
  split; [exact Hin |].
  apply (extracted_cells_disjoint scenarioA 256 256 2 0 0 0 1 123 123);
    try (vm_compute; intuition discriminate); try exact Hin.
Defined.

(** ** Outcomes of the frame script *)

Lemma checkFrames_fatal (svgs : list JSON) :
  forall start out code,
  checkFrames start svgs = (out, Exit code) ->
  code = 1 /\ exists text, out = [Error text].
Proof.
  induction svgs as [| x rest IH]; intros start out code Hrun;
    cbn [checkFrames] in Hrun.
  - discriminate.
  - destruct (notSvgString x).
    + cbn in Hrun. injection Hrun as <- <-. split; [reflexivity |].
      eexists. reflexivity.
    + exact (IH _ _ _ Hrun).
Qed.

(** The validation loop throws nothing and always ends. *)
Lemma checkFrames_settles (svgs : list JSON) :
  forall start,
  snd (checkFrames start svgs) <> Throw /\ snd (checkFrames start svgs) <> Hang.
Proof.
  induction svgs as [| x rest IH]; intros start; cbn [checkFrames].
  - split; discriminate.
  - destruct (notSvgString x); [split; discriminate |].
    apply IH.
Qed.

(** X5. Whatever the child process did, [executeFrameScript] either returns
    the parsed array or prints an error as its last line and exits with
    status 1; and it returns exactly when the child exited with 0 and its
    trimmed output parsed to a non-empty array of SVG strings. *)
Theorem executeFrameScript_outcomes (JSON_parse : jsstring -> option JSON)
    (proc : SpawnResult) (opts : GenerateOpts) :
  let run := executeFrameScript JSON_parse proc opts in
  ((exists svgs, snd run = Return svgs) \/ fatal run) /\
  (forall svgs,
     snd run = Return svgs <->
     exitCode proc = Some 0 /\
     JSON_parse (trim (stdout proc)) = Some (JArray svgs) /\
     svgs <> [] /\
     (forall v, In v svgs -> isSvgString v)).
Proof.
  intros run. split.
  - unfold run, executeFrameScript, fatal.
    destruct (exitCode proc) as [[| c | c] |];
      try (right; cbn; split; [reflexivity | eexists [_]; eexists; reflexivity]).
    destruct (JSON_parse (trim (stdout proc))) as [[| b | x | s | xs | ms] |];
      try (right; cbn; split; [reflexivity | eexists []; eexists; reflexivity]).
    destruct (Z.of_nat (length xs) =? 0);
      [right; cbn; split; [reflexivity | eexists []; eexists; reflexivity] |].
    destruct (checkFrames_settles xs 0) as (Hthrow & Hhang).
    destruct (checkFrames 0 xs) as [chk [[] | code | |]] eqn:Hchk;
      [| | exfalso; apply Hthrow; reflexivity
         | exfalso; apply Hhang; reflexivity].
    + left. exists xs.
      destruct (negb (Z.of_nat (length xs) =? numFrames opts)); reflexivity.
    + right. destruct (checkFrames_fatal xs 0 chk code Hchk) as (-> & text & ->).
      destruct (negb (Z.of_nat (length xs) =? numFrames opts)); cbn;
        (split; [reflexivity |]).
      * eexists [_]. eexists. reflexivity.
      * eexists []. eexists. reflexivity.
  - intros svgs. split.
    + intros Hret. destruct run as [out r] eqn:Hrun. cbn in Hret. subst r.
      destruct (executeFrameScript_returns JSON_parse proc opts out svgs Hrun)
        as (H1 & H2 & H3 & H4 & _).
      repeat split; assumption.
    + intros (H1 & H2 & H3 & H4). unfold run.
      rewrite (executeFrameScript_valid JSON_parse proc opts svgs H1 H2 H3 H4).
      reflexivity.
Qed.

(** A child killed by the timeout reports no exit code: the run is fatal
    and says [exit null]. *)
Example killed_child_is_fatal :
  executeFrameScript parseFive
    {| exitCode := None; stdout := []; stderr := units "timed out" |} scenarioA
  = ([Error (units "Error: generated code failed (exit null):");
      Error (units "timed out")], Exit 1).
Proof. vm_compute. reflexivity. Qed.

(** ** Centring in the reconciler *)



(** ** Frame files *)

Lemma units_injective (s t : string) : units s = units t -> s = t.
Proof.
  unfold units. intros H.
  rewrite <- (string_of_list_ascii_of_string s),
          <- (string_of_list_ascii_of_string t).
  f_equal. revert H.
  generalize (list_ascii_of_string s) (list_ascii_of_string t).
  induction l as [| a l IH]; intros [| b l'] H; try discriminate; [reflexivity |].
  cbn [map] in H. injection H as Hab Hl. f_equal.
  - rewrite <- (ascii_N_embedding a), <- (ascii_N_embedding b), Hab. reflexivity.
  - apply IH. exact Hl.
Qed.

(** Different integers print differently. *)
Lemma String_of_Z_injective (a b : Z) : String_of_Z a = String_of_Z b -> a = b.
Proof.
  unfold String_of_Z. intros H. apply units_injective in H.
  assert (Hint : forall z, NilZero.int_of_string (NilZero.string_of_int (Z.to_int z))
                           = Some (Z.to_int z)).
  { intros z. apply NilZero.isi; destruct z; cbn; try discriminate;
      intros [= Hnil]; exact (DecimalPos.Unsigned.to_uint_nonnil _ Hnil). }
  pose proof (Hint a) as Ha. rewrite H, Hint in Ha. injection Ha as Ha.
  rewrite <- (DecimalZ.of_to a), <- (DecimalZ.of_to b), Ha. reflexivity.
Qed.



(** ** Aspect negotiation on a supported ratio *)

Section AspectExactFacts.

Import Aspect.
Local Open Scope R_scope.





End AspectExactFacts.

(** ** Slices and searches *)

Lemma slice_prefix (s : jsstring) (n : Z) :
  0 <= n <= Z.of_nat (length s) -> slice s 0 n = firstn (Z.to_nat n) s.
Proof.
  intros Hn. unfold slice, clampIndex.
  destruct (Z.ltb_spec n 0) as [Hneg | _]; [lia |].
  cbn [Z.ltb Z.compare]. rewrite Z.min_l, Z.min_l by lia.
  cbn [Z.to_nat skipn]. rewrite Z.sub_0_r. reflexivity.
Qed.

Lemma slice_window (s : jsstring) (from to : Z) :
  0 <= from <= to ->
  slice s from to = firstn (Z.to_nat (to - from)) (skipn (Z.to_nat from) s).
Proof.
  intros H. unfold slice, clampIndex.
  destruct (Z.ltb_spec from 0) as [Hneg | _]; [lia |].
  destruct (Z.ltb_spec to 0) as [Hneg | _]; [lia |].
  set (len := Z.of_nat (length s)).
  destruct (Z_le_gt_dec to len) as [Hto | Hto].
  - rewrite !Z.min_l by lia. reflexivity.
  - rewrite (Z.min_r to) by lia.
    destruct (Z_le_gt_dec from len) as [Hfrom | Hfrom].
    + rewrite Z.min_l by lia.
      rewrite !firstn_all2; [reflexivity | |]; rewrite length_skipn; lia.
    + rewrite Z.min_r by lia.
      rewrite !skipn_all2 by lia. rewrite !firstn_nil. reflexivity.
Qed.

Lemma sliceFrom_suffix (s : jsstring) (n : Z) :
  0 <= n -> sliceFrom s n = skipn (Z.to_nat n) s.
Proof.
  intros Hn. unfold sliceFrom.
  destruct (Z_le_gt_dec n (Z.of_nat (length s))) as [Hle | Hgt].
  - rewrite slice_window by lia. apply firstn_all2. rewrite length_skipn. lia.
  - unfold slice, clampIndex.
    destruct (Z.ltb_spec n 0) as [Hneg | _]; [lia |].
    destruct (Z.ltb_spec (Z.of_nat (length s)) 0) as [Hneg | _]; [lia |].
    rewrite !Z.min_r by lia.
    rewrite Z.sub_diag. cbn [Z.to_nat firstn].
    rewrite skipn_all2 by lia. reflexivity.
Qed.

Lemma startsWith_nil (s : jsstring) : startsWith s [] = true.
Proof. destruct s; reflexivity. Qed.

Lemma startsWith_unit (c b : N) (s : jsstring) :
  startsWith (b :: s) [c] = (b =? c)%N.
Proof. cbn [startsWith]. rewrite startsWith_nil. apply andb_true_r. Qed.

Lemma indexOf_from_unit_found (c : N) (before after : jsstring) :
  ~ In c before ->
  forall i, indexOf_from [c] (before ++ c :: after) i = i + Z.of_nat (length before).
Proof.
  induction before as [| b before IH]; intros Hnot i.
  - cbn [app indexOf_from length]. rewrite startsWith_unit, N.eqb_refl. lia.
  - cbn [app indexOf_from]. rewrite startsWith_unit.
    destruct (N.eqb_spec b c) as [-> | Hne]; [exfalso; apply Hnot; left; reflexivity |].
    rewrite IH by (intros Hin; apply Hnot; right; exact Hin).
    cbn [length]. lia.
Qed.

Lemma indexOf_from_unit_missing (c : N) (s : jsstring) :
  ~ In c s -> forall i, indexOf_from [c] s i = -1.
Proof.
  induction s as [| b s IH]; intros Hnot i; [reflexivity |].
  cbn [indexOf_from]. rewrite startsWith_unit.
  destruct (N.eqb_spec b c) as [-> | Hne]; [exfalso; apply Hnot; left; reflexivity |].
  apply IH. intros Hin; apply Hnot; right; exact Hin.
Qed.

Lemma first_occurrence (c : N) (s : jsstring) :
  In c s -> exists before after, s = before ++ c :: after /\ ~ In c before.
Proof.
  induction s as [| b s IH]; intros Hin; [destruct Hin |].
  destruct (N.eq_dec b c) as [-> | Hne].
  - exists [], s. split; [reflexivity | intros []].
  - destruct Hin as [Heq | Hin]; [contradiction |].
    destruct (IH Hin) as (before & after & -> & Hnot).
    exists (b :: before), after. split; [reflexivity |].
    intros [Heq | Hb]; [contradiction | exact (Hnot Hb)].
Qed.

(** ** Provider and model *)

(** X9. The model option is cut at its first slash: what precedes it is the
    provider (and has no slash), what follows it is the model name, and
    the two put back around a slash give the option again.  Without a
    slash the provider is [gemini] and the whole option is the model. *)
Theorem parseModel_first_slash (modelStr : jsstring) :
  let provider := fst (parseModel modelStr) in
  let modelName := snd (parseModel modelStr) in
  (In 47%N modelStr ->
   modelStr = provider ++ units "/" ++ modelName /\ ~ In 47%N provider) /\
  (~ In 47%N modelStr ->
   provider = units "gemini" /\ modelName = modelStr) /\
  (forall p m, ~ In 47%N p -> parseModel (p ++ units "/" ++ m) = (p, m)).
Proof.
  assert (Hround : forall p m, ~ In 47%N p -> parseModel (p ++ units "/" ++ m) = (p, m)).
  { intros p m Hp. unfold parseModel, indexOf.
    change (units "/") with [47%N]. cbn [app].
    rewrite (indexOf_from_unit_found 47 p m Hp). cbn [Z.add].
    destruct (Z.eqb_spec (Z.of_nat (length p)) (-1)) as [Hneg | _]; [lia |].
    cbn [negb]. f_equal.
    - rewrite slice_prefix by (rewrite length_app; cbn [length]; lia).
      rewrite Nat2Z.id, firstn_app, firstn_all, Nat.sub_diag.
      cbn [firstn]. apply app_nil_r.
    - rewrite sliceFrom_suffix by lia.
      replace (Z.to_nat (Z.of_nat (length p) + 1)) with (length p + 1)%nat by lia.
      rewrite skipn_app. rewrite skipn_all2 by lia.
      replace (length p + 1 - length p)%nat with 1%nat by lia. reflexivity. }
  intros provider modelName. split; [| split; [| exact Hround]].
  - intros Hin. destruct (first_occurrence 47 modelStr Hin) as (p & m & Heq & Hp).
    subst provider modelName. rewrite Heq.
    change (p ++ 47%N :: m) with (p ++ units "/" ++ m).
    rewrite (Hround p m Hp). cbn [fst snd]. split; [reflexivity | exact Hp].
  - intros Hnot. subst provider modelName. unfold parseModel, indexOf.
    change (units "/") with [47%N].
    rewrite (indexOf_from_unit_missing 47 modelStr Hnot). cbn. split; reflexivity.
Qed.

Example parseModel_default :
  parseModel (units "claude/claude-sonnet-4-6")
  = (units "claude", units "claude-sonnet-4-6").
Proof. vm_compute. reflexivity. Qed.

Example parseModel_second_slash :
  parseModel (units "gemini/models/flash") = (units "gemini", units "models/flash").
Proof. vm_compute. reflexivity. Qed.

Lemma parseModel_first_slash_witness :
  In 47%N (units "gemini/models/flash") /\
  units "gemini/models/flash"
  = fst (parseModel (units "gemini/models/flash")) ++ units "/"
    ++ snd (parseModel (units "gemini/models/flash")).
Proof.
  assert (Hin : In 47%N (units "gemini/models/flash")).
  { vm_compute. do 6 right. left. reflexivity. }
  split; [exact Hin |].
  exact (proj1 (proj1 (parseModel_first_slash (units "gemini/models/flash")) Hin)).
Defined.

(** ** Inline display *)

Lemma kittyCommand_escape (i : Z) (isLast : bool) (chunk : jsstring) :
  kittyCommand i isLast chunk = escapeFor (i =? 0) (negb isLast) chunk.
Proof.
  unfold kittyCommand, escapeFor. destruct (i =? 0), isLast; reflexivity.
Qed.

Lemma wellChunked_concat_nil (chunks : list jsstring) :
  wellChunked chunks -> concat chunks = [] -> chunks = [].
Proof.
  destruct chunks as [| chunk rest]; [reflexivity |].
  intros Hwell Hnil. exfalso.
  cbn [concat] in Hnil. apply app_eq_nil in Hnil. destruct Hnil as [Hchunk _].
  subst chunk.
  destruct rest; cbn [wellChunked length] in Hwell; lia.
Qed.

Lemma kittyLoop_chunks (b64 : jsstring) (i : Z) :
  0 <= i ->
  exists chunks,
    concat chunks = skipn (Z.to_nat i) b64 /\
    wellChunked chunks /\
    kittyLoop b64 i = commandsOf (i =? 0) chunks.
Proof.
  funelim (kittyLoop b64 i); intros Hi.
  - destruct H as (rest & Hconcat & Hwell & Hloop); [unfold CHUNK_SIZE; lia |].
    cbn zeta. rewrite Hloop.
    assert (Hchunk : slice b64 i (i + CHUNK_SIZE)
                     = firstn (Z.to_nat CHUNK_SIZE) (skipn (Z.to_nat i) b64)).
    { rewrite slice_window by (unfold CHUNK_SIZE; lia).
      f_equal. f_equal. lia. }
    assert (Hsplit : slice b64 i (i + CHUNK_SIZE) ++ skipn (Z.to_nat (i + CHUNK_SIZE)) b64
                     = skipn (Z.to_nat i) b64).
    { rewrite Hchunk.
      replace (Z.to_nat (i + CHUNK_SIZE)) with (Z.to_nat CHUNK_SIZE + Z.to_nat i)%nat
        by (unfold CHUNK_SIZE; lia).
      rewrite <- skipn_skipn. apply firstn_skipn. }
    assert (Hlen : Z.of_nat (length (slice b64 i (i + CHUNK_SIZE)))
                   = Z.min CHUNK_SIZE (Z.of_nat (length b64) - i)).
    { rewrite Hchunk, length_firstn, length_skipn. unfold CHUNK_SIZE. lia. }
    assert (Hnext : (i + CHUNK_SIZE =? 0) = false)
      by (apply Z.eqb_neq; unfold CHUNK_SIZE; lia).
    rewrite Hnext in Hloop |- *.
    exists (slice b64 i (i + CHUNK_SIZE) :: rest).
    split; [cbn [concat]; rewrite Hconcat; exact Hsplit |].
    destruct (Z.leb_spec (Z.of_nat (length b64)) (i + CHUNK_SIZE)) as [Hlast | Hmore].
    + assert (Hrest : rest = []).
      { apply wellChunked_concat_nil; [exact Hwell |].
        rewrite Hconcat. apply skipn_all2. lia. }
      subst rest. split.
      * cbn [wellChunked]. rewrite Hlen. unfold CHUNK_SIZE in *. lia.
      * cbn [commandsOf]. rewrite kittyCommand_escape. reflexivity.
    + destruct rest as [| next rest].
      * exfalso. cbn [concat] in Hconcat.
        assert (Hzero : length (skipn (Z.to_nat (i + CHUNK_SIZE)) b64) = 0%nat)
          by (rewrite <- Hconcat; reflexivity).
        rewrite length_skipn in Hzero. lia.
      * split.
        -- split; [rewrite Hlen; unfold CHUNK_SIZE in *; lia | exact Hwell].
        -- cbn [commandsOf]. rewrite kittyCommand_escape. reflexivity.
  - exists []. split; [| split; [exact I | reflexivity]].
    cbn [concat]. symmetry. apply skipn_all2. lia.
Qed.

(** X10. What the [ghostty] branch writes: the base64 text cut into
    consecutive chunks of 4096 characters, the last one of at least one
    and at most 4096; for each chunk, in order, the escape sequence
    [ESC _G keys ; chunk ESC \], the keys being [a=T,f=100,m=1] on the
    first chunk and [m=1] on the others, with [m=0] in place of [m=1] on
    the last; then a line feed.  An empty text gives the line feed
    alone. *)
Theorem kitty_chunks_cover_payload (b64 : jsstring) :
  exists chunks,
    concat chunks = b64 /\
    wellChunked chunks /\
    kittyWrites b64 = commandsOf true chunks ++ [[10%N]].
Proof.
  destruct (kittyLoop_chunks b64 0) as (chunks & Hconcat & Hwell & Hloop); [lia |].
  exists chunks. split; [exact Hconcat | split; [exact Hwell |]].
  unfold kittyWrites. rewrite Hloop. reflexivity.
Qed.

(** A text of 4097 characters goes out as a full chunk and a chunk of one
    character. *)
Example kitty_two_chunks :
  kittyWrites (repeat 65%N 4097)
  = [ [27%N] ++ units "_Ga=T,f=100,m=1;" ++ repeat 65%N 4096 ++ [27%N; 92%N];
      [27%N] ++ units "_Gm=0;" ++ [65%N] ++ [27%N; 92%N];
      [10%N] ].
Proof. vm_compute. reflexivity. Qed.

Example kitty_one_chunk :
  kittyWrites (units "iVBORw0KGgo=")
  = [ [27%N] ++ units "_Ga=T,f=100,m=0;iVBORw0KGgo=" ++ [27%N; 92%N];
      [10%N] ].
Proof. vm_compute. reflexivity. Qed.

(** ** Integers as doubles *)

Lemma digits2_pos_size (p : positive) : digits2_pos p = Pos.size p.
Proof. induction p as [p IH | p IH |]; cbn; rewrite ?IH; reflexivity. Qed.

(** A positive number of [d] binary digits lies between [2 ^ (d - 1)] and
    [2 ^ d]. *)
Lemma digits2_pos_bounds (p : positive) :
  2 ^ (Z.pos (digits2_pos p) - 1) <= Z.pos p < 2 ^ Z.pos (digits2_pos p).
Proof.
  rewrite digits2_pos_size.
  pose proof (Pos.size_gt p) as Hgt. pose proof (Pos.size_le p) as Hle.
  apply Pos2Z.pos_lt_pos in Hgt. apply Pos2Z.pos_le_pos in Hle.
  rewrite Pos2Z.inj_pow in Hgt, Hle.
  change (Z.pos p~0) with (2 * Z.pos p) in Hle.
  replace (Z.pos (Pos.size p)) with (Z.succ (Z.pos (Pos.size p) - 1)) in Hle by lia.
  rewrite Z.pow_succ_r in Hle by lia. lia.
Qed.

Lemma digits2_pos_shift (p k : positive) :
  digits2_pos (Pos.iter xO p k) = (digits2_pos p + k)%positive.
Proof.
  induction k as [| k IH] using Pos.peano_ind.
  - cbn. lia.
  - rewrite Pos.iter_succ. cbn [digits2_pos]. rewrite IH. lia.
Qed.

Lemma shift_value (p k : positive) :
  Z.pos (Pos.iter xO p k) = Z.pos p * 2 ^ Z.pos k.
Proof.
  induction k as [| k IH] using Pos.peano_ind.
  - cbn. lia.
  - rewrite Pos.iter_succ, Pos2Z.inj_succ, Z.pow_succ_r by lia.
    change (Z.pos (Pos.iter xO p k)~0) with (2 * Z.pos (Pos.iter xO p k)).
    rewrite IH. lia.
Qed.

(** [shr_1] halves, and [iter_pos shr_1] halves as many times as it is
    told. *)
Lemma shr_1_m (mrs : shr_record) :
  0 <= shr_m mrs -> shr_m (shr_1 mrs) = shr_m mrs / 2.
Proof.
  destruct mrs as [m r s]. cbn [shr_m]. intros Hm.
  destruct m as [| [p | p |] | p]; cbn [shr_1 shr_m]; try lia.
Qed.

Lemma pow_xI (k : positive) : 2 ^ Z.pos k~1 = 2 * (2 ^ Z.pos k * 2 ^ Z.pos k).
Proof.
  rewrite (Pos2Z.inj_xI k).
  replace (2 * Z.pos k + 1) with (1 + (Z.pos k + Z.pos k)) by lia.
  rewrite !Z.pow_add_r by lia. reflexivity.
Qed.

Lemma pow_xO (k : positive) : 2 ^ Z.pos k~0 = 2 ^ Z.pos k * 2 ^ Z.pos k.
Proof.
  rewrite (Pos2Z.inj_xO k).
  replace (2 * Z.pos k) with (Z.pos k + Z.pos k) by lia.
  rewrite Z.pow_add_r by lia. reflexivity.
Qed.

Lemma iter_shr_1_m (k : positive) :
  forall mrs, 0 <= shr_m mrs ->
  shr_m (iter_pos shr_1 k mrs) = shr_m mrs / 2 ^ Z.pos k.
Proof.
  induction k as [k IH | k IH |]; intros mrs Hm; cbn [iter_pos].
  - assert (H1 : 0 <= shr_m (shr_1 mrs)) by (rewrite shr_1_m by exact Hm; lia).
    assert (H2 : 0 <= shr_m (iter_pos shr_1 k (shr_1 mrs)))
      by (rewrite IH by exact H1; apply Z.div_pos; lia).
    rewrite IH by exact H2. rewrite IH by exact H1. rewrite shr_1_m by exact Hm.
    rewrite !Z.div_div by lia. rewrite pow_xI. reflexivity.
  - assert (H1 : 0 <= shr_m (iter_pos shr_1 k mrs))
      by (rewrite IH by exact Hm; apply Z.div_pos; lia).
    rewrite IH by exact H1. rewrite IH by exact Hm.
    rewrite Z.div_div by lia. rewrite pow_xO. reflexivity.
  - rewrite shr_1_m by exact Hm. reflexivity.
Qed.

(** Rounding to nearest does not go below the truncated mantissa, and
    at most one above it. *)
Lemma round_nearest_even_bounds (m : Z) (l : location) :
  m <= round_nearest_even m l <= m + 1.
Proof.
  destruct l as [| [| |]]; cbn [round_nearest_even]; try lia.
  destruct (Z.even m); lia.
Qed.

Section IntegerToDouble.

Import Binary64.

(** A mantissa of 53 digits with an exponent in range is kept as it is. *)
Lemma binary_round_aux_kept (sx : bool) (m : positive) (e : Z) :
  digits2_pos m = 53%positive -> -1074 <= e <= 971 ->
  binary_round_aux prec emax sx (Z.pos m) e loc_Exact = S754_finite sx m e.
Proof.
  intros Hd He. unfold binary_round_aux, shr_fexp, fexp, emin, prec, emax.
  cbn [Zdigits2 shr_record_of_loc]. rewrite Hd.
  replace (Z.max (53 + e - 53) (3 - 1024 - 53) - e) with 0 by lia.
  cbn [shr shr_m loc_of_shr_record round_nearest_even Zdigits2 shr_record_of_loc].
  rewrite Hd.
  replace (Z.max (53 + e - 53) (3 - 1024 - 53) - e) with 0 by lia.
  cbn [shr shr_m].
  destruct (Z.leb_spec e (1024 - 53)); [reflexivity | lia].
Qed.

(** An integer below [2 ^ 53] is a double: its mantissa is the integer
    shifted to 53 digits. *)
Lemma binary_round_small (sx : bool) (p : positive) :
  Z.pos p < 2 ^ 53 ->
  exists m e,
    binary_round prec emax sx p 0 = S754_finite sx m e /\
    -52 <= e <= 0 /\ Z.pos m = Z.pos p * 2 ^ (- e).
Proof.
  intros Hp. pose proof (digits2_pos_bounds p) as Hd.
  assert (Hdigits : Z.pos (digits2_pos p) <= 53).
  { destruct (Z_le_gt_dec (Z.pos (digits2_pos p)) 53) as [H | H]; [exact H |].
    exfalso.
    assert (2 ^ 53 <= 2 ^ (Z.pos (digits2_pos p) - 1))
      by (apply Z.pow_le_mono_r; lia).
    lia. }
  unfold binary_round, shl_align, fexp, emin, prec, emax.
  replace (Z.max (Z.pos (digits2_pos p) + 0 - 53) (3 - 1024 - 53) - 0)
    with (Z.pos (digits2_pos p) - 53) by lia.
  destruct (Z.pos (digits2_pos p) - 53) as [| k | k] eqn:Hk; [| lia |].
  - exists p, 0. split; [| split; [lia | cbn; lia]].
    replace (Z.max (Z.pos (digits2_pos p) + 0 - 53) (3 - 1024 - 53)) with 0 by lia.
    apply binary_round_aux_kept; [lia | lia].
  - exists (Pos.iter xO p k), (Z.neg k).
    replace (Z.max (Z.pos (digits2_pos p) + 0 - 53) (3 - 1024 - 53))
      with (Z.neg k) by lia.
    split; [| split; [lia | apply shift_value]].
    apply binary_round_aux_kept; [rewrite digits2_pos_shift; lia | lia].
Qed.

(** The whole number held by a double with an integer value. *)
Lemma whole_integer (s : bool) (m : positive) (e v : Z) :
  (0 <= e -> v = Z.pos m * 2 ^ e) ->
  (e < 0 -> Z.pos m = v * 2 ^ (- e)) ->
  whole (S754_finite s m e) = Whole (if s then - v else v).
Proof.
  intros Hpos Hneg. unfold whole, value.
  destruct (Z.leb_spec 0 e) as [He | He].
  - rewrite <- (Hpos He).
    destruct s; f_equal; unfold Qfloor, Qopp, inject_Z; cbn [Qnum Qden];
      rewrite Z.div_1_r; reflexivity.
  - specialize (Hneg He).
    assert (Hden : Z.pos (2 ^ Z.to_pos (- e)) = 2 ^ (- e)).
    { rewrite Pos2Z.inj_pow, Z2Pos.id by lia. reflexivity. }
    assert (Hpow : 0 < 2 ^ (- e)) by (apply Z.pow_pos_nonneg; lia).
    destruct s; f_equal; unfold Qfloor, Qopp; cbn [Qnum Qden];
      rewrite Hden, Hneg.
    + rewrite <- Z.mul_opp_l. apply Z.div_mul. lia.
    + apply Z.div_mul. lia.
Qed.

(** Below [2 ^ 53] in absolute value an integer is its own double. *)
Lemma whole_number_exact (z : Z) :
  Z.abs z < 2 ^ 53 -> whole (number z) = Whole z.
Proof.
  intros Hz. unfold number, binary_normalize.
  destruct z as [| p | p]; [reflexivity | |].
  - destruct (binary_round_small false p Hz) as (m & e & -> & He & Hm).
    apply (whole_integer false m e (Z.pos p)).
    + intros H0. assert (e = 0) by lia. subst e. cbn in Hm |- *. lia.
    + intros _. exact Hm.
  - destruct (binary_round_small true p Hz) as (m & e & -> & He & Hm).
    apply (whole_integer true m e (Z.pos p)).
    + intros H0. assert (e = 0) by lia. subst e. cbn in Hm |- *. lia.
    + intros _. exact Hm.
Qed.

(** From [2 ^ 53] on, rounding gives a double that is at least [2 ^ 53],
    or overflows. *)
Lemma binary_round_large (sx : bool) (p : positive) :
  2 ^ 53 <= Z.pos p ->
  binary_round prec emax sx p 0 = S754_infinity sx \/
  exists m e,
    binary_round prec emax sx p 0 = S754_finite sx m e /\
    0 <= e /\ 2 ^ 53 <= Z.pos m * 2 ^ e.
Proof.
  intros Hp. pose proof (digits2_pos_bounds p) as Hd.
  assert (Hdigits : 54 <= Z.pos (digits2_pos p)).
  { destruct (Z_le_gt_dec 54 (Z.pos (digits2_pos p))) as [H | H]; [exact H |].
    exfalso.
    assert (2 ^ Z.pos (digits2_pos p) <= 2 ^ 53)
      by (apply Z.pow_le_mono_r; lia).
    lia. }
  unfold binary_round, shl_align, fexp, emin, prec, emax.
  replace (Z.max (Z.pos (digits2_pos p) + 0 - 53) (3 - 1024 - 53) - 0)
    with (Z.pos (digits2_pos p) - 53) by lia.
  destruct (Z.pos (digits2_pos p) - 53) as [| k | k] eqn:Hk; [lia | | lia].
  unfold binary_round_aux, shr_fexp, fexp, emin.
  cbn [Zdigits2 shr_record_of_loc].
  replace (Z.max (Z.pos (digits2_pos p) + 0 - 53) (3 - 1024 - 53) - 0)
    with (Z.pos k) by lia.
  cbn [shr].
  set (first := iter_pos shr_1 k {| shr_m := Z.pos p; shr_r := false; shr_s := false |}).
  assert (Hfirst : shr_m first = Z.pos p / 2 ^ Z.pos k)
    by (apply (iter_shr_1_m k); cbn; lia).
  assert (Hpow : 2 ^ (Z.pos (digits2_pos p) - 1) = 2 ^ 52 * 2 ^ Z.pos k).
  { replace (Z.pos (digits2_pos p) - 1) with (52 + Z.pos k) by lia.
    apply Z.pow_add_r; lia. }
  assert (Hk2 : 0 < 2 ^ Z.pos k) by (apply Z.pow_pos_nonneg; lia).
  assert (Hq : 2 ^ 52 <= shr_m first).
  { rewrite Hfirst. apply Z.div_le_lower_bound; lia. }
  pose proof (round_nearest_even_bounds (shr_m first) (loc_of_shr_record first))
    as Hround.
  set (rounded := round_nearest_even (shr_m first) (loc_of_shr_record first)) in *.
  destruct rounded as [| r | r] eqn:Hr; [lia | | lia].
  cbn [Zdigits2 shr_record_of_loc].
  pose proof (digits2_pos_bounds r) as Hdr.
  assert (Hdigits' : 53 <= Z.pos (digits2_pos r)).
  { destruct (Z_le_gt_dec 53 (Z.pos (digits2_pos r))) as [H | H]; [exact H |].
    exfalso.
    assert (2 ^ Z.pos (digits2_pos r) <= 2 ^ 52)
      by (apply Z.pow_le_mono_r; lia).
    lia. }
  replace (Z.max (Z.pos (digits2_pos r) + (0 + Z.pos k) - 53) (3 - 1024 - 53)
           - (0 + Z.pos k))
    with (Z.pos (digits2_pos r) - 53) by lia.
  destruct (Z.pos (digits2_pos r) - 53) as [| j | j] eqn:Hj; [| | lia];
    cbn [shr shr_m].
  - destruct (0 + Z.pos k <=? 1024 - 53); [right | left; reflexivity].
    exists r, (0 + Z.pos k). split; [reflexivity |]. split; [lia |].
    replace (0 + Z.pos k) with (Z.pos k) by lia. nia.
  - set (second := iter_pos shr_1 j {| shr_m := Z.pos r; shr_r := false; shr_s := false |}).
    assert (Hsecond : shr_m second = Z.pos r / 2 ^ Z.pos j)
      by (apply (iter_shr_1_m j); cbn; lia).
    assert (Hpow' : 2 ^ (Z.pos (digits2_pos r) - 1) = 2 ^ 52 * 2 ^ Z.pos j).
    { replace (Z.pos (digits2_pos r) - 1) with (52 + Z.pos j) by lia.
      apply Z.pow_add_r; lia. }
    assert (Hj2 : 0 < 2 ^ Z.pos j) by (apply Z.pow_pos_nonneg; lia).
    assert (Hq' : 2 ^ 52 <= shr_m second).
    { rewrite Hsecond. apply Z.div_le_lower_bound; lia. }
    destruct (shr_m second) as [| m | m]; [lia | | lia].
    destruct (0 + Z.pos k + Z.pos j <=? 1024 - 53); [right | left; reflexivity].
    exists m, (0 + Z.pos k + Z.pos j). split; [reflexivity |]. split; [lia |].
    assert (2 ^ 1 <= 2 ^ (0 + Z.pos k + Z.pos j))
      by (apply Z.pow_le_mono_r; lia).
    change (2 ^ 53) with (2 ^ 52 * 2 ^ 1). nia.
Qed.

(** An integer of [2 ^ 53] or more is read as a whole number of
    [2 ^ 53] or more, or as [Infinity]; likewise below. *)
Lemma whole_number_large (z : Z) :
  2 ^ 53 <= Z.abs z ->
  whole (number z) = Infinite (z <? 0) \/
  exists v, whole (number z) = Whole v /\ 2 ^ 53 <= Z.abs v /\
            (0 <= z <-> 0 <= v).
Proof.
  intros Hz. unfold number, binary_normalize.
  destruct z as [| p | p]; [cbn in Hz; lia | |].
  - destruct (binary_round_large false p Hz)
      as [-> | (m & e & -> & He & Hm)]; [left; reflexivity | right].
    exists (Z.pos m * 2 ^ e). split; [| lia].
    apply (whole_integer false m e (Z.pos m * 2 ^ e)); [reflexivity | lia].
  - destruct (binary_round_large true p Hz)
      as [-> | (m & e & -> & He & Hm)]; [left; reflexivity | right].
    exists (- (Z.pos m * 2 ^ e)). split; [| lia].
    apply (whole_integer true m e (Z.pos m * 2 ^ e)); [reflexivity | lia].
Qed.

End IntegerToDouble.

(** ** Command-line options *)

Lemma units_String (c : ascii) (s : string) :
  units (String c s) = N_of_ascii c :: units s.
Proof. reflexivity. Qed.

Lemma digitsValue_uint_acc (u : Decimal.uint) (rest : jsstring) (acc : positive) :
  digitsValue (Z.pos acc) (units (NilEmpty.string_of_uint u) ++ rest)
  = digitsValue (Z.pos (Pos.of_uint_acc u acc)) rest.
Proof.
  revert acc.
  induction u as [| u IH | u IH | u IH | u IH | u IH | u IH | u IH | u IH | u IH | u IH];
    intros acc; [reflexivity | ..];
    cbn [NilEmpty.string_of_uint Pos.of_uint_acc]; rewrite units_String;
    cbn [app digitsValue];
    match goal with
    | |- context [isDigit ?c] => change (isDigit c) with true
    end; cbv iota;
    match goal with
    | |- context [Z.of_N ?e] =>
        let v := eval vm_compute in (Z.of_N e) in change (Z.of_N e) with v
    end;
    rewrite <- IH; f_equal; lia.
Qed.

Lemma digitsValue_uint (u : Decimal.uint) (rest : jsstring) :
  digitsValue 0 (units (NilEmpty.string_of_uint u) ++ rest)
  = digitsValue (Z.of_uint u) rest.
Proof.
  unfold Z.of_uint.
  induction u as [| u IH | u IH | u IH | u IH | u IH | u IH | u IH | u IH | u IH | u IH];
    [reflexivity | exact IH | ..];
    cbn [NilEmpty.string_of_uint Pos.of_uint]; rewrite units_String;
    cbn [app digitsValue];
    match goal with
    | |- context [isDigit ?c] => change (isDigit c) with true
    end; cbv iota;
    match goal with
    | |- context [Z.of_N (?e - 48)] =>
        let v := eval vm_compute in (10 * 0 + Z.of_N (e - 48)) in
        change (10 * 0 + Z.of_N (e - 48)) with v
    end;
    apply digitsValue_uint_acc.
Qed.

Lemma digitsValue_stop (acc : Z) (rest : jsstring) :
  endsDigits rest -> digitsValue acc rest = acc.
Proof.
  destruct rest as [| c rest]; [reflexivity |].
  cbn [endsDigits digitsValue]. intros ->. reflexivity.
Qed.

Lemma isDigit_not_space (c : N) : isDigit c = true -> isWhiteSpace c = false.
Proof.
  unfold isDigit. intros H. apply andb_prop in H. destruct H as [Hlo Hhi].
  apply N.leb_le in Hlo, Hhi.
  assert (Hc : (c = 48 \/ c = 49 \/ c = 50 \/ c = 51 \/ c = 52 \/ c = 53 \/ c = 54
                \/ c = 55 \/ c = 56 \/ c = 57)%N) by lia.
  repeat (destruct Hc as [-> | Hc]; [reflexivity |]). subst c. reflexivity.
Qed.

Lemma trimStart_spaces (ws s : jsstring) :
  Forall (fun c => isWhiteSpace c = true) ws -> trimStart (ws ++ s) = trimStart s.
Proof.
  induction 1 as [| c ws Hc _ IH]; [reflexivity |].
  cbn [app trimStart]. rewrite Hc. exact IH.
Qed.

(** The decimal text of a number that is not negative: digits, and at
    least one. *)
Lemma uint_text_digit (u : Decimal.uint) :
  u <> Decimal.Nil ->
  exists c tail, units (NilEmpty.string_of_uint u) = c :: tail /\ isDigit c = true.
Proof.
  destruct u; intros Hnil; [contradiction | ..];
    cbn [NilEmpty.string_of_uint]; rewrite units_String;
    eexists; eexists; (split; [reflexivity | reflexivity]).
Qed.

Lemma uint_text_value (u : Decimal.uint) (rest : jsstring) :
  u <> Decimal.Nil -> endsDigits rest ->
  exists c tail,
    units (NilEmpty.string_of_uint u) ++ rest = c :: tail /\
    isDigit c = true /\
    digitsValue 0 (c :: tail) = Z.of_uint u.
Proof.
  intros Hnil Hrest.
  destruct (uint_text_digit u Hnil) as (c & tail & Htext & Hc).
  exists c, (tail ++ rest). split; [rewrite Htext; reflexivity | split; [exact Hc |]].
  change (c :: tail ++ rest) with ((c :: tail) ++ rest).
  rewrite <- Htext, digitsValue_uint. apply digitsValue_stop. exact Hrest.
Qed.

Lemma isDigit_not_sign (c : N) :
  isDigit c = true -> (c =? 43)%N = false /\ (c =? 45)%N = false.
Proof.
  unfold isDigit. intros H. apply andb_prop in H. destruct H as [Hlo Hhi].
  apply N.leb_le in Hlo, Hhi. split; apply N.eqb_neq; lia.
Qed.

Lemma parseInt_unsigned (u : Decimal.uint) (rest : jsstring) :
  u <> Decimal.Nil -> endsDigits rest ->
  parseInt (units (NilEmpty.string_of_uint u) ++ rest)
  = Binary64.whole (Binary64.number (Z.of_uint u)).
Proof.
  intros Hnil Hrest.
  destruct (uint_text_value u rest Hnil Hrest) as (c & tail & -> & Hc & Hvalue).
  destruct (isDigit_not_sign c Hc) as [Hplus Hminus].
  unfold parseInt. cbn [trimStart]. rewrite (isDigit_not_space c Hc).
  rewrite Hplus, Hminus. cbn [orb]. rewrite Hc, Hvalue. do 2 f_equal; lia.
Qed.

Lemma parseInt_negative (u : Decimal.uint) (rest : jsstring) :
  u <> Decimal.Nil -> endsDigits rest ->
  parseInt (45%N :: units (NilEmpty.string_of_uint u) ++ rest)
  = Binary64.whole (Binary64.number (- Z.of_uint u)).
Proof.
  intros Hnil Hrest.
  destruct (uint_text_value u rest Hnil Hrest) as (c & tail & -> & Hc & Hvalue).
  unfold parseInt. cbn [trimStart].
  change (isWhiteSpace 45) with false. cbv iota.
  change (45 =? 45)%N with true. change (45 =? 43)%N with false. cbn [orb]. cbv iota.
  rewrite Hc, Hvalue. do 2 f_equal; lia.
Qed.

Lemma string_of_uint_nonnil (u : Decimal.uint) :
  u <> Decimal.Nil -> NilZero.string_of_uint u = NilEmpty.string_of_uint u.
Proof. destruct u; [contradiction | reflexivity ..]. Qed.

(** [parseInt] reads what [String] writes, after white space and before
    anything that is not a digit, and gives its Number value. *)
Lemma parseInt_decimal (n : Z) (ws rest : jsstring) :
  Forall (fun c => isWhiteSpace c = true) ws ->
  endsDigits rest ->
  parseInt (ws ++ String_of_Z n ++ rest)
  = Binary64.whole (Binary64.number n).
Proof.
  intros Hws Hrest.
  assert (Hbare : parseInt (String_of_Z n ++ rest)
                  = Binary64.whole (Binary64.number n)).
  { unfold String_of_Z. pose proof (DecimalZ.of_to n) as Hn.
    destruct n as [| p | p]; cbn [Z.to_int NilZero.string_of_int Z.of_int] in Hn |- *.
    - rewrite string_of_uint_nonnil by discriminate.
      rewrite parseInt_unsigned by (discriminate || assumption). reflexivity.
    - pose proof (DecimalPos.Unsigned.to_uint_nonnil p) as Hnil.
      rewrite string_of_uint_nonnil by assumption.
      rewrite parseInt_unsigned by assumption. do 2 f_equal. exact Hn.
    - pose proof (DecimalPos.Unsigned.to_uint_nonnil p) as Hnil.
      rewrite string_of_uint_nonnil by assumption.
      rewrite units_String. change (N_of_ascii "-") with 45%N. cbn [app].
      rewrite parseInt_negative by assumption. do 2 f_equal. exact Hn. }
  unfold parseInt in *. rewrite trimStart_spaces by exact Hws. exact Hbare.
Qed.

Lemma parseIntInRange_cases (text : jsstring) (lo hi : Z) (message : jsstring) :
  (exists n, parseInt text = Binary64.Whole n /\ lo <= n <= hi /\
             parseIntInRange text lo hi message = ([], Return n)) \/
  parseIntInRange text lo hi message = ([Error message], Exit 1).
Proof.
  unfold parseIntInRange.
  destruct (parseInt text) as [n | s |]; [| right; reflexivity ..].
  destruct (Z.ltb_spec n lo) as [Hlo | Hlo]; [right; reflexivity |].
  rewrite Z.gtb_ltb.
  destruct (Z.ltb_spec hi n) as [Hhi | Hhi]; [right; reflexivity |].
  left. exists n. split; [reflexivity | split; [lia | reflexivity]].
Qed.

Lemma parseIntInRange_returns (text : jsstring) (lo hi : Z) (message : jsstring)
    (out : list Line) (n : Z) :
  parseIntInRange text lo hi message = (out, Return n) ->
  out = [] /\ parseInt text = Binary64.Whole n /\ lo <= n <= hi.
Proof.
  intros Hrun.
  destruct (parseIntInRange_cases text lo hi message)
    as [(m & Hparse & Hrange & Heq) | Heq]; rewrite Heq in Hrun.
  - injection Hrun as <- <-. split; [reflexivity | split; assumption].
  - discriminate.
Qed.

(** X11. An accepted frame count is between 2 and 64, nothing is printed on the
    way, and the grid planned for it has the count as its product, at most
    8 rows, and at least as many columns as rows. *)
Theorem accepted_frames_grid (frames : jsstring) (out : list Line) (n : Z) :
  validateFrames frames = (out, Return n) ->
  let g := gridLayout n in
  out = [] /\ 2 <= n <= 64 /\
  Grid.cols g * Grid.rows g = n /\
  1 <= Grid.rows g <= 8 /\ Grid.rows g <= Grid.cols g <= 64.
Proof.
  intros Hrun g.
  apply parseIntInRange_returns in Hrun. destruct Hrun as (Hout & _ & Hn).
  destruct (gridLayout_loop_spec n 2 n 1) as (Hmul & Hpos & Hbest & _);
    try lia.
  fold (gridLayout n) in Hmul, Hpos, Hbest. fold g in Hmul, Hpos, Hbest.
  split; [exact Hout | split; [exact Hn | split; [exact Hmul |]]].
  destruct Hbest as [H1 | (H2 & Hsq & _)]; nia.
Qed.

Lemma accepted_frames_grid_witness :
  validateFrames (units "12") = ([], Return 12) /\
  Grid.cols (gridLayout 12) * Grid.rows (gridLayout 12) = 12.
Proof.
  assert (Hrun : validateFrames (units "12") = ([], Return 12))
    by (vm_compute; reflexivity).
  split; [exact Hrun |].
  exact (proj1 (proj2 (proj2 (accepted_frames_grid (units "12") [] 12 Hrun)))).
Defined.

(** X12. The three options that are numbers in a range: frames, delay and
    colors.  The decimal text of a number gives that number when it lies
    in the range of the option, and otherwise the option's error and exit
    code 1; white space before the text and anything that does not start
    with a digit after it change nothing. *)
Theorem range_options_texts (n : Z) (ws rest : jsstring) :
  Forall (fun c => isWhiteSpace c = true) ws ->
  endsDigits rest ->
  let text := ws ++ String_of_Z n ++ rest in
  validateFrames text
  = (if (2 <=? n) && (n <=? 64) then ([], Return n)
     else ([Error (units "Error: frames must be between 2 and 64")], Exit 1)) /\
  validateDelay text
  = (if (10 <=? n) && (n <=? 10000) then ([], Return n)
     else ([Error (units "Error: delay must be between 10 and 10000 ms")], Exit 1)) /\
  parseColors text
  = (if (2 <=? n) && (n <=? 256) then ([], Return n)
     else ([Error (units "Error: colors must be between 2 and 256")], Exit 1)).
Proof.
  intros Hws Hrest text.
  assert (Hrange : forall lo hi message,
             - 2 ^ 53 < lo -> hi < 2 ^ 53 ->
             parseIntInRange text lo hi message
             = if (lo <=? n) && (n <=? hi) then ([], Return n)
               else ([Error message], Exit 1)).
  { intros lo hi message Hlo Hhi. unfold parseIntInRange, text.
    rewrite (parseInt_decimal n ws rest Hws Hrest).
    destruct (Z_lt_ge_dec (Z.abs n) (2 ^ 53)) as [Hsmall | Hlarge].
    - rewrite (whole_number_exact n Hsmall), Z.gtb_ltb.
      destruct (Z.ltb_spec n lo), (Z.leb_spec lo n), (Z.ltb_spec hi n),
        (Z.leb_spec n hi); try lia; reflexivity.
    - assert (Hout : (lo <=? n) && (n <=? hi) = false).
      { destruct (Z.leb_spec lo n), (Z.leb_spec n hi); try reflexivity; lia. }
      rewrite Hout.
      destruct (whole_number_large n ltac:(lia)) as [-> | (v & -> & Hv & Hsign)];
        [reflexivity |].
      rewrite Z.gtb_ltb.
      destruct (Z.ltb_spec v lo), (Z.ltb_spec hi v); try reflexivity; lia. }
  unfold validateFrames, validateDelay, parseColors.
  split; [apply Hrange; lia | split; apply Hrange; lia].
Qed.

Lemma range_options_texts_witness :
  (Forall (fun c => isWhiteSpace c = true) [32%N] /\ endsDigits (units " frames")) /\
  validateFrames ([32%N] ++ String_of_Z 12 ++ units " frames") = ([], Return 12) /\
  parseColors ([32%N] ++ String_of_Z 12 ++ units " frames") = ([], Return 12).
Proof.
  assert (Hws : Forall (fun c => isWhiteSpace c = true) [32%N])
    by (constructor; [reflexivity | constructor]).
  assert (Hrest : endsDigits (units " frames")) by reflexivity.
  split; [split; assumption |].
  destruct (range_options_texts 12 [32%N] (units " frames") Hws Hrest)
    as (Hframes & _ & Hcolors).
  split; [exact Hframes | exact Hcolors].
Defined.

Lemma Math_round_tenth (d : Z) :
  Math_round (inject_Z d / 10) = (d + 5) / 10.
Proof.
  unfold Math_round, Qfloor, Qplus, Qdiv, Qmult, Qinv, inject_Z;
    cbn -[Z.mul Z.add Z.div]. lia.
Qed.

(** X13. An accepted delay, in milliseconds, reaches the encoder as a whole
    number of centiseconds between 1 and 1000, the nearest one, and the
    upper one of two equally near. *)
Theorem accepted_delay_centiseconds (delay : jsstring) (out : list Line)
    (ms colors : Z) (frameFiles : list jsstring) (outputPath : jsstring) :
  validateDelay delay = (out, Return ms) ->
  exists cs,
    1 <= cs <= 1000 /\
    ms - 5 < 10 * cs <= ms + 5 /\
    gifsicleArgs ms colors frameFiles outputPath
    = [units "--delay"; String_of_Z cs; units "--loop"; units "--colors";
       String_of_Z colors; units "-O3"] ++ frameFiles ++ [units "-o"; outputPath].
Proof.
  intros Hrun. apply parseIntInRange_returns in Hrun. destruct Hrun as (_ & _ & Hms).
  exists ((ms + 5) / 10). split; [lia | split; [lia |]].
  unfold gifsicleArgs. rewrite Math_round_tenth. reflexivity.
Qed.

Lemma accepted_delay_centiseconds_witness :
  validateDelay (units "125") = ([], Return 125) /\
  exists cs, 1 <= cs <= 1000 /\ 125 - 5 < 10 * cs <= 125 + 5 /\
    gifsicleArgs 125 256 [] (units "out.gif")
    = [units "--delay"; String_of_Z cs; units "--loop"; units "--colors";
       String_of_Z 256; units "-O3"] ++ [] ++ [units "-o"; units "out.gif"].
Proof.
  assert (Hrun : validateDelay (units "125") = ([], Return 125))
    by (vm_compute; reflexivity).
  split; [exact Hrun |].
  exact (accepted_delay_centiseconds (units "125") [] 125 256 [] (units "out.gif") Hrun).
Defined.










(** Digits that write a number of [2 ^ 1024] or more are read as
    [Infinity]. *)
Example size_beyond_doubles :
  parseSize (String_of_Z (2 ^ 1024) ++ units "x1")
  = ([], Return (Binary64.Infinite false, Binary64.Whole 1)).
Proof. vm_compute. reflexivity. Qed.

(** ** Output file name *)

Lemma slice_first (s : jsstring) (n : Z) :
  0 <= n -> slice s 0 n = firstn (Z.to_nat n) s.
Proof.
  intros Hn. rewrite slice_window by lia.
  rewrite Z.sub_0_r. reflexivity.
Qed.

Lemma replaceRuns_space_chars (inRun : bool) (s : jsstring) :
  Forall (fun c => isSlugUnit c = true) s ->
  Forall (fun c => isSlugChar c = true)
         (replaceRuns isWhiteSpace (units "-") inRun s).
Proof.
  intros Hs. revert inRun. induction Hs as [| c s Hc _ IH]; intros inRun;
    cbn [replaceRuns]; [constructor |].
  destruct (isWhiteSpace c) eqn:Hspace.
  - apply Forall_app. split; [| apply IH].
    destruct inRun; [constructor | constructor; [reflexivity | constructor]].
  - constructor; [| apply IH].
    unfold isSlugUnit in Hc. unfold isSlugChar. rewrite Hspace in Hc.
    rewrite orb_false_r in Hc. exact Hc.
Qed.

Lemma replaceRuns_dash_chars (P : N -> Prop) (inRun : bool) (s : jsstring) :
  Forall P s ->
  Forall P (replaceRuns (fun c => c =? 45)%N (units "-") inRun s).
Proof.
  intros Hs. revert inRun. induction Hs as [| c s Hc _ IH]; intros inRun;
    cbn [replaceRuns]; [constructor |].
  destruct (N.eqb_spec c 45) as [-> | Hne].
  - apply Forall_app. split; [| apply IH].
    destruct inRun; [constructor | constructor; [exact Hc | constructor]].
  - constructor; [exact Hc | apply IH].
Qed.

(** After [replace(/-+/g, "-")] no dash follows a dash, and the text does
    not start with one where a dash came before. *)
Lemma replaceRuns_dash_single (inRun : bool) (s : jsstring) :
  let single := replaceRuns (fun c => c =? 45)%N (units "-") inRun s in
  doubled 45 single = false /\ (inRun = true -> hd 0%N single <> 45%N).
Proof.
  revert inRun. induction s as [| c s IH]; intros inRun; cbn [replaceRuns].
  - split; [reflexivity | intros _; discriminate].
  - destruct (N.eqb_spec c 45) as [-> | Hne].
    + destruct (IH true) as [Hd Hh]. specialize (Hh eq_refl).
      set (rest := replaceRuns _ _ true s) in *.
      destruct inRun; cbn [app]; [split; [exact Hd | intros _; exact Hh] |].
      split; [| discriminate].
      change (units "-" ++ rest) with (45%N :: rest). cbn [doubled].
      rewrite Hd, orb_false_r.
      destruct rest as [| b rest]; [reflexivity |].
      cbn [hd] in Hh. apply N.eqb_neq in Hh. rewrite Hh. reflexivity.
    + destruct (IH false) as [Hd _].
      set (rest := replaceRuns _ _ false s) in *. split.
      * cbn [doubled]. rewrite Hd, orb_false_r.
        apply N.eqb_neq in Hne. rewrite Hne.
        destruct rest; reflexivity.
      * intros _. exact Hne.
Qed.

Lemma doubled_tail (c a : N) (s : jsstring) :
  doubled c (a :: s) = false -> doubled c s = false.
Proof. cbn [doubled]. intros H. apply orb_false_elim in H. apply H. Qed.

Lemma doubled_head (c : N) (s : jsstring) :
  doubled c (c :: s) = false -> hd 0%N s <> c \/ s = [].
Proof.
  destruct s as [| b s]; [right; reflexivity |].
  cbn [doubled hd]. rewrite N.eqb_refl. cbn [andb]. intros H.
  apply orb_false_elim in H. destruct H as [H _].
  left. apply N.eqb_neq. exact H.
Qed.

Lemma dropTrailingDash_chars (P : N -> Prop) (s : jsstring) :
  Forall P s -> Forall P (dropTrailingDash s).
Proof.
  induction 1 as [| c s Hc Hs IH]; [constructor |].
  cbn [dropTrailingDash]. destruct s as [| b s].
  - destruct (c =? 45)%N; [constructor | constructor; [exact Hc | constructor]].
  - constructor; [exact Hc | exact IH].
Qed.

Lemma dropTrailingDash_hd (s : jsstring) :
  hd 0%N s <> 45%N -> hd 0%N (dropTrailingDash s) <> 45%N.
Proof.
  destruct s as [| c [| b s]]; cbn [dropTrailingDash hd]; try (intros H; exact H).
  intros H. apply N.eqb_neq in H. rewrite H. cbn [hd]. apply N.eqb_neq. exact H.
Qed.

Lemma dropTrailingDash_single (s : jsstring) :
  doubled 45 s = false ->
  doubled 45 (dropTrailingDash s) = false /\ last (dropTrailingDash s) 0%N <> 45%N.
Proof.
  induction s as [| c s IH]; intros Hd; [split; [reflexivity | discriminate] |].
  cbn [dropTrailingDash]. destruct s as [| b s].
  - destruct (N.eqb_spec c 45) as [-> | Hne]; [split; [reflexivity | discriminate] |].
    split; [reflexivity | exact Hne].
  - destruct (IH (doubled_tail _ _ _ Hd)) as [Hd' Hlast].
    remember (dropTrailingDash (b :: s)) as rest eqn:Hrest.
    destruct rest as [| b' rest'].
    + (* what was left was one dash *)
      assert (Hone : b = 45%N /\ s = []).
      { destruct s as [| b2 s]; cbn [dropTrailingDash] in Hrest.
        - destruct (N.eqb_spec b 45); [split; [assumption | reflexivity] | discriminate].
        - discriminate. }
      destruct Hone as [-> ->].
      cbn [doubled] in Hd. rewrite N.eqb_refl, andb_true_r, orb_false_r in Hd.
      apply N.eqb_neq in Hd. split; [reflexivity | exact Hd].
    + assert (Hb : b' = b).
      { destruct s as [| b2 s]; cbn [dropTrailingDash] in Hrest.
        - destruct (b =? 45)%N; [discriminate | injection Hrest as -> _; reflexivity].
        - injection Hrest as -> _; reflexivity. }
      subst b'. split.
      * cbn [doubled] in Hd |- *. apply orb_false_elim in Hd. destruct Hd as [Hd _].
        rewrite Hd. exact Hd'.
      * exact Hlast.
Qed.

Lemma firstn_single (c : N) (n : nat) (s : jsstring) :
  doubled c s = false -> doubled c (firstn n s) = false.
Proof.
  revert n. induction s as [| a s IH]; intros n Hd; [destruct n; reflexivity |].
  destruct n as [| n]; [reflexivity |].
  cbn [firstn doubled]. rewrite (IH n (doubled_tail _ _ _ Hd)), orb_false_r.
  cbn [doubled] in Hd. apply orb_false_elim in Hd. destruct Hd as [Hd _].
  destruct s as [| b s]; [destruct n; reflexivity |].
  destruct n as [| n]; [reflexivity | exact Hd].
Qed.

Lemma firstn_chars (P : N -> Prop) (n : nat) (s : jsstring) :
  Forall P s -> Forall P (firstn n s).
Proof.
  intros Hs. rewrite <- (firstn_skipn n s) in Hs.
  apply Forall_app in Hs. apply Hs.
Qed.

Section SlugFacts.

Variable toLowerCase : jsstring -> jsstring.

(** X15. A slug has at most 60 characters, all of them lower-case letters,
    digits and dashes; no dash follows a dash and none comes first.  A
    slug of fewer than 60 characters does not end with a dash either; the
    cut at 60 can leave one. *)
Theorem slugify_shape (text : jsstring) :
  let slug := slugify toLowerCase text in
  (length slug <= 60)%nat /\
  Forall (fun c => isSlugChar c = true) slug /\
  doubled 45 slug = false /\
  hd 0%N slug <> 45%N /\
  ((length slug < 60)%nat -> last slug 0%N <> 45%N).
Proof.
  unfold slugify. cbv zeta.
  set (kept := filter isSlugUnit (toLowerCase text)).
  set (dashed := replaceRuns isWhiteSpace (units "-") false kept).
  set (single := replaceRuns (fun c => (c =? 45)%N) (units "-") false dashed).
  set (stripped := dropTrailingDash (dropLeadingDash single)).
  rewrite slice_first by lia. change (Z.to_nat 60) with 60%nat.
  assert (Hchars : Forall (fun c => isSlugChar c = true) stripped).
  { apply dropTrailingDash_chars.
    assert (Hsingle : Forall (fun c => isSlugChar c = true) single).
    { apply replaceRuns_dash_chars, replaceRuns_space_chars.
      apply Forall_forall. intros c Hin. apply filter_In in Hin. apply Hin. }
    destruct single as [| c rest]; [constructor |].
    cbn [dropLeadingDash]. destruct (c =? 45)%N; [| exact Hsingle].
    apply Forall_inv_tail in Hsingle. exact Hsingle. }
  destruct (replaceRuns_dash_single false dashed) as [Hd _]. fold single in Hd.
  assert (Hlead : doubled 45 (dropLeadingDash single) = false
                  /\ hd 0%N (dropLeadingDash single) <> 45%N).
  { destruct single as [| c rest]; [split; [reflexivity | discriminate] |].
    cbn [dropLeadingDash]. destruct (N.eqb_spec c 45) as [-> | Hne].
    - split; [exact (doubled_tail _ _ _ Hd) |].
      destruct (doubled_head _ _ Hd) as [Hh | ->]; [exact Hh | discriminate].
    - split; [exact Hd | exact Hne]. }
  destruct Hlead as [Hd1 Hh1].
  destruct (dropTrailingDash_single _ Hd1) as [Hd2 Hlast]. fold stripped in Hd2, Hlast.
  pose proof (dropTrailingDash_hd _ Hh1) as Hh2. fold stripped in Hh2.
  split; [apply firstn_le_length |].
  split; [apply firstn_chars; exact Hchars |].
  split; [apply firstn_single; exact Hd2 |].
  split.
  - destruct stripped; [discriminate | exact Hh2].
  - intros Hshort. rewrite length_firstn in Hshort.
    rewrite firstn_all2 by lia. exact Hlast.
Qed.

End SlugFacts.

Example slugify_prompt :
  slugify (fun s => s) (units "a cat -- jumping  (fast)!")
  = units "a-cat-jumping-fast".
Proof. vm_compute. reflexivity. Qed.

Example slugify_nothing_left : slugify (fun s => s) (units "!!!") = [].
Proof. vm_compute. reflexivity. Qed.

Example slugify_cut_at_dash :
  last (slugify (fun s => s)
          (units "a slowly spinning globe with clouds drifting over the ocean at night"))
       0%N = 45%N.
Proof. vm_compute. reflexivity. Qed.

Lemma numbered_injective (base ext : jsstring) (n m : Z) :
  numbered base ext n = numbered base ext m -> n = m.
Proof.
  unfold numbered. intros H.
  apply app_inv_head in H. apply app_inv_head in H. apply app_inv_tail in H.
  apply String_of_Z_injective. exact H.
Qed.

Lemma numbered_NoDup (base ext : jsstring) (n : Z) (len : nat) :
  forall a,
  NoDup (map (fun k => numbered base ext (n + Z.of_nat k)) (seq a len)).
Proof.
  induction len as [| len IH]; intros a; cbn [seq map]; constructor; [| apply IH].
  intros Hin. apply in_map_iff in Hin. destruct Hin as (k & Heq & Hk).
  apply numbered_injective in Heq. apply in_seq in Hk. lia.
Qed.

Section UniquePathFacts.

Variable existsSync : jsstring -> bool.
Variable extname : jsstring -> jsstring.

(** Among more numbered names than there are files, one is free. *)
Lemma numbered_free (files : list jsstring) (base ext : jsstring) (n : Z) :
  (forall q, existsSync q = true -> In q files) ->
  exists k, (k <= length files)%nat /\
            existsSync (numbered base ext (n + Z.of_nat k)) = false.
Proof.
  intros Hfiles.
  set (names := map (fun k => numbered base ext (n + Z.of_nat k))
                    (seq 0 (S (length files)))).
  destruct (forallb existsSync names) eqn:Hall.
  - exfalso.
    assert (Hincl : incl names files).
    { intros q Hq. apply Hfiles. rewrite forallb_forall in Hall. apply Hall, Hq. }
    apply NoDup_incl_length in Hincl; [| apply numbered_NoDup].
    unfold names in Hincl. rewrite length_map, length_seq in Hincl. lia.
  - assert (Hsome : exists q, In q names /\ existsSync q = false).
    { clear - Hall. induction names as [| q names IH]; [discriminate |].
      cbn [forallb] in Hall. destruct (existsSync q) eqn:Hq.
      - destruct (IH Hall) as (q' & Hin & Hfree). exists q'. split; [right |]; assumption.
      - exists q. split; [left; reflexivity | exact Hq]. }
    destruct Hsome as (q & Hin & Hfree).
    apply in_map_iff in Hin. destruct Hin as (k & <- & Hk). apply in_seq in Hk.
    exists k. split; [lia | exact Hfree].
Qed.

Lemma uniquePath_loop_finds (base ext : jsstring) (fuel : nat) :
  forall n k,
  (k < fuel)%nat ->
  existsSync (numbered base ext (n + Z.of_nat k)) = false ->
  exists r,
    uniquePath_loop existsSync fuel base ext n = Some r /\
    n <= r <= n + Z.of_nat k /\
    existsSync (numbered base ext r) = false /\
    (forall m, n <= m < r -> existsSync (numbered base ext m) = true).
Proof.
  induction fuel as [| fuel IH]; intros n k Hk Hfree; [lia |].
  cbn [uniquePath_loop].
  destruct (existsSync (numbered base ext n)) eqn:Hn.
  - destruct k as [| k]; [rewrite Z.add_0_r in Hfree; congruence |].
    destruct (IH (n + 1) k) as (r & Hloop & Hr & Hfree' & Hbelow); [lia | |].
    { replace (n + 1 + Z.of_nat k) with (n + Z.of_nat (S k)) by lia. exact Hfree. }
    exists r. split; [exact Hloop | split; [lia | split; [exact Hfree' |]]].
    intros m Hm. destruct (Z.eq_dec m n) as [-> | Hne]; [exact Hn | apply Hbelow; lia].
  - exists n. split; [reflexivity | split; [lia | split; [exact Hn |]]].
    intros m Hm. lia.
Qed.

(** X16. For a file system with finitely many files the search ends, within one
    test more than there are files.  The path returned does not exist.  It
    is the given path when that one is free; otherwise it is the given path
    without its extension (and nothing of the path, when there is no
    extension), a dash, the least number from 2 on whose name is free, and
    the extension. *)
Theorem uniquePath_fresh (files : list jsstring) (fuel : nat) (p : jsstring) :
  (forall q, existsSync q = true -> In q files) ->
  (length files < fuel)%nat ->
  exists q,
    uniquePath existsSync extname fuel p = Some q /\
    existsSync q = false /\
    (existsSync p = false -> q = p) /\
    (existsSync p = true ->
     let ext := extname p in
     let base := stem p ext in
     exists n,
       2 <= n <= 2 + Z.of_nat (length files) /\
       q = numbered base ext n /\
       (forall m, 2 <= m < n -> existsSync (numbered base ext m) = true)).
Proof.
  intros Hfiles Hfuel. unfold uniquePath. cbv zeta.
  destruct (existsSync p) eqn:Hp; cbn [negb].
  - set (ext := extname p).
    assert (Hbase : slice p 0 (- Z.of_nat (length ext)) = stem p ext).
    { unfold stem. destruct (Nat.eqb_spec (length ext) 0) as [Hzero | Hpos].
      - rewrite Hzero. cbn [Z.of_nat Z.opp]. rewrite slice_first by lia. reflexivity.
      - unfold slice, clampIndex. cbn [Z.ltb Z.compare].
        destruct (Z.ltb_spec (- Z.of_nat (length ext)) 0) as [_ | Hneg]; [| lia].
        rewrite Z.min_l by lia. cbn [Z.to_nat skipn]. rewrite Z.sub_0_r.
        f_equal. lia. }
    rewrite Hbase. clear Hbase. set (base := stem p ext).
    destruct (numbered_free files base ext 2 Hfiles) as (k & Hk & Hfree).
    destruct (uniquePath_loop_finds base ext fuel 2 k) as (r & Hloop & Hr & Hfree' & Hbelow);
      [lia | exact Hfree |].
    rewrite Hloop. exists (numbered base ext r).
    split; [reflexivity | split; [exact Hfree' | split; [discriminate |]]].
    intros _. exists r. split; [lia | split; [reflexivity | exact Hbelow]].
  - exists p. split; [reflexivity | split; [exact Hp | split; [reflexivity | discriminate]]].
Qed.

End UniquePathFacts.

Lemma uniquePath_fresh_witness :
  ((forall q, sampleExists q = true -> In q sampleFiles) /\
   (length sampleFiles < 3)%nat) /\
  exists q,
    uniquePath sampleExists (fun _ => units ".gif") 3 (units "cat.gif") = Some q /\
    sampleExists q = false.
Proof.
  assert (Hfiles : forall q, sampleExists q = true -> In q sampleFiles).
  { intros q Hq. unfold sampleExists in Hq. apply existsb_exists in Hq.
    destruct Hq as (f & Hin & Heq).
    destruct (list_eq_dec N.eq_dec q f) as [-> | _]; [exact Hin | discriminate]. }
  assert (Hfuel : (length sampleFiles < 3)%nat) by (cbn; lia).
  split; [split; assumption |].
  destruct (uniquePath_fresh sampleExists (fun _ => units ".gif") sampleFiles 3
              (units "cat.gif") Hfiles Hfuel) as (q & Hq & Hfree & _).
  exists q. split; assumption.
Defined.

Example uniquePath_third :
  uniquePath sampleExists (fun _ => units ".gif") 3 (units "cat.gif")
  = Some (units "cat-3.gif").
Proof. vm_compute. reflexivity. Qed.

(** A taken path without an extension loses its name. *)
Example uniquePath_no_extension :
  uniquePath (fun q => if list_eq_dec N.eq_dec q (units "cat") then true else false)
             (fun _ => []) 2 (units "cat")
  = Some (units "-2").
Proof. vm_compute. reflexivity. Qed.

(** ** Code in a model's answer *)

Lemma startsWith_app (prefix s : jsstring) : startsWith (prefix ++ s) prefix = true.
Proof.
  induction prefix as [| c prefix IH]; [apply startsWith_nil |].
  cbn [app startsWith]. rewrite N.eqb_refl. exact IH.
Qed.

Lemma indexOf_from_shift (sub s : jsstring) :
  forall i j, 0 <= i -> indexOf_from sub s i = -1 -> indexOf_from sub s j = -1.
Proof.
  induction s as [| c s IH]; intros i j Hi; cbn [indexOf_from].
  - destruct (startsWith [] sub); [lia | reflexivity].
  - destruct (startsWith (c :: s) sub); [lia |].
    apply IH. lia.
Qed.

(** A fence that follows code is the first one when the code holds no
    fence and does not end with a backtick. *)
Lemma indexOf_fence_after (code post : jsstring) :
  indexOf code (units "```") = -1 ->
  last code 0%N <> 96%N ->
  forall i,
  indexOf_from (units "```") (code ++ units "```" ++ post) i
  = i + Z.of_nat (length code).
Proof.
  change (units "```") with [96%N; 96%N; 96%N].
  induction code as [| c code IH]; intros Hnone Hlast i.
  - cbn [app indexOf_from startsWith length]. rewrite startsWith_nil. cbn. lia.
  - unfold indexOf in Hnone. cbn [indexOf_from] in Hnone.
    destruct (startsWith (c :: code) [96%N; 96%N; 96%N]) eqn:Hstart; [discriminate |].
    apply (indexOf_from_shift _ _ 1 0) in Hnone; [| lia].
    assert (Hlast' : last code 0%N <> 96%N).
    { destruct code as [| d code]; [discriminate | exact Hlast]. }
    change ((c :: code) ++ [96%N; 96%N; 96%N] ++ post)
      with (c :: code ++ [96%N; 96%N; 96%N] ++ post).
    cbn [indexOf_from].
    assert (Hhere : startsWith (c :: code ++ [96%N; 96%N; 96%N] ++ post)
                               [96%N; 96%N; 96%N] = false).
    { destruct (N.eqb_spec c 96) as [-> | Hc].
      - destruct code as [| d [| e code]].
        + exfalso. apply Hlast. reflexivity.
        + destruct (N.eqb_spec d 96) as [-> | Hd].
          * exfalso. apply Hlast. reflexivity.
          * cbn [app startsWith]. apply N.eqb_neq in Hd. rewrite Hd.
            rewrite andb_false_r. reflexivity.
        + cbn [app startsWith] in Hstart |- *.
          rewrite startsWith_nil in Hstart |- *. exact Hstart.
      - cbn [startsWith]. apply N.eqb_neq in Hc. rewrite Hc. reflexivity. }
    rewrite Hhere. rewrite (IH Hnone Hlast' (i + 1)). cbn [length]. lia.
Qed.

Lemma matchFenced_not_here (langs : list jsstring) (text : jsstring) :
  hd 0%N text <> 96%N -> matchFenced langs text = None.
Proof.
  intros Hhd. induction langs as [| lang langs IH]; [reflexivity |].
  cbn [matchFenced].
  assert (Hstart : startsWith text (units "```" ++ lang ++ [10%N]) = false).
  { change (units "```") with [96%N; 96%N; 96%N]. cbn [app].
    destruct text as [| c text]; [reflexivity |].
    cbn [startsWith]. cbn [hd] in Hhd. apply N.eqb_neq in Hhd. rewrite Hhd. reflexivity. }
  rewrite Hstart. exact IH.
Qed.

Lemma firstFenced_skips (pre rest : jsstring) :
  ~ In 96%N pre -> firstFenced (pre ++ rest) = firstFenced rest.
Proof.
  induction pre as [| c pre IH]; intros Hpre; [reflexivity |].
  cbn [app firstFenced].
  rewrite matchFenced_not_here by (cbn [hd]; intros ->; apply Hpre; left; reflexivity).
  apply IH. intros Hin. apply Hpre. right. exact Hin.
Qed.

Lemma firstFenced_none (text : jsstring) :
  ~ In 96%N text -> firstFenced text = None.
Proof.
  intros Htext. rewrite <- (app_nil_r text), firstFenced_skips by exact Htext.
  reflexivity.
Qed.

Lemma matchFenced_here (lang code post : jsstring) (langs : list jsstring) :
  indexOf code (units "```") = -1 ->
  last code 0%N <> 96%N ->
  matchFenced (lang :: langs)
    ((units "```" ++ lang ++ [10%N]) ++ code ++ units "```" ++ post)
  = Some code.
Proof.
  intros Hnone Hlast. cbn [matchFenced].
  rewrite startsWith_app, skipn_app, skipn_all, Nat.sub_diag. cbn [skipn app].
  unfold includes, indexOf.
  rewrite (indexOf_fence_after code post Hnone Hlast 0). cbn [Z.add].
  destruct (Z.eqb_spec (Z.of_nat (length code)) (-1)) as [Hneg | _]; [lia |].
  cbn [negb andb]. f_equal.
  rewrite slice_first by lia. rewrite Nat2Z.id.
  rewrite firstn_app, firstn_all, Nat.sub_diag. cbn [firstn]. apply app_nil_r.
Qed.

Lemma matchFenced_next (lang : jsstring) (langs : list jsstring) (text : jsstring) :
  startsWith text (units "```" ++ lang ++ [10%N]) = false ->
  matchFenced (lang :: langs) text = matchFenced langs text.
Proof. intros Hstart. cbn [matchFenced]. rewrite Hstart. reflexivity. Qed.

Lemma firstFenced_here (text code : jsstring) :
  matchFenced fenceLanguages text = Some code -> firstFenced text = Some code.
Proof. intros Hmatch. destruct text; cbn [firstFenced]; rewrite Hmatch; reflexivity. Qed.

(** X17. The first fenced block of an answer is the code: with no backtick
    before the opening fence, one of the three headers, and code that
    holds no fence and does not end with a backtick, the code comes back
    unchanged, whatever follows the closing fence. *)
Theorem extractCode_fenced (pre lang code post : jsstring) :
  ~ In 96%N pre ->
  In lang fenceLanguages ->
  indexOf code (units "```") = -1 ->
  last code 0%N <> 96%N ->
  extractCode (pre ++ units "```" ++ lang ++ [10%N] ++ code ++ units "```" ++ post)
  = Some code.
Proof.
  intros Hpre Hlang Hnone Hlast. unfold extractCode.
  rewrite firstFenced_skips by exact Hpre.
  assert (Hfirst : firstFenced (units "```" ++ lang ++ [10%N] ++ code ++ units "```" ++ post)
                   = Some code).
  { replace (units "```" ++ lang ++ [10%N] ++ code ++ units "```" ++ post)
      with ((units "```" ++ lang ++ [10%N]) ++ code ++ units "```" ++ post)
      by (rewrite <- !app_assoc; reflexivity).
    assert (Hmatch : matchFenced fenceLanguages
                       ((units "```" ++ lang ++ [10%N]) ++ code ++ units "```" ++ post)
                     = Some code).
    { unfold fenceLanguages in Hlang |- *.
      destruct Hlang as [<- | [<- | [<- | []]]].
      - apply matchFenced_here; assumption.
      - rewrite matchFenced_next by reflexivity.
        apply matchFenced_here; assumption.
      - rewrite !matchFenced_next by reflexivity.
        apply matchFenced_here; assumption. }
    apply firstFenced_here. exact Hmatch. }
  rewrite Hfirst. reflexivity.
Qed.

Lemma extractCode_fenced_witness :
  extractCode (units "Here it is:" ++ units "```" ++ units "ts" ++ [10%N]
               ++ units "console.log(`<svg/>`);" ++ units "```" ++ units " Enjoy!")
  = Some (units "console.log(`<svg/>`);").
Proof.
  apply (extractCode_fenced (units "Here it is:") (units "ts")
           (units "console.log(`<svg/>`);") (units " Enjoy!")).
  - vm_compute. intros H. repeat (destruct H as [H | H]; [discriminate H |]). exact H.
  - right. left. reflexivity.
  - vm_compute. reflexivity.
  - vm_compute. discriminate.
Defined.

(** X18. An answer without a backtick is taken whole when it mentions both
    [console.log] and [JSON.stringify], and gives nothing otherwise. *)
Theorem extractCode_unfenced (text : jsstring) :
  ~ In 96%N text ->
  extractCode text
  = if includes text (units "console.log") && includes text (units "JSON.stringify")
    then Some text else None.
Proof.
  intros Htext. unfold extractCode. rewrite firstFenced_none by exact Htext.
  reflexivity.
Qed.

Lemma extractCode_unfenced_witness :
  extractCode (units "console.log(JSON.stringify([]))")
  = Some (units "console.log(JSON.stringify([]))").
Proof.
  rewrite (extractCode_unfenced (units "console.log(JSON.stringify([]))")).
  - vm_compute. reflexivity.
  - vm_compute. intros H. repeat (destruct H as [H | H]; [discriminate H |]). exact H.
Defined.
